(** * Redirect tables of yari: a shallow embedding of the redirect module

    The module keeps, per locale, a table of redirect pairs [(from, to)],
    flattens chains of redirects ([shortCuts]), merges updates into a stored
    table ([loadLocaleAndAdd], [add]), reads and writes the table file
    ([loadPairsFromFile], [save]) and answers lookups from a cache of all
    tables ([load], [resolve]).

    Conventions of the embedding.
    - A JavaScript string is a [string]: the bytes of its UTF-8 encoding.
      [<] and [>] on strings compare the UTF-16 code units of the strings;
      [js_compare] does so on the bytes, which are in the order of the code
      units but for the first bytes of the characters above U+FFFF and of
      those from U+E000 to U+FFFF ([js_compare_utf16]).
    - [String.prototype.toLowerCase] depends on the Unicode tables and is a
      parameter [toLowerCase] of the development; no statement below assumes
      anything about it.  [ascii_toLowerCase] is the instance used to run the
      code on concrete tables: it is the JavaScript function on every string
      whose cased letters are ASCII.
    - [console.log] and [throw] are the two effects of the code; a
      computation of type [M A] yields the lines it logged and either a value
      or the message of the error it threw.
    - A JavaScript [Map] is its list of entries in insertion order, a [Set]
      its list of elements.
    - What the module imports and what the machine provides (constants,
      helpers of other modules, the files and folders, [path.join], [URL])
      is a record [Env].
    - [save] opens a write stream and returns; the file is written later,
      or not at all.  [save] and [add] yield the stream they leave, and
      [finish] says what becomes of it.
    - The cache [redirects] of the module is the state of [load] and
      [resolve]: a computation of type [Cache.SM A] takes the cache and
      yields the cache it leaves with what it logged and returned or
      threw. *)

From Stdlib Require Import List String Ascii Bool Arith Lia Permutation Sorted.
From Stdlib Require Import ListDec NArith ZArith.
From Stdlib Require OrderedTypeEx.
Import ListNotations.
Local Open Scope string_scope.
Local Open Scope list_scope.

Set Implicit Arguments.

(** ** Effects: a log and an exception *)

Inductive result (A : Type) : Type :=
| Ok (a : A)
| Throw (msg : string).
Arguments Ok {A} a.
Arguments Throw {A} msg.

Definition M (A : Type) : Type := (list string * result A)%type.

Definition ret {A} (a : A) : M A := ([], Ok a).

Definition bind {A B} (m : M A) (f : A -> M B) : M B :=
  match m with
  | (l1, Ok a) => let '(l2, r) := f a in (l1 ++ l2, r)
  | (l1, Throw e) => (l1, Throw e)
  end.

Definition throw {A} (msg : string) : M A := ([], Throw msg).

Definition console_log (msg : string) : M unit := ([msg], Ok tt).

Notation "x <- c1 ;; c2" := (bind c1 (fun x => c2))
  (at level 61, c1 at next level, right associativity).
Notation "c1 ;; c2" := (bind c1 (fun _ => c2))
  (at level 61, right associativity).

(** [for (const x of xs) body(x)] *)
Fixpoint forEach {A} (body : A -> M unit) (xs : list A) : M unit :=
  match xs with
  | [] => ret tt
  | x :: xs' => body x ;; forEach body xs'
  end.

(** A loop that updates one local variable. *)
Fixpoint foldM {A S} (body : S -> A -> M S) (xs : list A) (s : S) : M S :=
  match xs with
  | [] => ret s
  | x :: xs' => s' <- body s x ;; foldM body xs' s'
  end.

(** ** Strings *)

(** JavaScript truthiness of a string: every string but the empty one. *)
Definition truthy (s : string) : bool :=
  match s with
  | EmptyString => false
  | String _ _ => true
  end.

Definition lower_ascii (c : ascii) : ascii :=
  let n := nat_of_ascii c in
  if ((65 <=? n) && (n <=? 90))%nat then ascii_of_nat (n + 32) else c.

Fixpoint ascii_toLowerCase (s : string) : string :=
  match s with
  | EmptyString => EmptyString
  | String c s' => String (lower_ascii c) (ascii_toLowerCase s')
  end.

(** [xs.join(sep)] *)
Definition join (sep : string) (xs : list string) : string :=
  String.concat sep xs.

(** [xs.includes(x)] on an array of strings. *)
Definition includes_elem (xs : list string) (x : string) : bool :=
  existsb (String.eqb x) xs.

(** ** JavaScript [Map] with string keys

    The entries in insertion order; [set] on a key that is present replaces
    the value and keeps the position. *)

Definition JsMap : Type := list (string * string).

Fixpoint map_get (m : JsMap) (k : string) : option string :=
  match m with
  | [] => None
  | (k', v) :: m' => if String.eqb k' k then Some v else map_get m' k
  end.

Fixpoint map_set (m : JsMap) (k v : string) : JsMap :=
  match m with
  | [] => [(k, v)]
  | (k', v') :: m' =>
      if String.eqb k' k then (k', v) :: m' else (k', v') :: map_set m' k v
  end.

(** [new Map(entries)] *)
Definition new_Map (entries : list (string * string)) : JsMap :=
  fold_left (fun m e => map_set m (fst e) (snd e)) entries [].

(** ** Sorting

    [Array.prototype.sort] is stable, and with a consistent comparator its
    result is the stable sorted arrangement, whatever algorithm the engine
    runs.  Insertion from the right computes that arrangement. *)

Definition pair : Type := (string * string)%type.

(** [a > c] and [a < c] on strings compare UTF-16 code units.  Read on the
    bytes of UTF-8, the code units of two strings are in the order of their
    bytes, except where two characters start: a character above U+FFFF,
    whose first byte is F0 to F4, is a pair of surrogates, D800 to DFFF, and
    these are below the code units E000 to FFFF of the characters whose
    first byte is EE or EF.  [utf16_place] is the place of a byte in that
    order, with F0 to F4 moved below EE and EF, [utf16_key] the places of
    the bytes of a string, and [js_compare] compares two strings by these;
    [js_compare_utf16] shows that this compares the code units. *)
Definition utf16_place (n : N) : N :=
  (if (n =? 238) || (n =? 239) then n + 5
   else if (240 <=? n) && (n <=? 244) then n - 2
   else n)%N.

Definition utf16_rank (c : ascii) : ascii :=
  ascii_of_N (utf16_place (N_of_ascii c)).

Fixpoint utf16_key (s : string) : string :=
  match s with
  | EmptyString => EmptyString
  | String c s' => String (utf16_rank c) (utf16_key s')
  end.

Definition js_compare (a c : string) : comparison :=
  String.compare (utf16_key a) (utf16_key c).

Definition str_gt (a c : string) : bool :=
  match js_compare a c with Gt => true | _ => false end.
Definition str_lt (a c : string) : bool :=
  match js_compare a c with Lt => true | _ => false end.

Definition sortTuples (x y : pair) : comparison :=
  let '(a, b) := x in
  let '(c, d) := y in
  if str_gt a c then Gt
  else if str_lt a c then Lt
  else if str_gt b d then Gt
  else if str_lt b d then Lt
  else Eq.

Definition after (cmp : pair -> pair -> comparison) (x y : pair) : bool :=
  match cmp x y with Gt => true | _ => false end.

Fixpoint sort_insert (cmp : pair -> pair -> comparison) (x : pair)
    (l : list pair) : list pair :=
  match l with
  | [] => [x]
  | y :: l' => if after cmp x y then y :: sort_insert cmp x l' else x :: l
  end.

Fixpoint sort (cmp : pair -> pair -> comparison) (l : list pair) : list pair :=
  match l with
  | [] => []
  | x :: l' => sort_insert cmp x (sort cmp l')
  end.

(** ** The graph resolver *)

Section Resolver.

Variable toLowerCase : string -> string.

(** The outcome of one walk.  [Arrived froms s]: the walk stopped at [s],
    which has no outgoing edge, after visiting [froms].  [Looped froms next]:
    the edge out of the last node of [froms] leads back to [next], a node of
    [froms].  [Unfinished]: the bound on the number of steps was reached;
    [walk_of_finishes] shows that it never is. *)
Inductive walk : Type :=
| Arrived (froms : list string) (s : string)
| Looped (froms : list string) (next : string)
| Unfinished.

Fixpoint transit_walk (fuel : nat) (dg : JsMap) (s : string)
    (froms : list string) : walk :=
  match fuel with
  | O => Unfinished
  | S fuel' =>
      match map_get dg s with
      | Some next =>
          if truthy next then
            let froms' := froms ++ [s] in
            if includes_elem froms' next then Looped froms' next
            else transit_walk fuel' dg next froms'
          else Arrived froms s
      | None => Arrived froms s
      end
  end.

Definition cycle_msg (froms : list string) (next : string) : string :=
  ("redirect cycle [" ++ join ", " froms ++ "] → " ++ next)%string.

(** The walk that the call [transit(s)] performs: it starts with an empty
    [froms]; a walk visits each key of [dg] at most once, so the bound is
    never reached. *)
Definition walk_of (dg : JsMap) (s : string) : walk :=
  transit_walk (S (List.length dg)) dg s [].

(** [transit(s)]: the recursion of the source is a tail recursion over one
    array [froms]; its only effects, the log line or the error, happen in the
    last call.  The value is [Some (froms, s)] for [[froms, s]] and [None]
    for the empty array [[]]. *)
Definition transit (dg : JsMap) (throws : bool) (s : string)
    : M (option (list string * string)) :=
  match walk_of dg s with
  | Arrived froms s' => ret (Some (froms, s'))
  | Looped froms next =>
      let msg := cycle_msg froms next in
      if throws then throw msg
      else console_log msg ;; ret None
  | Unfinished => ret None
  end.

Definition casing_entries (pairs : list pair) : list (string * string) :=
  map (fun p => (toLowerCase (fst p), fst p)) pairs
  ++ map (fun p => (toLowerCase (snd p), snd p)) pairs.

Definition lowerCasePairs (pairs : list pair) : list pair :=
  map (fun p => (toLowerCase (fst p), toLowerCase (snd p))) pairs.

(** [casing.get(k)]; the value [undefined] of a missing key is modelled by
    the empty string, and [casing_get_present] shows that [shortCuts] only
    looks up keys that are present. *)
Definition casing_get (casing : JsMap) (k : string) : string :=
  match map_get casing k with
  | Some v => v
  | None => ""
  end.

(** [for (const from of froms) m.set(from, to)] *)
Definition set_all (m : JsMap) (froms : list string) (to : string) : JsMap :=
  fold_left (fun m' from => map_set m' from to) froms m.

Definition shortCuts (pairs : list pair) (throws : bool) : M (list pair) :=
  let casing := new_Map (casing_entries pairs) in
  let dg := new_Map (lowerCasePairs pairs) in
  transitiveDag <-
    foldM (fun tdag (p : pair) =>
             r <- transit dg throws (fst p) ;;
             match r with
             | Some (froms, to) => ret (set_all tdag froms to)
             | None => ret tdag
             end)
          (lowerCasePairs pairs) [] ;;
  let mappedPairs :=
    map (fun e => (casing_get casing (fst e), casing_get casing (snd e)))
        transitiveDag in
  ret (sort sortTuples mappedPairs).

End Resolver.

(** ** More of [String.prototype] *)

Definition TAB : ascii := "009"%char.
Definition LF : ascii := "010"%char.

(** [s.startsWith(p)] *)
Definition startsWith (s p : string) : bool := String.prefix p s.

(** [s.includes(sub)] *)
Fixpoint includes (s sub : string) : bool :=
  String.prefix sub s
  || match s with
     | EmptyString => false
     | String _ s' => includes s' sub
     end.

(** [s.split(sep)] for a separator of one character. *)
Fixpoint split_char (sep : ascii) (s : string) : list string :=
  match s with
  | EmptyString => [""]
  | String c s' =>
      if Ascii.eqb c sep then "" :: split_char sep s'
      else match split_char sep s' with
           | h :: t => String c h :: t
           | [] => [String c ""]
           end
  end.

(** [s.split(/\t+/)]: the fields between the maximal runs of tabs;
    [in_run] says that the character before was a tab. *)
Fixpoint split_tabs_from (in_run : bool) (s : string) : list string :=
  match s with
  | EmptyString => [""]
  | String c s' =>
      if Ascii.eqb c TAB then
        if in_run then split_tabs_from true s'
        else "" :: split_tabs_from true s'
      else match split_tabs_from false s' with
           | h :: t => String c h :: t
           | [] => [String c ""]
           end
  end.

Definition split_tabs (s : string) : list string := split_tabs_from false s.

(** The white space and line terminators that [trim] removes, as UTF-8:
    U+0009 to U+000D and U+0020; U+00A0; U+1680, U+2000 to U+200A, U+2028,
    U+2029, U+202F, U+205F, U+3000 and U+FEFF. *)
Definition ws1 (c : ascii) : bool :=
  let n := nat_of_ascii c in
  (((9 <=? n) && (n <=? 13)) || (n =? 32))%nat.

Definition ws2 (c1 c2 : ascii) : bool :=
  ((nat_of_ascii c1 =? 194) && (nat_of_ascii c2 =? 160))%nat.

Definition ws3 (c1 c2 c3 : ascii) : bool :=
  let n1 := nat_of_ascii c1 in
  let n2 := nat_of_ascii c2 in
  let n3 := nat_of_ascii c3 in
  (((n1 =? 225) && (n2 =? 154) && (n3 =? 128))
   || ((n1 =? 226) && (n2 =? 128)
       && (((128 <=? n3) && (n3 <=? 138)) || (n3 =? 168) || (n3 =? 169)
           || (n3 =? 175)))
   || ((n1 =? 226) && (n2 =? 129) && (n3 =? 159))
   || ((n1 =? 227) && (n2 =? 128) && (n3 =? 128))
   || ((n1 =? 239) && (n2 =? 187) && (n3 =? 191)))%nat.

(** [s.trimStart()] *)
Fixpoint trimStart (s : string) : string :=
  match s with
  | EmptyString => EmptyString
  | String c1 s1 =>
      if ws1 c1 then trimStart s1
      else match s1 with
           | EmptyString => s
           | String c2 s2 =>
               if ws2 c1 c2 then trimStart s2
               else match s2 with
                    | EmptyString => s
                    | String c3 s3 => if ws3 c1 c2 c3 then trimStart s3 else s
                    end
           end
  end.

Fixpoint rev_onto (s acc : string) : string :=
  match s with
  | EmptyString => acc
  | String c s' => rev_onto s' (String c acc)
  end.

Definition string_rev (s : string) : string := rev_onto s "".

(** [trimStart] on the reversed string: the bytes of a character come last
    byte first. *)
Fixpoint trimStart_rev (s : string) : string :=
  match s with
  | EmptyString => EmptyString
  | String c1 s1 =>
      if ws1 c1 then trimStart_rev s1
      else match s1 with
           | EmptyString => s
           | String c2 s2 =>
               if ws2 c2 c1 then trimStart_rev s2
               else match s2 with
                    | EmptyString => s
                    | String c3 s3 =>
                        if ws3 c3 c2 c1 then trimStart_rev s3 else s
                    end
           end
  end.

(** [s.trimEnd()] and [s.trim()] *)
Definition trimEnd (s : string) : string :=
  string_rev (trimStart_rev (string_rev s)).

Definition trim (s : string) : string := trimEnd (trimStart s).

(** ** JavaScript [Set] of strings: its elements in insertion order. *)

Definition JsSet : Type := list string.

Definition set_has (m : JsSet) (x : string) : bool := existsb (String.eqb x) m.

Definition set_add (m : JsSet) (x : string) : JsSet :=
  if set_has m x then m else m ++ [x].

Definition new_Set (xs : list string) : JsSet := fold_left set_add xs [].

(** ** The surroundings of the module

    What the module imports or finds on the machine: the constants and the
    helpers of modules that are not part of it, the file system, and the
    platform's [path.join] and [URL]. *)

Record Env : Type := {
  (** [VALID_LOCALES]: a [Map] from the lowercased locale to the locale. *)
  VALID_LOCALES : list (string * string);
  CONTENT_ROOT : string;
  (** [CONTENT_TRANSLATED_ROOT], which may be unset. *)
  CONTENT_TRANSLATED_ROOT : option string;
  slugToFolder : string -> string;
  isArchivedFilePath : string -> bool;
  (** [decodePath] and [decodeURI] throw on malformed escapes. *)
  decodePath : string -> result string;
  decodeURI : string -> result string;
  (** [resolve], the lookup in the cache of all tables. *)
  resolve : string -> M string;
  (** [path.join(...)] *)
  path_join : list string -> string;
  (** The files on disk: the text of the file at a path, if there is one. *)
  files : string -> option string;
  (** The folders on disk. *)
  isDirectory : string -> bool;
  (** [new URL(url).protocol]; [None] when the constructor throws. *)
  URL_protocol : string -> option string
}.

Definition with_files (E : Env) (fs : string -> option string) : Env :=
  {| VALID_LOCALES := VALID_LOCALES E;
     CONTENT_ROOT := CONTENT_ROOT E;
     CONTENT_TRANSLATED_ROOT := CONTENT_TRANSLATED_ROOT E;
     slugToFolder := slugToFolder E;
     isArchivedFilePath := isArchivedFilePath E;
     decodePath := decodePath E;
     decodeURI := decodeURI E;
     resolve := resolve E;
     path_join := path_join E;
     files := fs;
     isDirectory := isDirectory E;
     URL_protocol := URL_protocol E |}.

(** [fs.existsSync] and [fs.readFileSync] *)
Definition existsSync (E : Env) (p : string) : bool :=
  match files E p with Some _ => true | None => false end.

Definition readFileSync (E : Env) (p : string) : M string :=
  match files E p with
  | Some content => ret content
  | None => throw ("ENOENT: no such file or directory, open '" ++ p ++ "'")%string
  end.

Definition lift {A} (r : result A) : M A := ([], r).

(** A filter whose predicate logs or throws. *)
Fixpoint filterM {A} (keep : A -> M bool) (xs : list A) : M (list A) :=
  match xs with
  | [] => ret []
  | x :: xs' =>
      b <- keep x ;;
      rest <- filterM keep xs' ;;
      ret (if b then x :: rest else rest)
  end.

(** A row of a table as the loader has it: the first field and, when the
    row has one, the second; [[from, to]] binds [to] to [undefined]
    otherwise. *)
Definition row : Type := (string * option string)%type.

Definition loose (p : pair) : row := (fst p, Some (snd p)).

Definition TypeError_undefined (prop : string) : string :=
  ("TypeError: Cannot read properties of undefined (reading '" ++ prop ++ "')")%string.

Section Tables.

Variable toLowerCase : string -> string.
Variable E : Env.

Definition locale_values : list string := map snd (VALID_LOCALES E).

Definition FORBIDDEN_URL_SYMBOLS : list string :=
  [String LF ""; String TAB ""].

Definition VALID_LOCALES_SET : JsSet := new_Set locale_values.

Definition checkURLInvalidSymbols (url : string) : M unit :=
  forEach (fun character =>
             if includes url character then
               throw ("URL contains invalid character '" ++ character ++ "'")%string
             else ret tt)
          FORBIDDEN_URL_SYMBOLS.

Definition isVanityRedirectURL (url : string) : bool :=
  let localeUrls := new_Set (map (fun l => ("/" ++ l ++ "/")%string) locale_values) in
  set_has localeUrls url.

(** The value is [None] for [null]. *)
Definition resolveDocumentPath (url : string) : M (option string) :=
  if isVanityRedirectURL url then ret (Some url)
  else
    let bareURL := hd "" (split_char "#" url) in
    let parts := split_char "/" (toLowerCase bareURL) in
    let slug := skipn 3 parts in
    match nth_error parts 1 with
    | None =>
        throw "TypeError: The path argument must be of type string. Received undefined"
    | Some locale =>
        let relativeFilePath :=
          path_join E [locale; slugToFolder E (join "/" slug); "index.html"] in
        if isArchivedFilePath E relativeFilePath then
          ret (Some ("$ARCHIVED/" ++ relativeFilePath)%string)
        else
          let root := if String.eqb locale "en-us" then Some (CONTENT_ROOT E)
                      else CONTENT_TRANSLATED_ROOT E in
          match root with
          | Some r =>
              if truthy r then
                let filePath := path_join E [r; relativeFilePath] in
                if existsSync E filePath then ret (Some filePath) else ret None
              else
                console_log ("Trying to resolve a non-en-us path for " ++ url
                             ++ " without CONTENT_TRANSLATED_ROOT set.")%string ;;
                ret (Some ("$TRANSLATED/" ++ relativeFilePath)%string)
          | None =>
              console_log ("Trying to resolve a non-en-us path for " ++ url
                           ++ " without CONTENT_TRANSLATED_ROOT set.")%string ;;
              ret (Some ("$TRANSLATED/" ++ relativeFilePath)%string)
          end
    end.

Definition validateURLLocale (url : string) : M unit :=
  let parts := split_char "/" url in
  let nothing := hd "" parts in
  let locale := nth_error parts 1 in
  let docs := nth_error parts 2 in
  let shown := match locale with Some l => l | None => "undefined" end in
  if truthy nothing
     || negb (match locale with Some l => truthy l | None => false end)
     || negb (match docs with Some d => String.eqb d "docs" | None => false end)
  then throw ("The URL is expected to start with /$locale/docs/: " ++ url)%string
  else
    let validValues := locale_values in
    if negb (includes_elem validValues shown) then
      throw ("'" ++ shown ++ "' not in " ++ join "," validValues)%string
    else ret tt.

(** [if (path)]: the path is a string that is not empty. *)
Definition found (path : option string) : bool :=
  match path with Some p => truthy p | None => false end.

Definition shown_path (path : option string) : string :=
  match path with Some p => p | None => "null" end.

Definition validateFromURL (url : string) (checkResolve : bool) : M unit :=
  if negb (startsWith url "/") then
    throw ("From-URL must start with a / was " ++ url)%string
  else if negb (includes url "/docs/") then
    throw ("From-URL must contain '/docs/' was " ++ url)%string
  else if negb (match nth_error (split_char "/" url) 1 with
                | Some l => set_has VALID_LOCALES_SET l
                | None => false
                end) then
    throw ("The locale prefix is not valid or wrong case was " ++ url)%string
  else
    checkURLInvalidSymbols url ;;
    validateURLLocale url ;;
    path <- resolveDocumentPath url ;;
    if found path then
      throw ("From-URL resolves to a file (" ++ shown_path path ++ ")")%string
    else if checkResolve then
      resolved <- resolve E url ;;
      if negb (String.eqb resolved url) then
        throw (url ++ " is already matched as a redirect (to: '" ++ resolved ++ "')")%string
      else ret tt
    else ret tt.

(** The value of the source, [url] or [undefined], is never used. *)
Definition validateToURL (url : string) (checkResolve checkPath : bool)
    : M unit :=
  if isVanityRedirectURL url then ret tt
  else if includes url "://" then
    match URL_protocol E url with
    | None => throw "TypeError: Invalid URL"
    | Some protocol =>
        if negb (String.eqb protocol "https:") then
          throw "We only redirect to https://"
        else ret tt
    end
  else if startsWith url "/" then
    checkURLInvalidSymbols url ;;
    validateURLLocale url ;;
    (if checkResolve then
       resolved <- resolve E url ;;
       if negb (String.eqb resolved url) then
         throw (url ++ " is already matched as a redirect (to: '" ++ resolved ++ "')")%string
       else ret tt
     else ret tt) ;;
    if checkPath then
      path <- resolveDocumentPath url ;;
      if negb (found path) then
        throw ("To-URL has to resolve to a file (" ++ url ++ ")")%string
      else ret tt
    else ret tt
  else throw ("To-URL has to be external or start with / (" ++ url ++ ")")%string.

Definition decodePair (r : row) : M (string * string) :=
  let '(from, to) := r in
  fromDecoded <- lift (decodePath E from) ;;
  match to with
  | None => throw (TypeError_undefined "startsWith")
  | Some to =>
      toDecoded <- (if startsWith to "/" then lift (decodePath E to)
                    else lift (decodeURI E to)) ;;
      ret (fromDecoded, toDecoded)
  end.

Definition errorOnEncoded (paris : list row) : M unit :=
  forEach (fun r : row =>
             let '(from, to) := r in
             d <- decodePair (from, to) ;;
             let '(decodedFrom, decodedTo) := d in
             if negb (String.eqb decodedFrom from) then
               throw ("From URL must be decoded: " ++ from)%string
             else if negb (match to with
                           | Some to => String.eqb decodedTo to
                           | None => false
                           end) then
               throw ("To URL must be decoded: " ++ shown_path to)%string
             else ret tt)
          paris.

Definition errorOnDuplicated (pairs : list row) : M unit :=
  foldM (fun (seen : JsSet) (r : row) =>
           let fromLower := toLowerCase (fst r) in
           if set_has seen fromLower then
             throw ("Duplicated redirect: " ++ fromLower)%string
           else ret (set_add seen fromLower))
        pairs [] ;;
  ret tt.

Definition removeConflictingOldRedirects (oldPairs updatePairs : list pair)
    : M (list pair) :=
  if (List.length oldPairs =? 0)%nat then ret oldPairs
  else
    let newTargets := new_Set (map (fun p => toLowerCase (snd p)) updatePairs) in
    filterM (fun p : pair =>
               let '(from, to) := p in
               let conflictingTo := set_has newTargets (toLowerCase from) in
               (if conflictingTo then
                  console_log ("removing conflicting redirect " ++ from
                               ++ String TAB "" ++ to)%string
                else ret tt) ;;
               ret (negb conflictingTo))
            oldPairs.

Definition removeOrphanedRedirects (pairs : list pair) : M (list pair) :=
  filterM (fun p : pair =>
             let '(from, to) := p in
             fromPath <- resolveDocumentPath from ;;
             if found fromPath then
               console_log ("removing orphaned redirect (from exists): " ++ from
                            ++ String TAB "" ++ to)%string ;;
               ret false
             else if startsWith to "/" then
               toPath <- resolveDocumentPath to ;;
               if negb (found toPath) then
                 console_log ("removing orphaned redirect (to doesn't exists): "
                              ++ from ++ String TAB "" ++ to)%string ;;
                 ret false
               else ret true
             else ret true)
          pairs.

Definition validatePairs (pairs : list row) (checkExists : bool) : M unit :=
  forEach (fun r : row =>
             let '(from, to) := r in
             validateFromURL from false ;;
             match to with
             | None => throw (TypeError_undefined "includes")
             | Some to => validateToURL to false checkExists
             end)
          pairs.

(** The rows of the text of a table. *)
Definition parse_rows (content : string) : list row :=
  map (fun line =>
         match split_tabs (trim line) with
         | from :: rest => (from, hd_error rest)
         | [] => ("", None)
         end)
      (tl (split_char LF (trim content))).

(** The rows that have both fields; after [validatePairs] these are all the
    rows ([validatePairs_typed]). *)
Definition typed (rows : list row) : list pair :=
  flat_map (fun r : row =>
              match snd r with
              | Some to => [(fst r, to)]
              | None => []
              end)
           rows.

Definition loadPairsFromFile (filePath : string) (strict : bool)
    : M (list pair) :=
  content <- readFileSync E filePath ;;
  let pairs := parse_rows content in
  (if strict then errorOnEncoded pairs ;; errorOnDuplicated pairs
   else ret tt) ;;
  validatePairs pairs strict ;;
  ret (typed pairs).

(** [save] opens a write stream for the table file of the folder and hands
    it the lines; when [save] returns, nothing has reached the disk.  Its
    value here is that stream: the folder, the path that [createWriteStream]
    got, and the text that it has been given when [end] is called. *)
Record write_stream : Type := {
  stream_folder : string;
  stream_path : string;
  stream_text : string
}.

Definition table_text (pairs : list pair) : string :=
  ("# FROM-URL" ++ String TAB "" ++ "TO-URL" ++ String LF ""
   ++ String.concat ""
        (map (fun p : pair => fst p ++ String TAB "" ++ snd p ++ String LF "")
             pairs))%string.

Definition save (localeFolder : string) (pairs : list pair) : write_stream :=
  let filePath := path_join E [localeFolder; "_redirects.txt"] in
  {| stream_folder := localeFolder;
     stream_path := filePath;
     stream_text := table_text pairs |}.

(** The files once a stream has written its text. *)
Definition written (w : write_stream) : Env :=
  with_files E (fun p => if String.eqb p (stream_path w)
                         then Some (stream_text w)
                         else files E p).


(** *** Arrays as objects

    [loadLocaleAndAdd] compares two arrays with [==], which holds of two
    arrays when they are one object.  The arrays of that function live in a
    store, one slot for each array created, and are known by their slot. *)

Definition ref : Type := nat.
Definition store : Type := list (list pair).

Definition alloc (h : store) (xs : list pair) : store * ref :=
  (h ++ [xs], List.length h).

Definition read (h : store) (r : ref) : list pair := nth r h [].

Fixpoint write (h : store) (r : ref) (xs : list pair) : store :=
  match h, r with
  | [], _ => []
  | _ :: h', O => xs :: h'
  | ys :: h', S r' => ys :: write h' r' xs
  end.

(** [a.push(...xs)] *)
Definition push (h : store) (r : ref) (xs : list pair) : store :=
  write h r (read h r ++ xs).

(** [removeConflictingOldRedirects] returns the array [oldPairs] itself when
    it is empty and a new array, made by [filter], otherwise. *)
Definition removeConflictingOldRedirects_in (h : store) (oldPairs : ref)
    (updatePairs : list pair) : M (store * ref) :=
  cleaned <- removeConflictingOldRedirects (read h oldPairs) updatePairs ;;
  if (List.length (read h oldPairs) =? 0)%nat then ret (h, oldPairs)
  else ret (alloc h cleaned).

Record loaded : Type := {
  loaded_pairs : list pair;
  loaded_root : string;
  changed : bool
}.

Definition loadLocaleAndAdd (locale : string) (updatePairs : list pair)
    (fix_ : bool) : M loaded :=
  errorOnEncoded (map loose updatePairs) ;;
  errorOnDuplicated (map loose updatePairs) ;;
  validatePairs (map loose updatePairs) true ;;
  let locale := toLowerCase locale in
  root <- (if negb (String.eqb locale "en-us") then
             match CONTENT_TRANSLATED_ROOT E with
             | Some r =>
                 if truthy r then ret r
                 else throw ("trying to add redirects for " ++ locale
                             ++ " but CONTENT_TRANSLATED_ROOT not set")%string
             | None => throw ("trying to add redirects for " ++ locale
                              ++ " but CONTENT_TRANSLATED_ROOT not set")%string
             end
           else ret (CONTENT_ROOT E)) ;;
  let redirectsFilePath := path_join E [root; locale; "_redirects.txt"] in
  let '(h, pairs) := alloc [] [] in
  h <- (if existsSync E redirectsFilePath then
          (* If we wanna fix we load relaxed, hence the !fix. *)
          stored <- loadPairsFromFile redirectsFilePath (negb fix_) ;;
          ret (push h pairs stored)
        else ret h) ;;
  hc <- removeConflictingOldRedirects_in h pairs updatePairs ;;
  let '(h, cleanPairs) := hc in
  let h := push h cleanPairs updatePairs in
  flat <- shortCuts toLowerCase (read h cleanPairs) false ;;
  let '(h, simplifiedPairs) := alloc h flat in
  hs <- (if fix_ then
           kept <- removeOrphanedRedirects (read h simplifiedPairs) ;;
           ret (alloc h kept)
         else ret (h, simplifiedPairs)) ;;
  let '(h, simplifiedPairs) := hs in
  validatePairs (map loose (read h simplifiedPairs)) true ;;
  ret {| loaded_pairs := read h simplifiedPairs;
         loaded_root := root;
         changed := Nat.eqb simplifiedPairs pairs |}.

Definition validateLocale (locale : string) (strict : bool) : M unit :=
  (* To validate strict we check if there is something to fix. *)
  r <- loadLocaleAndAdd locale [] strict ;;
  if changed r then
    throw (" _redirects.txt for " ++ locale ++ " is flawed")%string
  else ret tt.

End Tables.

(** ** The entry points of the module *)

(** [xs.map(f)] for an [f] that may throw. *)
Fixpoint mapM {A B} (f : A -> M B) (xs : list A) : M (list B) :=
  match xs with
  | [] => ret []
  | x :: xs' =>
      y <- f x ;;
      ys <- mapM f xs' ;;
      ret (y :: ys)
  end.

Section Api.

Variable toLowerCase : string -> string.
Variable E : Env.

Definition decodePairs (pairs : list row) : M (list pair) :=
  mapM (decodePair E) pairs.


(** The value is [None] for [null]. *)
Definition redirectFilePathForLocale (locale : string) (throws : bool)
    : M (option string) :=
  let makeFilePath := fun root : string =>
    path_join E [root; toLowerCase locale; "_redirects.txt"] in
  let filePath := makeFilePath (CONTENT_ROOT E) in
  if existsSync E filePath then ret (Some filePath)
  else
    let translated :=
      match CONTENT_TRANSLATED_ROOT E with
      | Some root =>
          if truthy root then
            let translatedFilePath := makeFilePath root in
            if existsSync E translatedFilePath then Some translatedFilePath
            else None
          else None
      | None => None
      end in
    match translated with
    | Some translatedFilePath => ret (Some translatedFilePath)
    | None =>
        if throws then throw ("no _redirects file for " ++ locale)%string
        else ret None
    end.

End Api.

(** ** The module-level cache

    [redirects] is one [Map] for as long as the module is loaded; [load]
    writes it and [resolve] reads it.  A computation over the cache takes
    the map as it finds it and yields the map as it leaves it, also when it
    throws. *)

Module Cache.

Definition SM (A : Type) : Type := JsMap -> JsMap * M A.

Definition sret {A} (a : A) : SM A := fun redirects => (redirects, ret a).

Definition sbind {A B} (m : SM A) (f : A -> SM B) : SM B :=
  fun redirects =>
    match m redirects with
    | (redirects1, (l1, Ok a)) =>
        let '(redirects2, (l2, r)) := f a redirects1 in
        (redirects2, (l1 ++ l2, r))
    | (redirects1, (l1, Throw e)) => (redirects1, (l1, Throw e))
    end.

(** A computation that does not touch the cache. *)
Definition run {A} (m : M A) : SM A := fun redirects => (redirects, m).

(** [redirects.size], [redirects.get(k)] and [redirects.set(k, v)] *)
Definition redirects_size : SM nat :=
  fun redirects => (redirects, ret (List.length redirects)).

Definition redirects_get (k : string) : SM (option string) :=
  fun redirects => (redirects, ret (map_get redirects k)).

Definition redirects_set (k v : string) : SM unit :=
  fun redirects => (map_set redirects k v, ret tt).

Notation "x <~ c1 ;~ c2" := (sbind c1 (fun x => c2))
  (at level 61, c1 at next level, right associativity).
Notation "c1 ;~ c2" := (sbind c1 (fun _ => c2))
  (at level 61, right associativity).

Fixpoint sforEach {A} (body : A -> SM unit) (xs : list A) : SM unit :=
  match xs with
  | [] => sret tt
  | x :: xs' => body x ;~ sforEach body xs'
  end.

Section Api.

Variable toLowerCase : string -> string.
Variable E : Env.

(** [resolveFundamental(url).url], of a module that is not part of this
    one; [None] when the object has no such property. *)
Variable resolveFundamental : string -> option string.

Definition load (locales : list string) (verbose : bool) : SM unit :=
  paths <~ run (mapM (fun locale =>
                        redirectFilePathForLocale toLowerCase E locale false)
                     locales) ;~
  let files :=
    flat_map (fun f : option string =>
                match f with Some p => [p] | None => [] end)
             paths in
  sforEach (fun redirectsFilePath =>
              run (if verbose then
                     console_log ("Checking " ++ redirectsFilePath)%string
                   else ret tt) ;~
              pairs <~ run (loadPairsFromFile toLowerCase E
                                              redirectsFilePath false) ;~
              sforEach (fun p : pair =>
                          let '(from, to) := p in
                          redirects_set (toLowerCase from) to)
                       pairs)
           files.

Definition resolve (url : string) : SM string :=
  size <~ redirects_size ;~
  (if (size =? 0)%nat then load (map fst (VALID_LOCALES E)) false
   else sret tt) ;~
  let fundamentalOrUrl :=
    match resolveFundamental url with
    | Some u => if truthy u then u else url
    | None => url
    end in
  decoded <~ run (lift (decodePath E fundamentalOrUrl)) ;~
  target <~ redirects_get (toLowerCase decoded) ;~
  sret (match target with
        | Some to => if truthy to then to else fundamentalOrUrl
        | None => fundamentalOrUrl
        end).

End Api.

End Cache.

(** * The vocabulary of the statements *)

(** ** Maps and order *)

Definition keys (m : JsMap) : list string := map fst m.

(** The value of the last entry with key [k] in a list of entries. *)
Fixpoint last_value (es : list (string * string)) (k : string)
    : option string :=
  match es with
  | [] => None
  | (k', v) :: es' =>
      match last_value es' k with
      | Some v' => Some v'
      | None => if String.eqb k' k then Some v else None
      end
  end.

(** The spec's reading of the casing map: the casing of the first
    occurrence of a URL, in the order in which the table lists them. *)
Fixpoint first_seen (toLowerCase : string -> string) (pairs : list pair)
    (k : string) : option string :=
  match pairs with
  | [] => None
  | (from, to) :: pairs' =>
      if String.eqb (toLowerCase from) k then Some from
      else if String.eqb (toLowerCase to) k then Some to
      else first_seen toLowerCase pairs' k
  end.

(** No element is to come after its successor. *)
Definition in_order (cmp : pair -> pair -> comparison) : list pair -> Prop :=
  Sorted (fun x y => after cmp x y = false).

(** ** Walks in the graph *)

Section Graph.

Variable dg : JsMap.

(** The outgoing edge of a node as [transit] sees it: [dg.get(s)] when that
    is a truthy string. *)
Definition dg_next (s : string) : option string :=
  match map_get dg s with
  | Some next => if truthy next then Some next else None
  | None => None
  end.

(** [steps a l b]: following edges from [a] visits the nodes [l] in this
    order and reaches [b]. *)
Inductive steps : string -> list string -> string -> Prop :=
| steps_nil a : steps a [] a
| steps_cons a a' l b :
    dg_next a = Some a' -> steps a' l b -> steps a (a :: l) b.

(** [chain s l t]: the walk from [s] visits [l] and ends at [t], which has no
    outgoing edge. *)
Definition chain (s : string) (l : list string) (t : string) : Prop :=
  steps s l t /\ dg_next t = None.

Definition has_chain (s : string) : Prop := exists l t, chain s l t.


Definition on_cycle (u : string) : Prop := exists l, steps u (u :: l) u.

(** What one turn of the loop of [shortCuts] does to [transitiveDag], and
    what it logs. *)
Definition record_walk (tdag : JsMap) (s : string) : JsMap :=
  match walk_of dg s with
  | Arrived froms to => set_all tdag froms to
  | _ => tdag
  end.

Definition cycle_msgs (sources : list string) : list string :=
  flat_map (fun s => match walk_of dg s with
                     | Looped froms next => [cycle_msg froms next]
                     | _ => []
                     end) sources.

Definition loop_body (throws : bool) (tdag : JsMap) (p : pair) : M JsMap :=
  r <- transit dg throws (fst p) ;;
  match r with
  | Some (froms, to) => ret (set_all tdag froms to)
  | None => ret tdag
  end.

(** Every recorded edge leads from a node to the end of its chain. *)
Definition sound (tdag : JsMap) : Prop :=
  forall u t, map_get tdag u = Some t -> exists l, chain u (u :: l) t.

End Graph.

(** The map [transitiveDag] when the loop of [shortCuts] is done, and the
    step that restores the casing of one of its entries. *)
Definition transitiveDag (toLowerCase : string -> string) (pairs : list pair)
    : JsMap :=
  fold_left (record_walk (new_Map (lowerCasePairs toLowerCase pairs)))
            (map fst (lowerCasePairs toLowerCase pairs)) [].

Definition restore (toLowerCase : string -> string) (pairs : list pair)
    (e : pair) : pair :=
  (casing_get (new_Map (casing_entries toLowerCase pairs)) (fst e),
   casing_get (new_Map (casing_entries toLowerCase pairs)) (snd e)).

(** ** Tables and their text *)

(** The test of [removeConflictingOldRedirects]: the lowercased source of
    the old pair is the lowercased target of some update. *)
Definition conflicting (toLowerCase : string -> string)
    (updatePairs : list pair) (old : pair) : bool :=
  existsb (fun u => String.eqb (toLowerCase (fst old)) (toLowerCase (snd u)))
          updatePairs.

(** A character below 128 is no byte of a character of several bytes. *)
Definition ascii7 (c : ascii) : bool := (nat_of_ascii c <? 128)%nat.

Fixpoint has_char (c : ascii) (s : string) : bool :=
  match s with
  | EmptyString => false
  | String a s' => Ascii.eqb a c || has_char c s'
  end.

(** What [trim] and the loader need of a pair to read it back as written. *)
Definition reads_back (p : pair) : Prop :=
  has_char TAB (fst p) = false /\ has_char LF (fst p) = false
  /\ fst p <> "" /\ trimStart (fst p) = fst p
  /\ has_char TAB (snd p) = false /\ has_char LF (snd p) = false
  /\ snd p <> "" /\ trimEnd (snd p) = snd p.

(** The line of a pair, the first line of a table, and the text of a table
    without its last newline. *)
Definition line_of (p : pair) : string := (fst p ++ String TAB (snd p))%string.

Definition header : string := ("# FROM-URL" ++ String TAB "TO-URL")%string.

Definition joined (pairs : list pair) : string :=
  fold_left (fun acc p => (acc ++ String LF (line_of p))%string) pairs header.

(** [always P m]: whenever [m] returns a value, [P] holds of it. *)
Definition always {A} (P : A -> Prop) (m : M A) : Prop :=
  forall log a, m = (log, Ok a) -> P a.

(** ** Example tables and surroundings *)

Definition A_B_C : list pair :=
  [("/en-US/docs/A", "/en-US/docs/B"); ("/en-US/docs/B", "/en-US/docs/C")].

Definition A_B_A : list pair :=
  [("/en-US/docs/A", "/en-US/docs/B"); ("/en-US/docs/B", "/en-US/docs/A")].

(** A table whose first entry leads into a cycle without being on it. *)
Definition X_A_B_A : list pair :=
  ("/en-US/docs/X", "/en-US/docs/A") :: A_B_A.

(** The table of the comment in [shortCuts], with its mixed casing. *)
Definition window_document : list pair :=
  [("/en-US/docs/window.document", "/en-US/docs/Web/API/window.document");
   ("/en-US/docs/Web/API/Window.document", "/en-US/docs/Web/API/Window/document")].

(** Two pairs with the same source, up to case. *)
Definition A_B_a_C : list pair :=
  [("/en-US/docs/A", "/en-US/docs/B"); ("/en-us/docs/a", "/en-US/docs/C")].


(** A target written in two casings. *)
Definition A_B_C_b : list pair :=
  [("/en-US/docs/A", "/en-US/docs/B"); ("/en-US/docs/C", "/en-US/docs/b")].

(** The example surroundings: two locales, the content of [en-US] under
    [/content], in the folder [en-us], no translated content, paths joined
    with a slash, and a [URL] that knows the two web schemes. *)
Definition docs_env (disk : list (string * string)) : Env :=
  {| VALID_LOCALES := [("en-us", "en-US"); ("fr", "fr")];
     CONTENT_ROOT := "/content";
     CONTENT_TRANSLATED_ROOT := None;
     slugToFolder := fun s => s;
     isArchivedFilePath := fun _ => false;
     decodePath := fun s => Ok s;
     decodeURI := fun s => Ok s;
     resolve := fun s => ret s;
     path_join := join "/";
     files := map_get disk;
     isDirectory := includes_elem ["/content"; "/content/en-us"];
     URL_protocol := fun u =>
       if startsWith u "https://" then Some "https:"
       else if startsWith u "http://" then Some "http:"
       else None |}.

(** A disk with one document, for C. *)
Definition example_disk : list (string * string) :=
  [("/content/en-us/c/index.html", "<p>C</p>")].

(** A table on disk whose target, in a locale without content, has no
    document; the disk holds nothing else. *)
Definition nope_disk : list (string * string) :=
  [("/content/en-us/_redirects.txt",
    table_text [("/en-US/docs/A", "/fr/docs/Nope")])].

(** The table A -> B, B -> C on disk, with a document for C only. *)
Definition chain_disk : list (string * string) :=
  [("/content/en-us/_redirects.txt", table_text A_B_C);
   ("/content/en-us/c/index.html", "<p>C</p>")].

(** ** Order of the output *)



(** ** Code units

    The two encodings of a code point: its bytes in UTF-8 and its code
    units in UTF-16.  A string holds the code points that are no
    surrogates. *)
Definition utf8 (p : N) : list N :=
  (if p <? 128 then [p]
   else if p <? 2048 then [192 + p / 64; 128 + p mod 64]
   else if p <? 65536 then
          [224 + p / 4096; 128 + (p / 64) mod 64; 128 + p mod 64]
        else [240 + p / 262144; 128 + (p / 4096) mod 64;
              128 + (p / 64) mod 64; 128 + p mod 64])%N.

Definition utf16 (p : N) : list N :=
  (if p <? 65536 then [p]
   else [55296 + (p - 65536) / 1024; 56320 + (p - 65536) mod 1024])%N.

Definition scalar (p : N) : Prop :=
  (p < 55296 \/ (57344 <= p /\ p < 1114112))%N.

Definition string_of_bytes (bs : list N) : string :=
  fold_right (fun b s => String (ascii_of_N b) s) EmptyString bs.

(** The string of some code points, as the embedding has it, and its code
    units, which JavaScript compares. *)
Definition encode (ps : list N) : string :=
  string_of_bytes (flat_map utf8 ps).

Definition code_units (ps : list N) : list N := flat_map utf16 ps.

Fixpoint lex (l1 l2 : list N) : comparison :=
  match l1, l2 with
  | [], [] => Eq
  | [], _ :: _ => Lt
  | _ :: _, [] => Gt
  | x :: l1', y :: l2' =>
      match N.compare x y with
      | Eq => lex l1' l2'
      | c => c
      end
  end.

(** The bytes of a code point, in their places, and its code units, by
    the length of the encoding. *)
Inductive shape : N -> list N -> list N -> Prop :=
| shape1 p : (p < 128)%N -> shape p [p] [p]
| shape2 p a b :
    (p = 64 * a + b)%N -> (2 <= a)%N -> (a < 32)%N -> (b < 64)%N ->
    shape p [192 + a; 128 + b]%N [p]
| shape3 p a b c :
    (p = 4096 * a + 64 * b + c)%N ->
    (a <= 13)%N -> (b < 64)%N -> (c < 64)%N -> (2048 <= p)%N ->
    (p < 55296)%N ->
    shape p [224 + a; 128 + b; 128 + c]%N [p]
| shape3' p a b c :
    (p = 4096 * a + 64 * b + c)%N ->
    (14 <= a)%N -> (a <= 15)%N -> (b < 64)%N -> (c < 64)%N ->
    shape p [229 + a; 128 + b; 128 + c]%N [p]
| shape4 p a b c d hi lo :
    (p = 262144 * a + 4096 * b + 64 * c + d)%N ->
    (a <= 4)%N -> (b < 64)%N -> (c < 64)%N -> (d < 64)%N ->
    (p = 65536 + 1024 * hi + lo)%N -> (lo < 1024)%N -> (hi < 1024)%N ->
    shape p [238 + a; 128 + b; 128 + c; 128 + d]%N
          [55296 + hi; 56320 + lo]%N.

(** ** Documents *)

(** [bareURL]: the URL without its fragment. *)
Definition bareURL (url : string) : string := hd "" (split_char "#" url).

(** [resolveDocumentPath] returns a path that is neither [null] nor
    empty. *)
Definition has_document (toLowerCase : string -> string) (E : Env)
    (url : string) : bool :=
  match snd (resolveDocumentPath toLowerCase E url) with
  | Ok path => found path
  | Throw _ => false
  end.

(** The test of [removeOrphanedRedirects]: the source has a document, or
    the target starts with a slash and has none. *)
Definition orphaned (toLowerCase : string -> string) (E : Env) (p : pair)
    : bool :=
  has_document toLowerCase E (fst p)
  || (startsWith (snd p) "/" && negb (has_document toLowerCase E (snd p))).

(** The line that [removeConflictingOldRedirects] logs for a pair. *)
Definition conflict_line (p : pair) : string :=
  ("removing conflicting redirect " ++ fst p ++ String TAB "" ++ snd p)%string.

(** ** The cache *)

(** The cache after the pairs of a table went in. *)
Definition store_pairs (toLowerCase : string -> string) (pairs : list pair)
    (redirects : JsMap) : JsMap :=
  fold_left (fun m (p : pair) => map_set m (toLowerCase (fst p)) (snd p))
            pairs redirects.

(** The table file of a locale, if it has one, and the table files of a
    list of locales. *)
Definition redirect_file (toLowerCase : string -> string) (E : Env)
    (locale : string) : option string :=
  match snd (redirectFilePathForLocale toLowerCase E locale false) with
  | Ok p => p
  | Throw _ => None
  end.

Definition table_files (toLowerCase : string -> string) (E : Env)
    (locales : list string) : list string :=
  flat_map (fun locale =>
              match redirect_file toLowerCase E locale with
              | Some p => [p]
              | None => []
              end)
           locales.

(** The file loads, relaxed, and these are its pairs. *)
Definition loads (toLowerCase : string -> string) (E : Env) (file : string)
    (pairs : list pair) : Prop :=
  exists l, loadPairsFromFile toLowerCase E file false = (l, Ok pairs).

(** [resolveFundamental(url).url || url] *)
Definition fundamentalOrUrl (resolveFundamental : string -> option string)
    (url : string) : string :=
  match resolveFundamental url with
  | Some u => if truthy u then u else url
  | None => url
  end.

(** The target that the cache has for a URL, or else the URL. *)
Definition lookup (toLowerCase : string -> string) (E : Env)
    (resolveFundamental : string -> option string) (redirects : JsMap)
    (url : string) : result string :=
  match decodePath E (fundamentalOrUrl resolveFundamental url) with
  | Ok decoded =>
      Ok (match map_get redirects (toLowerCase decoded) with
          | Some to => to
          | None => fundamentalOrUrl resolveFundamental url
          end)
  | Throw msg => Throw msg
  end.

(** The surroundings with another [resolve]. *)
Definition with_resolve (E : Env) (r : string -> M string) : Env :=
  {| VALID_LOCALES := VALID_LOCALES E;
     CONTENT_ROOT := CONTENT_ROOT E;
     CONTENT_TRANSLATED_ROOT := CONTENT_TRANSLATED_ROOT E;
     slugToFolder := slugToFolder E;
     isArchivedFilePath := isArchivedFilePath E;
     decodePath := decodePath E;
     decodeURI := decodeURI E;
     resolve := r;
     path_join := path_join E;
     files := files E;
     isDirectory := isDirectory E;
     URL_protocol := URL_protocol E |}.


(** * Properties *)

(** ** Maps *)

Lemma map_get_set_same (m : JsMap) (k v : string) :
  map_get (map_set m k v) k = Some v.
Proof.
  induction m as [|[k' v'] m IH]; simpl.
  - now rewrite String.eqb_refl.
  - destruct (String.eqb k' k) eqn:E; simpl; rewrite E; auto.
Qed.

Lemma map_get_set_other (m : JsMap) (k k' v : string) :
  k <> k' -> map_get (map_set m k v) k' = map_get m k'.
Proof.
  intros Hne. induction m as [|[k0 v0] m IH]; simpl.
  - destruct (String.eqb_spec k k'); congruence.
  - destruct (String.eqb_spec k0 k) as [->|Hk]; simpl.
    + destruct (String.eqb_spec k k'); congruence.
    + destruct (String.eqb_spec k0 k'); auto.
Qed.

Lemma map_get_In (m : JsMap) (k v : string) :
  map_get m k = Some v -> In (k, v) m.
Proof.
  induction m as [|[k' v'] m IH]; simpl; [discriminate|].
  destruct (String.eqb_spec k' k) as [->|Hk]; intros H.
  - left. congruence.
  - right. auto.
Qed.

Lemma map_get_None (m : JsMap) (k : string) :
  map_get m k = None <-> ~ In k (keys m).
Proof.
  induction m as [|[k' v'] m IH]; simpl.
  - tauto.
  - destruct (String.eqb_spec k' k) as [->|Hk].
    + split; [discriminate|]. intros H. exfalso. apply H. now left.
    + rewrite IH. intuition.
Qed.

Lemma map_get_key (m : JsMap) (k v : string) :
  map_get m k = Some v -> In k (keys m).
Proof.
  intros H. apply map_get_In in H. apply (in_map fst) in H. exact H.
Qed.

Lemma In_map_get (m : JsMap) (k v : string) :
  NoDup (keys m) -> In (k, v) m -> map_get m k = Some v.
Proof.
  induction m as [|[k' v'] m IH]; simpl; [tauto|].
  intros Hnd [Heq|Hin].
  - inversion Heq; subst. now rewrite String.eqb_refl.
  - inversion Hnd as [|? ? Hk Hnd']; subst.
    destruct (String.eqb_spec k' k) as [->|Hne].
    + exfalso. apply Hk. apply (in_map fst) in Hin. exact Hin.
    + auto.
Qed.

Lemma map_set_absent (m : JsMap) (k v : string) :
  map_get m k = None -> map_set m k v = m ++ [(k, v)].
Proof.
  induction m as [|[k' v'] m IH]; simpl; auto.
  destruct (String.eqb k' k); [discriminate|].
  intros H. now rewrite IH.
Qed.

Lemma keys_map_set (m : JsMap) (k v : string) :
  keys (map_set m k v)
  = match map_get m k with Some _ => keys m | None => keys m ++ [k] end.
Proof.
  induction m as [|[k' v'] m IH]; simpl; auto.
  destruct (String.eqb k' k) eqn:E; simpl; auto.
  rewrite IH. now destruct (map_get m k).
Qed.

Lemma NoDup_snoc {A} (l : list A) (x : A) :
  NoDup l -> ~ In x l -> NoDup (l ++ [x]).
Proof.
  intros Hnd Hx. induction Hnd as [|y l Hy Hnd IH]; simpl.
  - constructor; [tauto | constructor].
  - constructor.
    + rewrite in_app_iff. simpl. intros [H|[H|[]]]; [tauto|].
      subst. apply Hx. now left.
    + apply IH. intros H. apply Hx. now right.
Qed.

Lemma NoDup_keys_map_set (m : JsMap) (k v : string) :
  NoDup (keys m) -> NoDup (keys (map_set m k v)).
Proof.
  intros Hnd. rewrite keys_map_set.
  destruct (map_get m k) eqn:E; auto.
  apply NoDup_snoc; auto. now apply map_get_None.
Qed.

Lemma NoDup_keys_fold (es : list (string * string)) (m : JsMap) :
  NoDup (keys m) ->
  NoDup (keys (fold_left (fun m e => map_set m (fst e) (snd e)) es m)).
Proof.
  revert m. induction es as [|e es IH]; simpl; auto.
  intros m Hnd. apply IH. now apply NoDup_keys_map_set.
Qed.

Lemma NoDup_keys_new_Map (es : list (string * string)) :
  NoDup (keys (new_Map es)).
Proof. apply NoDup_keys_fold. constructor. Qed.

Lemma map_get_fold (es : list (string * string)) (m : JsMap) (k : string) :
  map_get (fold_left (fun m e => map_set m (fst e) (snd e)) es m) k
  = match last_value es k with
    | Some v => Some v
    | None => map_get m k
    end.
Proof.
  revert m. induction es as [|[k' v] es IH]; simpl; auto.
  intros m. rewrite IH. destruct (last_value es k); auto.
  destruct (String.eqb_spec k' k) as [->|Hne].
  - apply map_get_set_same.
  - now apply map_get_set_other.
Qed.

Lemma map_get_new_Map (es : list (string * string)) (k : string) :
  map_get (new_Map es) k = last_value es k.
Proof.
  unfold new_Map. rewrite map_get_fold. now destruct (last_value es k).
Qed.

Lemma last_value_app (es1 es2 : list (string * string)) (k : string) :
  last_value (es1 ++ es2) k
  = match last_value es2 k with
    | Some v => Some v
    | None => last_value es1 k
    end.
Proof.
  induction es1 as [|[k' v] es1 IH]; simpl.
  - now destruct (last_value es2 k).
  - rewrite IH. now destruct (last_value es2 k).
Qed.

Lemma last_value_In (es : list (string * string)) (k v : string) :
  last_value es k = Some v -> In (k, v) es.
Proof.
  induction es as [|[k' v'] es IH]; simpl; [discriminate|].
  destruct (last_value es k) eqn:E.
  - intros H. right. apply IH. exact H.
  - destruct (String.eqb_spec k' k) as [->|Hne]; [|discriminate].
    intros H. left. congruence.
Qed.

Lemma last_value_None (es : list (string * string)) (k : string) :
  last_value es k = None <-> ~ In k (map fst es).
Proof.
  induction es as [|[k' v'] es IH]; simpl; [tauto|].
  destruct (last_value es k) eqn:E.
  - split; [discriminate|]. intros H. exfalso.
    apply H. right. apply last_value_In in E.
    apply (in_map fst) in E. exact E.
  - destruct (String.eqb_spec k' k) as [->|Hne].
    + split; [discriminate|]. intros H. exfalso. apply H. now left.
    + split; auto. intros _ [H|H]; [congruence|].
      now apply IH in H.
Qed.

(** A map built from entries with pairwise distinct keys is the list of
    those entries. *)
Lemma fold_set_NoDup (es : list (string * string)) (m : JsMap) :
  NoDup (keys m ++ map fst es) ->
  fold_left (fun m e => map_set m (fst e) (snd e)) es m = m ++ es.
Proof.
  revert m. induction es as [|[k v] es IH]; simpl; intros m Hnd.
  - now rewrite app_nil_r.
  - assert (Hk : map_get m k = None).
    { apply map_get_None. intros Hin.
      apply NoDup_remove_2 in Hnd. apply Hnd.
      rewrite in_app_iff. now left. }
    rewrite map_set_absent by exact Hk.
    rewrite IH.
    + now rewrite <- app_assoc.
    + unfold keys in *. rewrite map_app. simpl.
      rewrite <- app_assoc. exact Hnd.
Qed.

Lemma new_Map_NoDup (es : list (string * string)) :
  NoDup (map fst es) -> new_Map es = es.
Proof. intros H. unfold new_Map. now rewrite fold_set_NoDup. Qed.

(** ** Sorting *)

Lemma sort_insert_perm cmp (x : pair) (l : list pair) :
  Permutation (x :: l) (sort_insert cmp x l).
Proof.
  induction l as [|y l IH]; simpl; auto.
  destruct (after cmp x y); auto.
  eapply perm_trans; [apply perm_swap|]. now constructor.
Qed.

Lemma sort_perm cmp (l : list pair) : Permutation l (sort cmp l).
Proof.
  induction l as [|x l IH]; simpl; auto.
  eapply perm_trans; [|apply sort_insert_perm]. now constructor.
Qed.

Lemma sort_in_order_id cmp (l : list pair) :
  in_order cmp l -> sort cmp l = l.
Proof.
  induction 1 as [|x l Hs IH Hhd]; simpl; auto.
  rewrite IH. destruct Hhd as [|y l' Hxy]; simpl; auto.
  now rewrite Hxy.
Qed.

Lemma sort_insert_in_order cmp (x : pair) (l : list pair) :
  (forall a b, after cmp a b = true -> after cmp b a = false) ->
  in_order cmp l -> in_order cmp (sort_insert cmp x l).
Proof.
  intros Hcmp. induction 1 as [|y l Hs IH Hhd]; simpl.
  - repeat constructor.
  - destruct (after cmp x y) eqn:E.
    + constructor; auto.
      destruct Hhd as [|z l' Hyz]; simpl.
      * constructor. now apply Hcmp.
      * destruct (after cmp x z); constructor; auto.
    + constructor; [constructor; auto | constructor; auto].
Qed.

Lemma sort_in_order cmp (l : list pair) :
  (forall a b, after cmp a b = true -> after cmp b a = false) ->
  in_order cmp (sort cmp l).
Proof.
  intros Hcmp. induction l as [|x l IH]; simpl.
  - constructor.
  - now apply sort_insert_in_order.
Qed.

Lemma str_gt_lt (a c : string) : str_gt a c = str_lt c a.
Proof.
  unfold str_gt, str_lt, js_compare.
  rewrite (String.compare_antisym (utf16_key c) (utf16_key a)).
  now destruct (String.compare (utf16_key a) (utf16_key c)).
Qed.

Lemma str_gt_not_lt (a c : string) : str_gt a c = true -> str_lt a c = false.
Proof.
  unfold str_gt, str_lt. now destruct (js_compare a c).
Qed.

Lemma sortTuples_after (x y : pair) :
  after sortTuples x y = true -> after sortTuples y x = false.
Proof.
  destruct x as [a b], y as [c d]. unfold after, sortTuples.
  rewrite (str_gt_lt c a), (str_gt_lt d b).
  rewrite <- (str_gt_lt a c), <- (str_gt_lt b d).
  destruct (str_gt a c) eqn:E1.
  - rewrite (str_gt_not_lt _ _ E1). reflexivity.
  - destruct (str_lt a c) eqn:E2; [discriminate|].
    destruct (str_gt b d) eqn:E3.
    + now rewrite (str_gt_not_lt _ _ E3).
    + now destruct (str_lt b d).
Qed.

Lemma sort_sortTuples_twice (l : list pair) :
  sort sortTuples (sort sortTuples l) = sort sortTuples l.
Proof.
  apply sort_in_order_id, sort_in_order. exact sortTuples_after.
Qed.

(** ** Walks in the graph *)

Section Walks.

Variable dg : JsMap.

Lemma transit_walk_eq (fuel : nat) (s : string) (froms : list string) :
  transit_walk (S fuel) dg s froms
  = match dg_next dg s with
    | Some next =>
        if includes_elem (froms ++ [s]) next then Looped (froms ++ [s]) next
        else transit_walk fuel dg next (froms ++ [s])
    | None => Arrived froms s
    end.
Proof.
  unfold dg_next. simpl. destruct (map_get dg s) as [next|]; auto.
  now destruct (truthy next).
Qed.

Lemma includes_elem_In (xs : list string) (x : string) :
  includes_elem xs x = true <-> In x xs.
Proof.
  unfold includes_elem. rewrite existsb_exists. split.
  - intros [y [Hy E]]. apply String.eqb_eq in E. now subst.
  - intros H. exists x. split; auto. apply String.eqb_refl.
Qed.

Lemma dg_next_key (s next : string) :
  dg_next dg s = Some next -> In s (keys dg).
Proof.
  unfold dg_next. destruct (map_get dg s) eqn:E; [|discriminate].
  intros _. eapply map_get_key; eauto.
Qed.

Lemma dg_next_truthy (s next : string) :
  dg_next dg s = Some next -> truthy next = true.
Proof.
  unfold dg_next. destruct (map_get dg s) as [n|]; [|discriminate].
  destruct (truthy n) eqn:E; [|discriminate]. congruence.
Qed.

Lemma dg_next_value (s next : string) :
  dg_next dg s = Some next -> map_get dg s = Some next.
Proof.
  unfold dg_next. destruct (map_get dg s) as [n|]; [|discriminate].
  destruct (truthy n); [|discriminate]. congruence.
Qed.

Lemma steps_snoc (a b c : string) (l : list string) :
  steps dg a l b -> dg_next dg b = Some c -> steps dg a (l ++ [b]) c.
Proof.
  induction 1 as [a|a a' l b Ha Hs IH]; intros Hb; simpl.
  - econstructor; eauto. constructor.
  - econstructor; eauto.
Qed.

Lemma steps_split (a b u : string) (l : list string) :
  steps dg a l b -> In u l ->
  exists l1 l2, l = l1 ++ u :: l2 /\ steps dg u (u :: l2) b.
Proof.
  induction 1 as [a|a a' l b Ha Hs IH]; simpl; [tauto|].
  intros [->|Hin].
  - exists [], l. split; auto. econstructor; eauto.
  - destruct (IH Hin) as (l1 & l2 & -> & H).
    exists (a :: l1), l2. auto.
Qed.

Lemma steps_head (a b : string) (l : list string) :
  steps dg a l b -> l <> [] -> exists l', l = a :: l'.
Proof. destruct 1; [congruence|eauto]. Qed.

Lemma steps_nodes (a b u : string) (l : list string) :
  steps dg a l b -> In u l -> dg_next dg u <> None.
Proof.
  induction 1 as [a|a a' l b Ha Hs IH]; simpl; [tauto|].
  intros [->|Hin]; [congruence|auto].
Qed.

(** Walking is deterministic: a chain from [a] continues every walk that
    starts at [a]. *)
Lemma chain_after_steps (a b t : string) (l1 l : list string) :
  steps dg a l1 b -> chain dg a l t ->
  exists l', l = l1 ++ l' /\ chain dg b l' t.
Proof.
  intros Hs. revert l. induction Hs as [a|a a' l1 b Ha Hs IH]; intros l [Hl Ht].
  - exists l. split; [reflexivity | split; assumption].
  - inversion Hl as [|? a'' l0 ? Ha' Hl0]; subst.
    + congruence.
    + assert (a'' = a') by congruence. subst a''.
      destruct (IH l0 (conj Hl0 Ht)) as (l' & -> & Hc).
      exists l'. auto.
Qed.

Lemma chain_det (s t t' : string) (l l' : list string) :
  chain dg s l t -> chain dg s l' t' -> l = l' /\ t = t'.
Proof.
  intros [Hs Ht]. revert l'.
  induction Hs as [a|a a' l b Ha Hs IH]; intros l' [Hs' Ht'].
  - inversion Hs'; subst; [auto | congruence].
  - inversion Hs' as [|? a'' l0 ? Ha' Hl0]; subst; [congruence|].
    assert (a'' = a') by congruence. subst a''.
    destruct (IH Ht l0 (conj Hl0 Ht')) as [-> ->]. auto.
Qed.

(** A node from which a walk returns to itself has no chain. *)
Lemma loop_no_chain (n : string) (l : list string) :
  steps dg n (n :: l) n -> ~ has_chain dg n.
Proof.
  intros Hloop (l0 & t & Hc).
  remember (List.length l0) as k eqn:Hk.
  revert l0 Hk Hc. induction k as [k IH] using lt_wf_ind. intros l0 Hk Hc.
  destruct (chain_after_steps Hloop Hc) as (l' & -> & Hc').
  apply (IH (List.length l')) with (l0 := l'); auto.
  subst k. rewrite length_app. simpl. lia.
Qed.

Lemma chain_split (s t u : string) (l : list string) :
  chain dg s l t -> In u l -> exists l2, chain dg u (u :: l2) t.
Proof.
  intros [Hs Ht] Hin.
  destruct (steps_split u Hs Hin) as (l1 & l2 & -> & H).
  exists l2. split; assumption.
Qed.

(** What a walk returns, for a walk that continues the steps [froms] from
    [s0] to [s]. *)
Lemma transit_walk_spec (fuel : nat) (s0 s : string) (froms : list string) :
  steps dg s0 froms s ->
  match transit_walk fuel dg s froms with
  | Arrived fs t => chain dg s0 fs t
  | Looped fs n => steps dg s0 fs n /\ In n fs
  | Unfinished => True
  end.
Proof.
  revert s froms. induction fuel as [|fuel IH]; intros s froms Hs;
    [exact I|].
  rewrite transit_walk_eq.
  destruct (dg_next dg s) as [next|] eqn:E.
  - pose proof (steps_snoc Hs E) as Hs'.
    destruct (includes_elem (froms ++ [s]) next) eqn:Hi.
    + split; auto. now apply includes_elem_In.
    + apply IH. exact Hs'.
  - split; assumption.
Qed.

Lemma transit_walk_fuel (fuel : nat) (s : string) (froms : list string) :
  NoDup froms -> incl froms (keys dg) -> ~ In s froms ->
  List.length dg < List.length froms + fuel ->
  transit_walk fuel dg s froms <> Unfinished.
Proof.
  revert s froms. induction fuel as [|fuel IH]; intros s froms Hnd Hincl Hs Hlen.
  - exfalso. pose proof (NoDup_incl_length Hnd Hincl) as H.
    unfold keys in H. rewrite length_map in H. lia.
  - rewrite transit_walk_eq. destruct (dg_next dg s) as [next|] eqn:E; [|discriminate].
    destruct (includes_elem (froms ++ [s]) next) eqn:Hi; [discriminate|].
    apply IH.
    + now apply NoDup_snoc.
    + intros x Hx. apply in_app_iff in Hx. destruct Hx as [Hx|[<-|[]]]; auto.
      eapply dg_next_key; eauto.
    + intros H. apply includes_elem_In in H. congruence.
    + rewrite length_app. simpl. lia.
Qed.

Lemma walk_of_finishes (s : string) : walk_of dg s <> Unfinished.
Proof.
  unfold walk_of. apply transit_walk_fuel; simpl; auto.
  - constructor.
  - intros x [].
Qed.

Lemma walk_of_Arrived (s t : string) (fs : list string) :
  walk_of dg s = Arrived fs t -> chain dg s fs t.
Proof.
  intros H.
  pose proof (transit_walk_spec (S (List.length dg)) (steps_nil dg s)) as Hw.
  change (transit_walk (S (List.length dg)) dg s []) with (walk_of dg s) in Hw.
  now rewrite H in Hw.
Qed.

Lemma walk_of_Looped (s n : string) (fs : list string) :
  walk_of dg s = Looped fs n ->
  (exists l, fs = s :: l) /\ In n fs /\ forall u, In u fs -> ~ has_chain dg u.
Proof.
  intros H.
  pose proof (transit_walk_spec (S (List.length dg)) (steps_nil dg s)) as Hw.
  change (transit_walk (S (List.length dg)) dg s []) with (walk_of dg s) in Hw.
  rewrite H in Hw. destruct Hw as [Hs Hn].
  split; [|split; auto].
  - apply (steps_head Hs). intros ->. destruct Hn.
  - intros u Hu (l & t & Hc).
    destruct (steps_split u Hs Hu) as (l1 & l2 & -> & Hun).
    destruct (chain_after_steps Hun Hc) as (l' & _ & Hcn).
    destruct (steps_split n Hs Hn) as (l3 & l4 & E & Hnn).
    apply (loop_no_chain Hnn). now exists l', t.
Qed.

Lemma chain_walk_of (s t : string) (l : list string) :
  chain dg s l t -> walk_of dg s = Arrived l t.
Proof.
  intros Hc. destruct (walk_of dg s) as [fs t'|fs n|] eqn:E.
  - apply walk_of_Arrived in E. destruct (chain_det E Hc) as [-> ->]. reflexivity.
  - apply walk_of_Looped in E. destruct E as ([l' ->] & _ & Hno).
    exfalso. apply (Hno s); [now left|]. now exists l, t.
  - exfalso. now apply (walk_of_finishes s).
Qed.

(** *** Walks that run into a cycle *)











End Walks.

(** ** The loop of [shortCuts] *)

Lemma loop_relaxed (dg : JsMap) (ps : list pair) (tdag : JsMap) :
  foldM (loop_body dg false) ps tdag
  = (cycle_msgs dg (map fst ps),
     Ok (fold_left (record_walk dg) (map fst ps) tdag)).
Proof.
  revert tdag. induction ps as [|p ps IH]; intros tdag; simpl; auto.
  unfold loop_body at 1, transit, record_walk at 2.
  destruct (walk_of dg (fst p)) as [fs t|fs n|]; simpl; now rewrite IH.
Qed.

Lemma loop_strict (dg : JsMap) (ps : list pair) (tdag : JsMap) :
  foldM (loop_body dg true) ps tdag
  = match cycle_msgs dg (map fst ps) with
    | [] => ([], Ok (fold_left (record_walk dg) (map fst ps) tdag))
    | msg :: _ => ([], Throw msg)
    end.
Proof.
  revert tdag. induction ps as [|p ps IH]; intros tdag; simpl; auto.
  unfold loop_body at 1, transit, record_walk at 2.
  destruct (walk_of dg (fst p)) as [fs t|fs n|]; simpl; auto;
    rewrite IH; now destruct (cycle_msgs dg (map fst ps)).
Qed.

Section Flattening.

Variable toLowerCase : string -> string.
Variable pairs : list pair.

Let casing := new_Map (casing_entries toLowerCase pairs).
Let lcp := lowerCasePairs toLowerCase pairs.
Let dg := new_Map lcp.

Lemma shortCuts_relaxed :
  shortCuts toLowerCase pairs false
  = (cycle_msgs dg (map fst lcp),
     Ok (sort sortTuples (map (restore toLowerCase pairs)
                              (transitiveDag toLowerCase pairs)))).
Proof.
  unfold shortCuts. fold lcp dg casing.
  change (foldM _ lcp []) with (foldM (loop_body dg false) lcp []).
  rewrite loop_relaxed. simpl. now rewrite app_nil_r.
Qed.

Lemma shortCuts_strict :
  shortCuts toLowerCase pairs true
  = match cycle_msgs dg (map fst lcp) with
    | [] => ([], Ok (sort sortTuples (map (restore toLowerCase pairs)
                                          (transitiveDag toLowerCase pairs))))
    | msg :: _ => ([], Throw msg)
    end.
Proof.
  unfold shortCuts. fold lcp dg casing.
  change (foldM _ lcp []) with (foldM (loop_body dg true) lcp []).
  rewrite loop_strict. now destruct (cycle_msgs dg (map fst lcp)).
Qed.

(** *** What the loop records *)

Lemma map_get_set_all_keeps (m : JsMap) (fs : list string) (t u : string) :
  map_get m u = Some t -> map_get (set_all m fs t) u = Some t.
Proof.
  unfold set_all. revert m. induction fs as [|f fs IH]; simpl; auto.
  intros m H. apply IH. destruct (string_dec f u) as [->|Hne].
  - apply map_get_set_same.
  - now rewrite map_get_set_other.
Qed.

Lemma map_get_set_all_in (m : JsMap) (fs : list string) (t u : string) :
  In u fs -> map_get (set_all m fs t) u = Some t.
Proof.
  revert m. induction fs as [|f fs IH]; simpl; [tauto|].
  intros m [->|Hin].
  - apply (map_get_set_all_keeps _ fs). apply map_get_set_same.
  - apply (IH _ Hin).
Qed.

Lemma map_get_set_all_out (m : JsMap) (fs : list string) (t u : string) :
  ~ In u fs -> map_get (set_all m fs t) u = map_get m u.
Proof.
  unfold set_all. revert m. induction fs as [|f fs IH]; simpl; auto.
  intros m Hout. rewrite IH by tauto. apply map_get_set_other. tauto.
Qed.

Lemma NoDup_keys_set_all (m : JsMap) (fs : list string) (t : string) :
  NoDup (keys m) -> NoDup (keys (set_all m fs t)).
Proof.
  unfold set_all. revert m. induction fs as [|f fs IH]; simpl; auto.
  intros m H. apply IH. now apply NoDup_keys_map_set.
Qed.

Lemma sound_record_walk (tdag : JsMap) (s : string) :
  sound dg tdag -> sound dg (record_walk dg tdag s).
Proof.
  intros Hs. unfold record_walk.
  destruct (walk_of dg s) as [fs t|fs n|] eqn:E; auto.
  apply walk_of_Arrived in E. intros u t' Hu.
  destruct (in_dec string_dec u fs) as [Hin|Hout].
  - rewrite map_get_set_all_in in Hu by assumption.
    inversion Hu; subst t'. eapply chain_split; eauto.
  - rewrite map_get_set_all_out in Hu by assumption. auto.
Qed.

Lemma record_walk_keeps (tdag : JsMap) (s u t : string) :
  sound dg tdag -> map_get tdag u = Some t ->
  map_get (record_walk dg tdag s) u = Some t.
Proof.
  intros Hs Hu. unfold record_walk.
  destruct (walk_of dg s) as [fs t'|fs n|] eqn:E; auto.
  apply walk_of_Arrived in E.
  destruct (in_dec string_dec u fs) as [Hin|Hout].
  - rewrite map_get_set_all_in by assumption.
    destruct (chain_split u E Hin) as [l2 Hc2].
    destruct (Hs u t Hu) as [l Hc].
    destruct (chain_det Hc Hc2) as [_ ->]. reflexivity.
  - now rewrite map_get_set_all_out.
Qed.

Lemma sound_fold (sources : list string) (tdag : JsMap) :
  sound dg tdag -> sound dg (fold_left (record_walk dg) sources tdag).
Proof.
  revert tdag. induction sources as [|s sources IH]; simpl; auto.
  intros tdag H. apply IH. now apply sound_record_walk.
Qed.

Lemma fold_keeps (sources : list string) (tdag : JsMap) (u t : string) :
  sound dg tdag -> map_get tdag u = Some t ->
  map_get (fold_left (record_walk dg) sources tdag) u = Some t.
Proof.
  revert tdag. induction sources as [|s sources IH]; simpl; auto.
  intros tdag Hs Hu. apply IH.
  - now apply sound_record_walk.
  - now apply record_walk_keeps.
Qed.

Lemma fold_records (sources : list string) (tdag : JsMap)
    (s u t : string) (l : list string) :
  sound dg tdag -> In s sources -> chain dg s l t -> In u l ->
  map_get (fold_left (record_walk dg) sources tdag) u = Some t.
Proof.
  revert tdag. induction sources as [|s' sources IH]; simpl; [tauto|].
  intros tdag Hs [->|Hin] Hc Hu.
  - apply fold_keeps; [now apply sound_record_walk|].
    unfold record_walk. rewrite (chain_walk_of Hc).
    now apply map_get_set_all_in.
  - eapply IH; eauto. now apply sound_record_walk.
Qed.

Lemma NoDup_keys_fold_record (sources : list string) (tdag : JsMap) :
  NoDup (keys tdag) -> NoDup (keys (fold_left (record_walk dg) sources tdag)).
Proof.
  revert tdag. induction sources as [|s sources IH]; simpl; auto.
  intros tdag H. apply IH. unfold record_walk.
  destruct (walk_of dg s); auto. now apply NoDup_keys_set_all.
Qed.

Lemma sound_nil : sound dg [].
Proof. intros u t H. discriminate. Qed.

Lemma NoDup_keys_transitiveDag : NoDup (keys (transitiveDag toLowerCase pairs)).
Proof. apply NoDup_keys_fold_record. constructor. Qed.

Lemma dg_key_source (u : string) : In u (keys dg) -> In u (map fst lcp).
Proof.
  intros H. destruct (map_get dg u) as [v|] eqn:E.
  - unfold dg in E. rewrite map_get_new_Map in E.
    apply last_value_In in E. apply (in_map fst) in E. exact E.
  - apply map_get_None in E. contradiction.
Qed.

(** The recorded edges are exactly the edges from a node with an outgoing
    edge to the end of its chain. *)
Lemma transitiveDag_spec (u t : string) :
  map_get (transitiveDag toLowerCase pairs) u = Some t
  <-> exists l, chain dg u (u :: l) t.
Proof.
  split.
  - apply (sound_fold _ sound_nil).
  - intros [l Hc]. unfold transitiveDag. fold lcp dg.
    apply fold_records with (s := u) (l := u :: l); auto using sound_nil.
    + apply dg_key_source. destruct Hc as [Hs _].
      inversion Hs; subst. eapply dg_next_key; eauto.
    + now left.
Qed.

(** *** Casing *)

Lemma casing_get_lower (k : string) :
  In k (map fst (casing_entries toLowerCase pairs)) ->
  toLowerCase (casing_get casing k) = k.
Proof.
  intros Hk. unfold casing_get, casing. rewrite map_get_new_Map.
  destruct (last_value (casing_entries toLowerCase pairs) k) as [v|] eqn:E.
  - apply last_value_In in E. unfold casing_entries in E.
    apply in_app_iff in E. destruct E as [E|E];
      apply in_map_iff in E; destruct E as (p & Hp & _); congruence.
  - apply last_value_None in E. contradiction.
Qed.

Lemma source_cased (u : string) :
  In u (map fst lcp) -> In u (map fst (casing_entries toLowerCase pairs)).
Proof.
  unfold lcp, lowerCasePairs, casing_entries.
  rewrite map_app, !map_map. simpl. intros H. apply in_app_iff. now left.
Qed.

Lemma target_cased (u : string) :
  In u (map snd lcp) -> In u (map fst (casing_entries toLowerCase pairs)).
Proof.
  unfold lcp, lowerCasePairs, casing_entries.
  rewrite map_app, !map_map. simpl. intros H. apply in_app_iff. now right.
Qed.

Lemma dg_next_source (u n : string) :
  dg_next dg u = Some n -> In u (map fst lcp).
Proof. intros H. apply dg_key_source. eapply dg_next_key; eauto. Qed.

Lemma dg_next_target (u n : string) :
  dg_next dg u = Some n -> In n (map snd lcp).
Proof.
  intros H. apply dg_next_value in H. unfold dg in H.
  rewrite map_get_new_Map in H. apply last_value_In in H.
  apply (in_map snd) in H. exact H.
Qed.

Lemma steps_end (a b : string) (l : list string) :
  steps dg a l b -> l <> [] -> exists x, dg_next dg x = Some b.
Proof.
  induction 1 as [a|a a' l b Ha Hs IH]; [congruence|].
  intros _. destruct l as [|y l].
  - inversion Hs; subst. eauto.
  - apply IH. discriminate.
Qed.

(** Both ends of a recorded edge are keys of the casing map, so that
    [casing.get] finds them, and they are what the restored ends lowercase
    to. *)
Lemma recorded_edge (u t : string) :
  map_get (transitiveDag toLowerCase pairs) u = Some t ->
  dg_next dg u <> None /\ dg_next dg t = None /\ truthy t = true
  /\ toLowerCase (casing_get casing u) = u
  /\ toLowerCase (casing_get casing t) = t.
Proof.
  intros H. apply transitiveDag_spec in H. destruct H as [l [Hs Ht]].
  assert (Hu : dg_next dg u <> None) by (inversion Hs; subst; congruence).
  destruct (steps_end Hs) as [x Hx]; [discriminate|].
  repeat split; auto.
  - eapply dg_next_truthy; eauto.
  - apply casing_get_lower. destruct (dg_next dg u) as [n|] eqn:E; [|congruence].
    apply source_cased. eapply dg_next_source; eauto.
  - apply casing_get_lower, target_cased. eapply dg_next_target; eauto.
Qed.

Lemma casing_get_present (u t : string) :
  map_get (transitiveDag toLowerCase pairs) u = Some t ->
  map_get casing u <> None /\ map_get casing t <> None.
Proof.
  intros H. apply transitiveDag_spec in H. destruct H as [l [Hs Ht]].
  destruct (steps_end Hs) as [x Hx]; [discriminate|].
  unfold casing. rewrite !map_get_new_Map, !last_value_None. split; intros Hn; apply Hn.
  - apply source_cased. inversion Hs; subst. eapply dg_next_source; eauto.
  - apply target_cased. eapply dg_next_target; eauto.
Qed.

End Flattening.

(** ** The output of [shortCuts] *)

Section Output.

Variable toLowerCase : string -> string.
Variable pairs : list pair.

Let tdag := transitiveDag toLowerCase pairs.
Let dg := new_Map (lowerCasePairs toLowerCase pairs).
Let casing := new_Map (casing_entries toLowerCase pairs).

Lemma shortCuts_Ok (throws : bool) (log : list string) (out : list pair) :
  shortCuts toLowerCase pairs throws = (log, Ok out) ->
  out = sort sortTuples (map (restore toLowerCase pairs) tdag).
Proof.
  destruct throws.
  - rewrite shortCuts_strict.
    destruct (cycle_msgs _ _); intros H; inversion H; reflexivity.
  - rewrite shortCuts_relaxed. intros H; inversion H; reflexivity.
Qed.

Lemma In_sorted_output (e : pair) :
  In e (sort sortTuples (map (restore toLowerCase pairs) tdag)) <->
  exists u t, map_get tdag u = Some t
              /\ e = (casing_get casing u, casing_get casing t).
Proof.
  split.
  - intros H. apply (Permutation_in _ (Permutation_sym (sort_perm _ _))) in H.
    apply in_map_iff in H. destruct H as ([u t] & <- & Hin).
    exists u, t. split; auto.
    apply In_map_get; auto. apply NoDup_keys_transitiveDag.
  - intros (u & t & Hut & ->).
    apply (Permutation_in _ (sort_perm _ _)).
    apply in_map_iff. exists (u, t). split; auto.
    now apply map_get_In.
Qed.

End Output.

(** ** Flattening a flattened table *)

Lemma NoDup_map_inj {A B} (f : A -> B) (l : list A) (x y : A) :
  NoDup (map f l) -> In x l -> In y l -> f x = f y -> x = y.
Proof.
  induction l as [|a l IH]; simpl; [tauto|].
  intros Hnd Hx Hy E. inversion Hnd as [|? ? Ha Hnd']; subst.
  destruct Hx as [->|Hx], Hy as [->|Hy]; auto.
  - exfalso. apply Ha. rewrite E. now apply in_map.
  - exfalso. apply Ha. rewrite <- E. now apply in_map.
Qed.

Section Again.

Variable toLowerCase : string -> string.
Variable pairs : list pair.

Let tdag := transitiveDag toLowerCase pairs.
Let dg := new_Map (lowerCasePairs toLowerCase pairs).
Let casing := new_Map (casing_entries toLowerCase pairs).

(** The output of the first run, and the maps of the second run. *)
Let out := sort sortTuples (map (restore toLowerCase pairs) tdag).
Let lcp' := lowerCasePairs toLowerCase out.
Let dg' := new_Map lcp'.
Let casing' := new_Map (casing_entries toLowerCase out).

Lemma out_lower (e : pair) :
  In e out ->
  map_get tdag (toLowerCase (fst e)) = Some (toLowerCase (snd e))
  /\ e = (casing_get casing (toLowerCase (fst e)),
          casing_get casing (toLowerCase (snd e))).
Proof.
  intros H. apply In_sorted_output in H. destruct H as (u & t & Hut & ->).
  destruct (@recorded_edge _ _ _ _ Hut) as (_ & _ & _ & Hu & Ht).
  cbn [fst snd]. unfold casing. rewrite Hu, Ht. auto.
Qed.

Lemma lcp'_edge (u t : string) :
  In (u, t) lcp' -> map_get tdag u = Some t.
Proof.
  intros H. apply in_map_iff in H. destruct H as (e & E & He).
  inversion E; subst. now apply out_lower.
Qed.

Lemma NoDup_sources' : NoDup (map fst lcp').
Proof.
  unfold lcp', lowerCasePairs. rewrite map_map. simpl.
  apply (Permutation_NoDup (l := map (fun e => toLowerCase (fst e))
                                     (map (restore toLowerCase pairs) tdag))).
  - apply Permutation_map, sort_perm.
  - rewrite map_map.
    replace (map _ tdag) with (keys tdag);
      [apply NoDup_keys_transitiveDag|].
    unfold keys. apply map_ext_in. intros [u t] Hin. cbn [fst snd restore].
    apply In_map_get in Hin; [|apply NoDup_keys_transitiveDag].
    destruct (@recorded_edge _ _ _ _ Hin) as (_ & _ & _ & Hu & _).
    now rewrite Hu.
Qed.

Lemma dg'_is_lcp' : dg' = lcp'.
Proof. apply new_Map_NoDup, NoDup_sources'. Qed.

Lemma target_not_source' (u t u2 t2 : string) :
  In (u, t) lcp' -> In (u2, t2) lcp' -> t <> u2.
Proof.
  intros H1 H2. apply lcp'_edge in H1, H2.
  destruct (@recorded_edge _ _ _ _ H1) as (_ & Hend & _).
  destruct (@recorded_edge _ _ _ _ H2) as (Hsrc & _).
  fold dg in Hend, Hsrc. congruence.
Qed.

Lemma walk_again (u t : string) :
  In (u, t) lcp' -> walk_of dg' u = Arrived [u] t.
Proof.
  intros Hin. apply chain_walk_of. split.
  - apply steps_cons with (a' := t); [|constructor].
    unfold dg_next. rewrite dg'_is_lcp'.
    rewrite (@In_map_get _ _ _ NoDup_sources' Hin).
    destruct (@recorded_edge _ _ _ _ (@lcp'_edge _ _ Hin)) as (_ & _ & -> & _).
    reflexivity.
  - unfold dg_next. rewrite dg'_is_lcp'.
    destruct (map_get lcp' t) as [v|] eqn:E; auto.
    exfalso. apply map_get_In in E.
    now apply (@target_not_source' _ _ _ _ Hin E).
Qed.

Lemma no_cycle_again (es : list pair) :
  incl es lcp' -> cycle_msgs dg' (map fst es) = [].
Proof.
  induction es as [|[u t] es IH]; simpl; auto.
  intros Hincl. rewrite (walk_again u t) by (apply Hincl; now left).
  simpl. apply IH. intros x Hx. apply Hincl. now right.
Qed.

Lemma record_again (es : list pair) (m : JsMap) :
  incl es lcp' -> NoDup (keys m ++ map fst es) ->
  fold_left (record_walk dg') (map fst es) m = m ++ es.
Proof.
  revert m. induction es as [|[u t] es IH]; simpl; intros m Hincl Hnd.
  - now rewrite app_nil_r.
  - unfold record_walk at 2. rewrite (walk_again u t) by (apply Hincl; now left).
    unfold set_all. simpl.
    assert (Hu : map_get m u = None).
    { apply map_get_None. intros Hin. apply NoDup_remove_2 in Hnd.
      apply Hnd. apply in_app_iff. now left. }
    rewrite (@map_set_absent _ _ _ Hu). rewrite IH.
    + now rewrite <- app_assoc.
    + intros x Hx. apply Hincl. now right.
    + unfold keys in *. rewrite map_app. simpl. now rewrite <- app_assoc.
Qed.

Lemma transitiveDag_again : transitiveDag toLowerCase out = lcp'.
Proof.
  unfold transitiveDag. fold lcp' dg'.
  rewrite record_again; auto using incl_refl.
  simpl. apply NoDup_sources'.
Qed.

Lemma casing_again_source (e : pair) :
  In e out -> casing_get casing' (toLowerCase (fst e)) = fst e.
Proof.
  intros He. unfold casing_get, casing', casing_entries.
  rewrite map_get_new_Map, last_value_app.
  set (u := toLowerCase (fst e)).
  assert (Hlcp : In (u, toLowerCase (snd e)) lcp').
  { apply in_map_iff. exists e. auto. }
  destruct (last_value (map (fun p => (toLowerCase (snd p), snd p)) out) u)
    as [v|] eqn:Et.
  - exfalso. apply last_value_In, in_map_iff in Et.
    destruct Et as (e2 & E2 & He2). inversion E2 as [[E2u E2v]].
    assert (Hlcp2 : In (toLowerCase (fst e2), toLowerCase (snd e2)) lcp').
    { apply in_map_iff. exists e2. auto. }
    apply (@target_not_source' _ _ _ _ Hlcp2 Hlcp). exact E2u.
  - destruct (last_value (map (fun p => (toLowerCase (fst p), fst p)) out) u)
      as [v|] eqn:Ef.
    + apply last_value_In, in_map_iff in Ef.
      destruct Ef as (e2 & E2 & He2). inversion E2 as [[E2u E2v]].
      assert (e2 = e); [|now subst].
      apply (@NoDup_map_inj _ _ (fun p => toLowerCase (fst p)) out); auto.
      pose proof NoDup_sources' as Hnd. unfold lcp', lowerCasePairs in Hnd.
      rewrite map_map in Hnd. exact Hnd.
    + exfalso. apply last_value_None in Ef. apply Ef.
      rewrite map_map. simpl. apply in_map_iff. exists e. auto.
Qed.

Lemma casing_again_target (e : pair) :
  In e out -> casing_get casing' (toLowerCase (snd e)) = snd e.
Proof.
  intros He. unfold casing_get, casing', casing_entries.
  rewrite map_get_new_Map, last_value_app.
  set (t := toLowerCase (snd e)).
  destruct (last_value (map (fun p => (toLowerCase (snd p), snd p)) out) t)
    as [v|] eqn:Et.
  - apply last_value_In, in_map_iff in Et.
    destruct Et as (e2 & E2 & He2). inversion E2 as [[E2t E2v]].
    destruct (@out_lower _ He) as [_ E], (@out_lower _ He2) as [_ E'].
    rewrite E, E'. simpl. fold t. now rewrite E2t.
  - exfalso. apply last_value_None in Et. apply Et.
    rewrite map_map. simpl. apply in_map_iff. exists e. auto.
Qed.

Lemma restore_again :
  map (restore toLowerCase out) lcp' = out.
Proof.
  unfold lcp', lowerCasePairs. rewrite map_map.
  transitivity (map (fun e : pair => e) out); [|apply map_id].
  apply map_ext_in. intros e He. unfold restore. cbn [fst snd].
  fold casing'.
  rewrite casing_again_source, casing_again_target by assumption.
  now destruct e.
Qed.

Lemma shortCuts_again (throws : bool) :
  shortCuts toLowerCase out throws = ([], Ok out).
Proof.
  assert (Hmsgs : cycle_msgs (new_Map (lowerCasePairs toLowerCase out))
                             (map fst (lowerCasePairs toLowerCase out)) = []).
  { apply no_cycle_again, incl_refl. }
  assert (Hout : sort sortTuples
                   (map (restore toLowerCase out) (transitiveDag toLowerCase out))
                 = out).
  { rewrite transitiveDag_again, restore_again. apply sort_sortTuples_twice. }
  destruct throws.
  - rewrite shortCuts_strict, Hmsgs, Hout. reflexivity.
  - rewrite shortCuts_relaxed, Hmsgs, Hout. reflexivity.
Qed.

End Again.

(** ** Walks that arrive and walks that loop *)



Lemma cycle_msgs_inv (dg : JsMap) (sources : list string) (msg : string) :
  In msg (cycle_msgs dg sources) ->
  exists s froms next,
    In s sources /\ walk_of dg s = Looped froms next
    /\ msg = cycle_msg froms next.
Proof.
  unfold cycle_msgs. intros H. apply in_flat_map in H.
  destruct H as (s & Hs & Hm).
  destruct (walk_of dg s) as [fs t|fs n|] eqn:E; simpl in Hm; try tauto.
  destruct Hm as [<-|[]]. exists s, fs, n. auto.
Qed.

Lemma last_value_last (es1 es2 : list (string * string)) (k v : string) :
  ~ In k (map fst es2) -> last_value (es1 ++ (k, v) :: es2) k = Some v.
Proof.
  intros H. rewrite last_value_app. simpl.
  apply last_value_None in H. rewrite H. now rewrite String.eqb_refl.
Qed.

(** ** Sets *)

Lemma set_has_In (m : JsSet) (x : string) : set_has m x = true <-> In x m.
Proof.
  unfold set_has. rewrite existsb_exists. split.
  - intros (y & Hy & E). apply String.eqb_eq in E. now subst.
  - intros H. exists x. split; auto. apply String.eqb_refl.
Qed.

Lemma set_add_In (m : JsSet) (x y : string) :
  In y (set_add m x) <-> In y m \/ y = x.
Proof.
  unfold set_add. destruct (set_has m x) eqn:E.
  - apply set_has_In in E. split; auto. intros [H| ->]; auto.
  - rewrite in_app_iff. simpl. intuition.
Qed.

Lemma new_Set_In (xs : list string) (x : string) :
  In x (new_Set xs) <-> In x xs.
Proof.
  unfold new_Set.
  assert (H : forall m, In x (fold_left set_add xs m) <-> In x m \/ In x xs).
  { induction xs as [|y xs IH]; intros m; simpl; [tauto|].
    rewrite IH, set_add_In. intuition. }
  rewrite H. simpl. tauto.
Qed.

Lemma set_has_new_Set (xs : list string) (x : string) :
  set_has (new_Set xs) x = existsb (String.eqb x) xs.
Proof.
  destruct (existsb (String.eqb x) xs) eqn:E.
  - apply set_has_In, new_Set_In. apply existsb_exists in E.
    destruct E as (y & Hy & E). apply String.eqb_eq in E. now subst.
  - destruct (set_has (new_Set xs) x) eqn:E'; auto.
    apply set_has_In in E'. apply (proj1 (new_Set_In _ _)) in E'.
    assert (existsb (String.eqb x) xs = true); [|congruence].
    apply existsb_exists. exists x. split; auto. apply String.eqb_refl.
Qed.

Lemma existsb_map_compose {A B} (f : B -> bool) (g : A -> B) (l : list A) :
  existsb f (map g l) = existsb (fun x => f (g x)) l.
Proof. induction l as [|x l IH]; simpl; congruence. Qed.

(** ** Conflicting old redirects *)

Lemma filterM_filter {A} (keep : A -> M bool) (f : A -> bool) (xs : list A) :
  (forall x, snd (keep x) = Ok (f x)) ->
  snd (filterM keep xs) = Ok (filter f xs).
Proof.
  intros Hkeep. induction xs as [|x xs IH]; [reflexivity|].
  cbn [filterM filter]. specialize (Hkeep x).
  destruct (keep x) as [l1 r1]. simpl in Hkeep. subst r1.
  destruct (filterM keep xs) as [l2 r2]. simpl in IH. subst r2.
  simpl. now destruct (f x).
Qed.

Lemma removeConflicting_filter (toLowerCase : string -> string)
    (oldPairs updatePairs : list pair) :
  snd (removeConflictingOldRedirects toLowerCase oldPairs updatePairs)
  = Ok (filter (fun old => negb (conflicting toLowerCase updatePairs old))
               oldPairs).
Proof.
  unfold removeConflictingOldRedirects.
  destruct oldPairs as [|p0 olds]; [reflexivity|].
  cbn [List.length Nat.eqb].
  apply filterM_filter. intros [from to].
  rewrite set_has_new_Set, existsb_map_compose.
  unfold conflicting. cbn [fst].
  match goal with |- context [existsb ?f updatePairs] =>
    now destruct (existsb f updatePairs)
  end.
Qed.

(** ** Strings: splitting and trimming *)

Local Open Scope string_scope.

Lemma append_assoc (a b c : string) : (a ++ b) ++ c = a ++ (b ++ c).
Proof. induction a as [|x a IH]; simpl; congruence. Qed.

Lemma append_nil_r (a : string) : a ++ "" = a.
Proof. induction a as [|x a IH]; simpl; congruence. Qed.

Lemma rev_onto_app (s acc : string) : rev_onto s acc = string_rev s ++ acc.
Proof.
  unfold string_rev. revert acc. induction s as [|c s IH]; intros acc; simpl; auto.
  rewrite IH, (IH (String c "")). now rewrite append_assoc.
Qed.

Lemma string_rev_cons (c : ascii) (s : string) :
  string_rev (String c s) = string_rev s ++ String c "".
Proof. unfold string_rev at 1. simpl. apply rev_onto_app. Qed.

Lemma string_rev_app (a b : string) :
  string_rev (a ++ b) = string_rev b ++ string_rev a.
Proof.
  induction a as [|c a IH]; simpl.
  - now rewrite append_nil_r.
  - now rewrite !string_rev_cons, IH, append_assoc.
Qed.

Lemma string_rev_involutive (s : string) : string_rev (string_rev s) = s.
Proof.
  induction s as [|c s IH]; auto.
  now rewrite string_rev_cons, string_rev_app, IH.
Qed.

Lemma string_rev_nil (s : string) : string_rev s = "" -> s = "".
Proof.
  intros H. apply (f_equal string_rev) in H.
  now rewrite string_rev_involutive in H.
Qed.

Lemma ascii7_ws2_r (a c : ascii) : ascii7 c = true -> ws2 a c = false.
Proof.
  unfold ascii7, ws2. intros H. apply Nat.ltb_lt in H.
  destruct (Nat.eqb_spec (nat_of_ascii c) 160); [lia|]. apply andb_false_r.
Qed.

Lemma ascii7_ws2_l (a c : ascii) : ascii7 c = true -> ws2 c a = false.
Proof.
  unfold ascii7, ws2. intros H. apply Nat.ltb_lt in H.
  destruct (Nat.eqb_spec (nat_of_ascii c) 194); [lia|]. reflexivity.
Qed.

Lemma ascii7_ws3_1 (a b c : ascii) : ascii7 c = true -> ws3 c a b = false.
Proof.
  unfold ascii7, ws3. intros H. apply Nat.ltb_lt in H. cbv zeta.
  destruct (Nat.eqb_spec (nat_of_ascii c) 225); [lia|].
  destruct (Nat.eqb_spec (nat_of_ascii c) 226); [lia|].
  destruct (Nat.eqb_spec (nat_of_ascii c) 227); [lia|].
  destruct (Nat.eqb_spec (nat_of_ascii c) 239); [lia|]. reflexivity.
Qed.

Lemma ascii7_ws3_2 (a b c : ascii) : ascii7 c = true -> ws3 a c b = false.
Proof.
  unfold ascii7, ws3. intros H. apply Nat.ltb_lt in H. cbv zeta.
  destruct (Nat.eqb_spec (nat_of_ascii c) 154); [lia|].
  destruct (Nat.eqb_spec (nat_of_ascii c) 128); [lia|].
  destruct (Nat.eqb_spec (nat_of_ascii c) 129); [lia|].
  destruct (Nat.eqb_spec (nat_of_ascii c) 187); [lia|].
  now rewrite !andb_false_r.
Qed.

Lemma ascii7_ws3_3 (a b c : ascii) : ascii7 c = true -> ws3 a b c = false.
Proof.
  unfold ascii7, ws3. intros H. apply Nat.ltb_lt in H. cbv zeta.
  destruct (Nat.eqb_spec (nat_of_ascii c) 128); [lia|].
  destruct (Nat.leb_spec 128 (nat_of_ascii c)); [lia|].
  destruct (Nat.eqb_spec (nat_of_ascii c) 168); [lia|].
  destruct (Nat.eqb_spec (nat_of_ascii c) 169); [lia|].
  destruct (Nat.eqb_spec (nat_of_ascii c) 175); [lia|].
  destruct (Nat.eqb_spec (nat_of_ascii c) 159); [lia|].
  destruct (Nat.eqb_spec (nat_of_ascii c) 191); [lia|].
  now rewrite !andb_false_r.
Qed.

Lemma trimStart_length (s : string) :
  String.length (trimStart s) <= String.length s.
Proof.
  remember (String.length s) as n eqn:Hn.
  assert (Hle : String.length s <= n) by lia. clear Hn.
  revert s Hle. induction n as [|n IH]; intros s Hle.
  - destruct s; simpl in *; lia.
  - destruct s as [|c1 [|c2 [|c3 s3]]]; simpl in *; try lia.
    + destruct (ws1 c1); simpl; lia.
    + destruct (ws1 c1).
      * destruct (ws1 c2); simpl; lia.
      * destruct (ws2 c1 c2); simpl; lia.
    + destruct (ws1 c1).
      * pose proof (IH (String c2 (String c3 s3))) as H. simpl in H.
        specialize (H ltac:(lia)). lia.
      * destruct (ws2 c1 c2).
        -- pose proof (IH (String c3 s3)) as H. simpl in H.
           specialize (H ltac:(lia)). lia.
        -- destruct (ws3 c1 c2 c3); [|simpl; lia].
           pose proof (IH s3 ltac:(lia)). lia.
Qed.

Lemma trimStart_rev_length (s : string) :
  String.length (trimStart_rev s) <= String.length s.
Proof.
  remember (String.length s) as n eqn:Hn.
  assert (Hle : String.length s <= n) by lia. clear Hn.
  revert s Hle. induction n as [|n IH]; intros s Hle.
  - destruct s; simpl in *; lia.
  - destruct s as [|c1 [|c2 [|c3 s3]]]; simpl in *; try lia.
    + destruct (ws1 c1); simpl; lia.
    + destruct (ws1 c1).
      * destruct (ws1 c2); simpl; lia.
      * destruct (ws2 c2 c1); simpl; lia.
    + destruct (ws1 c1).
      * pose proof (IH (String c2 (String c3 s3))) as H. simpl in H.
        specialize (H ltac:(lia)). lia.
      * destruct (ws2 c2 c1).
        -- pose proof (IH (String c3 s3)) as H. simpl in H.
           specialize (H ltac:(lia)). lia.
        -- destruct (ws3 c3 c2 c1); [|simpl; lia].
           pose proof (IH s3 ltac:(lia)). lia.
Qed.

Ltac shorter H L :=
  exfalso; apply (f_equal String.length) in H; simpl in H;
  pose proof L as Hshort; simpl in Hshort; lia.

(** A string that [trimStart] leaves alone is also left alone when
    something that begins with a character below 128 follows it. *)
Lemma trimStart_app (f x : string) (c : ascii) :
  trimStart f = f -> f <> "" -> ascii7 c = true ->
  trimStart (f ++ String c x) = f ++ String c x.
Proof.
  intros Hf Hne Hc. destruct f as [|c1 f1]; [congruence|]. clear Hne.
  cbn [append trimStart] in *.
  destruct (ws1 c1) eqn:E1; [shorter Hf (trimStart_length f1)|].
  destruct f1 as [|c2 f2]; cbn [append] in *.
  - rewrite (ascii7_ws2_r c1 c Hc).
    destruct x as [|c3 x]; auto. now rewrite (ascii7_ws3_2 c1 c3 c Hc).
  - destruct (ws2 c1 c2) eqn:E2; [shorter Hf (trimStart_length f2)|].
    destruct f2 as [|c3 f3]; cbn [append] in *.
    + now rewrite (ascii7_ws3_3 c1 c2 c Hc).
    + destruct (ws3 c1 c2 c3) eqn:E3; [shorter Hf (trimStart_length f3)|].
      reflexivity.
Qed.

Lemma trimStart_rev_app (g x : string) (c : ascii) :
  trimStart_rev g = g -> g <> "" -> ascii7 c = true ->
  trimStart_rev (g ++ String c x) = g ++ String c x.
Proof.
  intros Hg Hne Hc. destruct g as [|c1 g1]; [congruence|]. clear Hne.
  cbn [append trimStart_rev] in *.
  destruct (ws1 c1) eqn:E1; [shorter Hg (trimStart_rev_length g1)|].
  destruct g1 as [|c2 g2]; cbn [append] in *.
  - rewrite (ascii7_ws2_l c1 c Hc).
    destruct x as [|c3 x]; auto. now rewrite (ascii7_ws3_2 c3 c1 c Hc).
  - destruct (ws2 c2 c1) eqn:E2; [shorter Hg (trimStart_rev_length g2)|].
    destruct g2 as [|c3 g3]; cbn [append] in *.
    + now rewrite (ascii7_ws3_1 c2 c1 c Hc).
    + destruct (ws3 c3 c2 c1) eqn:E3; [shorter Hg (trimStart_rev_length g3)|].
      reflexivity.
Qed.

Lemma trimEnd_fixed (t : string) :
  trimEnd t = t -> trimStart_rev (string_rev t) = string_rev t.
Proof.
  unfold trimEnd. intros H. apply (f_equal string_rev) in H.
  now rewrite string_rev_involutive in H.
Qed.

(** A string that [trimEnd] leaves alone is also left alone after something
    that ends with a character below 128. *)
Lemma trimEnd_app (x t : string) (c : ascii) :
  trimEnd t = t -> t <> "" -> ascii7 c = true ->
  trimEnd (x ++ String c t) = x ++ String c t.
Proof.
  intros Ht Hne Hc. unfold trimEnd.
  rewrite string_rev_app, string_rev_cons, append_assoc. cbn [append].
  rewrite trimStart_rev_app; auto using trimEnd_fixed.
  - rewrite string_rev_app, string_rev_cons, !string_rev_involutive.
    now rewrite append_assoc.
  - intros H. apply Hne. now apply string_rev_nil.
Qed.

Lemma prefix_nil (s : string) : String.prefix "" s = true.
Proof. now destruct s. Qed.

Lemma includes_char (s : string) (c : ascii) :
  includes s (String c "") = has_char c s.
Proof.
  induction s as [|a s IH]; [reflexivity|].
  cbn [includes has_char String.prefix]. rewrite IH, prefix_nil.
  destruct (ascii_dec c a) as [->|Hne].
  - now rewrite Ascii.eqb_refl.
  - apply not_eq_sym in Hne. apply Ascii.eqb_neq in Hne. now rewrite Hne.
Qed.

Lemma has_char_app (c : ascii) (a b : string) :
  has_char c (a ++ b) = has_char c a || has_char c b.
Proof.
  induction a as [|x a IH]; simpl; auto. now rewrite IH, orb_assoc.
Qed.

Lemma split_char_not_nil (sep : ascii) (s : string) : split_char sep s <> [].
Proof.
  induction s as [|c s IH]; simpl; [discriminate|].
  destruct (Ascii.eqb c sep); [discriminate|].
  destruct (split_char sep s); [congruence | discriminate].
Qed.

Lemma split_char_none (sep : ascii) (s : string) :
  has_char sep s = false -> split_char sep s = [s].
Proof.
  induction s as [|c s IH]; simpl; auto.
  destruct (Ascii.eqb c sep); [discriminate|]. simpl.
  intros H. now rewrite IH.
Qed.

Lemma split_char_app (sep : ascii) (a b : string) :
  split_char sep (a ++ String sep b)
  = (split_char sep a ++ split_char sep b)%list.
Proof.
  induction a as [|c a IH]; simpl.
  - now rewrite Ascii.eqb_refl.
  - destruct (Ascii.eqb c sep); [now rewrite IH|].
    rewrite IH. pose proof (split_char_not_nil sep a) as Hne.
    destruct (split_char sep a); [congruence | reflexivity].
Qed.

Lemma split_tabs_from_none (b : bool) (s : string) :
  has_char TAB s = false -> s <> "" -> split_tabs_from b s = [s].
Proof.
  intros Hs Hne. destruct s as [|c s]; [congruence|]. clear Hne.
  cbn [split_tabs_from has_char] in *.
  destruct (Ascii.eqb c TAB); [discriminate|]. simpl in Hs.
  clear b. revert c. induction s as [|c' s IH]; intros c; [reflexivity|].
  cbn [split_tabs_from has_char] in *.
  destruct (Ascii.eqb c' TAB); [discriminate|]. simpl in Hs.
  now rewrite (IH Hs c').
Qed.

Lemma split_tabs_two (f t : string) :
  has_char TAB f = false -> has_char TAB t = false -> t <> "" ->
  split_tabs (f ++ String TAB t) = [f; t].
Proof.
  intros Hf Ht Hne. unfold split_tabs.
  induction f as [|c f IH]; cbn [append split_tabs_from has_char] in *.
  - rewrite Ascii.eqb_refl. now rewrite split_tabs_from_none.
  - destruct (Ascii.eqb c TAB); [discriminate|]. simpl in Hf.
    now rewrite (IH Hf).
Qed.

(** ** Writing a table and reading it back *)

Lemma concat_empty_cons (x : string) (xs : list string) :
  String.concat "" (x :: xs) = x ++ String.concat "" xs.
Proof.
  destruct xs; simpl; [now rewrite append_nil_r | reflexivity].
Qed.

Lemma table_text_joined (pairs : list pair) :
  table_text pairs = joined pairs ++ String LF "".
Proof.
  unfold table_text, joined.
  change ("# FROM-URL" ++ String TAB "" ++ "TO-URL" ++ String LF "" ++ ?x)
    with (header ++ String LF x).
  generalize header. induction pairs as [|p ps IH]; intros acc.
  - reflexivity.
  - cbn [map fold_left]. rewrite concat_empty_cons, <- IH.
    unfold line_of. rewrite !append_assoc. cbn [append].
    now rewrite !append_assoc.
Qed.

Lemma joined_snoc (ps : list pair) (p : pair) :
  joined (ps ++ [p])%list = joined ps ++ String LF (line_of p).
Proof. unfold joined. now rewrite fold_left_app. Qed.

Lemma trimEnd_LF (x : string) : trimEnd (x ++ String LF "") = trimEnd x.
Proof.
  unfold trimEnd. rewrite string_rev_app. reflexivity.
Qed.

Lemma trimEnd_joined (pairs : list pair) :
  (forall p, In p pairs -> reads_back p) ->
  trimEnd (joined pairs) = joined pairs.
Proof.
  destruct pairs as [|p0 ps0] using rev_ind; intros H.
  - reflexivity.
  - clear IHps0. rewrite joined_snoc.
    destruct (H p0) as (_ & _ & _ & _ & _ & _ & Hne & Ht).
    { apply in_app_iff. right. now left. }
    unfold line_of.
    replace (joined ps0 ++ String LF (fst p0 ++ String TAB (snd p0)))
      with ((joined ps0 ++ String LF (fst p0)) ++ String TAB (snd p0)).
    + now apply trimEnd_app.
    + rewrite append_assoc. reflexivity.
Qed.

Lemma trimStart_joined (pairs : list pair) (x : string) :
  trimStart (joined pairs ++ x) = joined pairs ++ x.
Proof.
  assert (H : forall r0, exists r,
             fold_left (fun acc p => acc ++ String LF (line_of p)) pairs
                       (String "#" (String " " (String "F" r0)))
             = String "#" (String " " (String "F" r))).
  { induction pairs as [|p ps IH]; intros r0; simpl; eauto. }
  destruct (H ("ROM-URL" ++ String TAB "TO-URL")) as [r Hr].
  unfold joined.
  change header
    with (String "#" (String " " (String "F" ("ROM-URL" ++ String TAB "TO-URL")))).
  rewrite Hr. reflexivity.
Qed.

Lemma has_char_line (p : pair) :
  reads_back p -> has_char LF (line_of p) = false.
Proof.
  intros (_ & Hf & _ & _ & _ & Ht & _). unfold line_of.
  rewrite has_char_app. cbn [has_char]. now rewrite Hf, Ht.
Qed.

Lemma split_joined (pairs : list pair) :
  (forall p, In p pairs -> reads_back p) ->
  split_char LF (joined pairs) = header :: map line_of pairs.
Proof.
  induction pairs as [|p ps IH] using rev_ind; intros H.
  - reflexivity.
  - rewrite joined_snoc, split_char_app, IH, map_app.
    + rewrite split_char_none; [reflexivity|].
      apply has_char_line, H, in_app_iff. right. now left.
    + intros q Hq. apply H, in_app_iff. now left.
Qed.

Lemma trim_line (p : pair) : reads_back p -> trim (line_of p) = line_of p.
Proof.
  intros (_ & _ & Hfne & Hf & _ & _ & Htne & Ht). unfold trim, line_of.
  rewrite trimStart_app; auto. now apply trimEnd_app.
Qed.

Lemma trim_table_text (pairs : list pair) :
  (forall p, In p pairs -> reads_back p) ->
  trim (table_text pairs) = joined pairs.
Proof.
  intros H. unfold trim.
  now rewrite table_text_joined, trimStart_joined, trimEnd_LF, trimEnd_joined.
Qed.

(** The rows of a written table are the pairs that were written. *)
Lemma parse_table_text (pairs : list pair) :
  (forall p, In p pairs -> reads_back p) ->
  parse_rows (table_text pairs) = map loose pairs.
Proof.
  intros H. unfold parse_rows.
  rewrite trim_table_text, split_joined by auto. cbn [tl].
  rewrite map_map. apply map_ext_in. intros p Hp.
  rewrite trim_line by auto. unfold line_of.
  destruct (H p Hp) as (Hf & _ & _ & _ & Ht & _ & Hne & _).
  now rewrite split_tabs_two.
Qed.

Lemma typed_loose (pairs : list pair) : typed (map loose pairs) = pairs.
Proof.
  induction pairs as [|[f t] ps IH]; simpl; [reflexivity|]. now rewrite IH.
Qed.

(** ** Computations that succeed *)

Local Open Scope list_scope.

Lemma bind_Ok {A B} (m : M A) (k : A -> M B) (log : list string) (b : B) :
  bind m k = (log, Ok b) ->
  exists l1 a l2, m = (l1, Ok a) /\ k a = (l2, Ok b) /\ log = l1 ++ l2.
Proof.
  destruct m as [l1 [a|msg]]; simpl; [|discriminate].
  destruct (k a) as [l2 r] eqn:Ek. intros H. inversion H; subst.
  exists l1, a, l2. auto.
Qed.

Lemma bind_ret_l {A B} (a : A) (k : A -> M B) : bind (ret a) k = k a.
Proof. unfold ret, bind. now destruct (k a). Qed.

Lemma bind_assoc {A B C} (m : M A) (f : A -> M B) (g : B -> M C) :
  bind (bind m f) g = bind m (fun a => bind (f a) g).
Proof.
  destruct m as [l1 [a|msg]]; simpl; auto.
  destruct (f a) as [l2 [b|msg]]; simpl; auto.
  destruct (g b) as [l3 r]. now rewrite app_assoc.
Qed.

Lemma bind_Ok_ret {A B} (m : M A) (log : list string) (a : A) (b : B) :
  m = (log, Ok a) -> bind m (fun _ => ret b) = (log, Ok b).
Proof. intros ->. simpl. now rewrite app_nil_r. Qed.


Lemma forEach_Ok {A} (body : A -> M unit) (xs : list A) (log : list string) :
  forEach body xs = (log, Ok tt) ->
  forall x, In x xs -> exists l, body x = (l, Ok tt).
Proof.
  revert log. induction xs as [|y xs IH]; intros log H x Hx; [destruct Hx|].
  simpl in H. apply bind_Ok in H. destruct H as (l1 & [] & l2 & Hy & Hrest & _).
  destruct Hx as [<-|Hx]; eauto.
Qed.

Lemma checkURLInvalidSymbols_Ok (url : string) (log : list string) :
  checkURLInvalidSymbols url = (log, Ok tt) ->
  has_char LF url = false /\ has_char TAB url = false.
Proof.
  intros H. unfold checkURLInvalidSymbols in H.
  pose proof (forEach_Ok _ _ H) as Hall. split.
  - destruct (Hall (String LF "")) as [l Hl]; [now left|].
    rewrite includes_char in Hl. now destruct (has_char LF url).
  - destruct (Hall (String TAB "")) as [l Hl]; [right; now left|].
    rewrite includes_char in Hl. now destruct (has_char TAB url).
Qed.

Section Valid.

Variable toLowerCase : string -> string.
Variable E : Env.

Lemma validateFromURL_Ok (url : string) (checkResolve : bool)
    (log : list string) :
  validateFromURL toLowerCase E url checkResolve = (log, Ok tt) ->
  startsWith url "/" = true
  /\ has_char LF url = false /\ has_char TAB url = false
  /\ exists l path, resolveDocumentPath toLowerCase E url = (l, Ok path)
                    /\ found path = false.
Proof.
  unfold validateFromURL.
  destruct (startsWith url "/"); [|discriminate]. cbn [negb].
  destruct (includes url "/docs/"); [|discriminate]. cbn [negb].
  destruct (match nth_error (split_char "/" url) 1 with
            | Some l => set_has (VALID_LOCALES_SET E) l
            | None => false
            end); [|discriminate]. cbn [negb].
  intros H. apply bind_Ok in H. destruct H as (l1 & [] & l2 & Hsym & H & _).
  apply bind_Ok in H. destruct H as (l3 & [] & l4 & _ & H & _).
  apply bind_Ok in H. destruct H as (l5 & path & l6 & Hpath & H & _).
  apply checkURLInvalidSymbols_Ok in Hsym. destruct Hsym as [Hlf Htab].
  repeat split; auto. exists l5, path. split; auto.
  destruct (found path); [discriminate | reflexivity].
Qed.

Lemma isVanityRedirectURL_nonempty (url : string) :
  isVanityRedirectURL E url = true -> url <> "".
Proof.
  unfold isVanityRedirectURL. intros H. apply set_has_In in H.
  apply (proj1 (new_Set_In _ _)) in H. apply in_map_iff in H.
  destruct H as (l & <- & _). intros Hnil. simpl in Hnil. discriminate Hnil.
Qed.

Lemma validateToURL_nonempty (url : string) (checkResolve checkPath : bool)
    (log : list string) :
  validateToURL toLowerCase E url checkResolve checkPath = (log, Ok tt) ->
  url <> "".
Proof.
  intros H ->. unfold validateToURL in H.
  destruct (isVanityRedirectURL E "") eqn:Ev.
  - now apply isVanityRedirectURL_nonempty in Ev.
  - discriminate.
Qed.

Lemma validatePairs_Ok (pairs : list pair) (checkExists : bool)
    (log : list string) (p : pair) :
  validatePairs toLowerCase E (map loose pairs) checkExists = (log, Ok tt) ->
  In p pairs ->
  (exists l, validateFromURL toLowerCase E (fst p) false = (l, Ok tt))
  /\ exists l, validateToURL toLowerCase E (snd p) false checkExists = (l, Ok tt).
Proof.
  intros H Hp. unfold validatePairs in H.
  destruct (forEach_Ok _ _ H (loose p)) as [l Hl]; [now apply in_map|].
  cbn [loose] in Hl. apply bind_Ok in Hl.
  destruct Hl as (l1 & [] & l2 & Hf & Ht & _). eauto.
Qed.

End Valid.

Lemma truthy_false_nil (s : string) : truthy s = false -> s = "".
Proof. destruct s; [reflexivity | discriminate]. Qed.

Lemma loadPairsFromFile_eq (toLowerCase : string -> string) (E : Env)
    (filePath content : string) (strict : bool) :
  files E filePath = Some content ->
  loadPairsFromFile toLowerCase E filePath strict
  = ((if strict then
        errorOnEncoded E (parse_rows content) ;;
        errorOnDuplicated toLowerCase (parse_rows content)
      else ret tt) ;;
     validatePairs toLowerCase E (parse_rows content) strict) ;;
    ret (typed (parse_rows content)).
Proof.
  intros H. unfold loadPairsFromFile, readFileSync. rewrite H.
  now rewrite bind_ret_l, bind_assoc.
Qed.

Lemma files_save (E : Env) (localeFolder : string) (pairs : list pair) :
  files (written E (save E localeFolder pairs))
        (path_join E [localeFolder; "_redirects.txt"])
  = Some (table_text pairs).
Proof.
  unfold written, save. cbn [files with_files stream_path stream_text].
  now rewrite String.eqb_refl.
Qed.

Lemma trimStart_slash (url : string) :
  startsWith url "/" = true -> url <> "" /\ trimStart url = url.
Proof.
  unfold startsWith. destruct url as [|c url]; cbn [String.prefix];
    [discriminate|].
  destruct (ascii_dec "/" c) as [<-|]; [|discriminate]. intros _.
  split; [discriminate|].
  destruct url as [|c2 [|c3 url]]; reflexivity.
Qed.

(** ** What strict loading checks *)


Lemma validatePairs_typed (toLowerCase : string -> string) (E : Env)
    (rows : list row) (checkExists : bool) (log : list string) :
  validatePairs toLowerCase E rows checkExists = (log, Ok tt) ->
  map loose (typed rows) = rows.
Proof.
  revert log. induction rows as [|[from [to|]] rows IH]; intros log H.
  - reflexivity.
  - unfold validatePairs in H. cbn [forEach] in H. apply bind_Ok in H.
    destruct H as (l1 & [] & l2 & _ & Hrest & _).
    cbn [typed flat_map app map loose fst snd]. f_equal. eapply IH. exact Hrest.
  - exfalso. unfold validatePairs in H. cbn [forEach] in H. apply bind_Ok in H.
    destruct H as (l1 & [] & l2 & Hrow & _).
    apply bind_Ok in Hrow. destruct Hrow as (l3 & [] & l4 & _ & Hto & _).
    discriminate Hto.
Qed.

Lemma loadPairsFromFile_Ok (toLowerCase : string -> string) (E : Env)
    (filePath : string) (strict : bool) (log : list string)
    (pairs : list pair) :
  loadPairsFromFile toLowerCase E filePath strict = (log, Ok pairs) ->
  exists content l,
    files E filePath = Some content
    /\ pairs = typed (parse_rows content)
    /\ validatePairs toLowerCase E (parse_rows content) strict = (l, Ok tt).
Proof.
  intros H. destruct (files E filePath) as [content|] eqn:Ef.
  - rewrite (loadPairsFromFile_eq _ _ _ _ Ef) in H.
    apply bind_Ok in H. destruct H as (l1 & [] & l2 & Hchecks & Hret & _).
    inversion Hret; subst.
    apply bind_Ok in Hchecks. destruct Hchecks as (l3 & [] & l4 & _ & Hv & _).
    eauto.
  - unfold loadPairsFromFile, readFileSync in H. rewrite Ef in H. discriminate.
Qed.


(** ** The outcome of [validateLocale] *)

Lemma always_ret {A} (P : A -> Prop) (a : A) : P a -> always P (ret a).
Proof. intros H log a' E. inversion E; subst. exact H. Qed.

Lemma always_bind {A B} (Q : A -> Prop) (P : B -> Prop) (m : M A)
    (k : A -> M B) :
  always Q m -> (forall a, Q a -> always P (k a)) -> always P (bind m k).
Proof.
  intros Hm Hk log b E. apply bind_Ok in E.
  destruct E as (l1 & a & l2 & Em & Ek & _).
  apply (Hk a (Hm _ _ Em) _ _ Ek).
Qed.

Lemma always_any {A} (m : M A) : always (fun _ => True) m.
Proof. intros log a _. exact I. Qed.

Lemma length_write (h : store) (r : ref) (xs : list pair) :
  List.length (write h r xs) = List.length h.
Proof.
  revert r. induction h as [|ys h IH]; intros r; simpl; auto.
  destruct r; simpl; auto.
Qed.

Lemma length_push (h : store) (r : ref) (xs : list pair) :
  List.length (push h r xs) = List.length h.
Proof. apply length_write. Qed.

(** The array that [shortCuts] returns is made after the array [pairs], so
    it is another object, and [changed] is always false. *)
Lemma loadLocaleAndAdd_changed (toLowerCase : string -> string) (E : Env)
    (locale : string) (updatePairs : list pair) (fix_ : bool) :
  always (fun r => changed r = false)
         (loadLocaleAndAdd toLowerCase E locale updatePairs fix_).
Proof.
  unfold loadLocaleAndAdd.
  apply always_bind with (Q := fun _ => True); [apply always_any|]. intros _ _.
  apply always_bind with (Q := fun _ => True); [apply always_any|]. intros _ _.
  apply always_bind with (Q := fun _ => True); [apply always_any|]. intros _ _.
  apply always_bind with (Q := fun _ => True); [apply always_any|]. intros root _.
  cbn [alloc List.length app].
  apply always_bind with (Q := fun h : store => List.length h = 1).
  { destruct (existsSync E _); [|now apply always_ret].
    apply always_bind with (Q := fun _ => True); [apply always_any|].
    intros stored _. apply always_ret. now rewrite length_push. }
  intros h Hh.
  apply always_bind
    with (Q := fun hc : store * ref => 1 <= List.length (fst hc)).
  { unfold removeConflictingOldRedirects_in.
    apply always_bind with (Q := fun _ => True); [apply always_any|].
    intros cleaned _.
    destruct (List.length (read h 0) =? 0)%nat; apply always_ret; simpl.
    - lia.
    - rewrite length_app. simpl. lia. }
  intros [h1 cleanPairs] Hh1. cbn [fst] in Hh1.
  apply always_bind with (Q := fun _ => True); [apply always_any|].
  intros flat _. cbn [alloc].
  apply always_bind
    with (Q := fun hs : store * ref => 1 <= snd hs).
  { destruct fix_.
    - apply always_bind with (Q := fun _ => True); [apply always_any|].
      intros kept _. apply always_ret. cbn [alloc snd].
      rewrite length_app, length_push. simpl. lia.
    - apply always_ret. cbn [snd]. rewrite length_push. exact Hh1. }
  intros [h2 simplifiedPairs] Hs. cbn [snd] in Hs.
  apply always_bind with (Q := fun _ => True); [apply always_any|]. intros _ _.
  apply always_ret. cbn [changed].
  destruct simplifiedPairs; [lia | reflexivity].
Qed.

(** ** The order of [sortTuples] *)







(** *** [js_compare] compares code units *)

Ltac div_lia := zify; Z.to_euclidean_division_equations; lia.

Lemma utf16_place_low (n : N) : (n < 238)%N -> utf16_place n = n.
Proof.
  intros H. unfold utf16_place.
  destruct (N.eqb_spec n 238); [lia|]. destruct (N.eqb_spec n 239); [lia|].
  destruct (N.leb_spec 240 n); [lia|]. reflexivity.
Qed.

Lemma utf16_place_3 (a : N) :
  (14 <= a)%N -> (a <= 15)%N -> utf16_place (224 + a) = (229 + a)%N.
Proof.
  intros H1 H2. assert (H : a = 14%N \/ a = 15%N) by lia.
  destruct H as [-> | ->]; reflexivity.
Qed.

Lemma utf16_place_4 (a : N) :
  (a <= 4)%N -> utf16_place (240 + a) = (238 + a)%N.
Proof.
  intros H1.
  assert (H : a = 0%N \/ a = 1%N \/ a = 2%N \/ a = 3%N \/ a = 4%N) by lia.
  destruct H as [-> | [-> | [-> | [-> | ->]]]]; reflexivity.
Qed.

Lemma utf16_place_byte (n : N) : (n < 256)%N -> (utf16_place n < 256)%N.
Proof.
  intros H. unfold utf16_place.
  destruct (N.eqb_spec n 238); [subst; reflexivity|].
  destruct (N.eqb_spec n 239); [subst; reflexivity|]. cbn [orb].
  destruct (N.leb_spec 240 n); [|exact H].
  destruct (N.leb_spec n 244); cbn [andb]; lia.
Qed.

Lemma scalar_shape (p : N) :
  scalar p -> shape p (map utf16_place (utf8 p)) (utf16 p).
Proof.
  intros Hp. unfold utf8, utf16, scalar in *.
  destruct (N.ltb_spec p 128) as [H1|H1].
  { destruct (N.ltb_spec p 65536); [|lia]. cbn [map].
    rewrite utf16_place_low by lia. now constructor. }
  destruct (N.ltb_spec p 2048) as [H2|H2].
  { destruct (N.ltb_spec p 65536); [|lia]. cbn [map].
    rewrite !utf16_place_low by div_lia. apply shape2; div_lia. }
  destruct (N.ltb_spec p 65536) as [H3|H3].
  { cbn [map].
    rewrite (@utf16_place_low (128 + (p / 64) mod 64)%N),
      (@utf16_place_low (128 + p mod 64)%N) by div_lia.
    destruct Hp as [Hp|Hp].
    - rewrite utf16_place_low by div_lia. apply shape3; div_lia.
    - rewrite utf16_place_3 by div_lia. apply shape3'; div_lia. }
  cbn [map].
  rewrite (@utf16_place_low (128 + (p / 4096) mod 64)%N),
    (@utf16_place_low (128 + (p / 64) mod 64)%N),
    (@utf16_place_low (128 + p mod 64)%N) by div_lia.
  rewrite utf16_place_4 by div_lia. apply shape4; div_lia.
Qed.

Lemma utf8_bytes (p : N) :
  scalar p -> Forall (fun b => (b < 256)%N) (utf8 p).
Proof.
  intros Hp. unfold utf8, scalar in *.
  destruct (N.ltb_spec p 128); [repeat constructor; lia|].
  destruct (N.ltb_spec p 2048); [repeat constructor; div_lia|].
  destruct (N.ltb_spec p 65536); repeat constructor; div_lia.
Qed.

Lemma lex_app (l X Y : list N) : lex (l ++ X) (l ++ Y) = lex X Y.
Proof.
  induction l as [|x l IH]; [reflexivity|]. cbn [app lex].
  now rewrite N.compare_refl.
Qed.

Ltac lex_cases :=
  cbn [app lex];
  repeat (match goal with
          | |- context [N.compare ?a ?b] => destruct (N.compare_spec a b)
          end; try reflexivity; try discriminate; try (exfalso; lia)).

(** Two different code points are told apart within their bytes, and
    within their code units, and in the same way. *)
Lemma shape_order (p q : N) (kp kq up uq X Y X' Y' : list N) :
  shape p kp up -> shape q kq uq -> p <> q ->
  lex (kp ++ X) (kq ++ Y) = lex (up ++ X') (uq ++ Y').
Proof.
  intros Hp Hq Hne. destruct Hp; destruct Hq; lex_cases.
Qed.

Lemma shape_first (p : N) (k u X X' : list N) :
  shape p k u -> lex [] (k ++ X) = Lt /\ lex [] (u ++ X') = Lt
                 /\ lex (k ++ X) [] = Gt /\ lex (u ++ X') [] = Gt.
Proof. destruct 1; repeat split. Qed.

Lemma js_compare_bytes (bs cs : list N) :
  Forall (fun b => (b < 256)%N) bs -> Forall (fun b => (b < 256)%N) cs ->
  js_compare (string_of_bytes bs) (string_of_bytes cs)
  = lex (map utf16_place bs) (map utf16_place cs).
Proof.
  unfold js_compare. intros Hb. revert cs.
  induction Hb as [|b bs Hlt Hb IH]; intros cs Hc.
  - destruct Hc; reflexivity.
  - destruct Hc as [|c cs Hlt' Hc]; [reflexivity|].
    cbn [string_of_bytes fold_right utf16_key map lex String.compare].
    fold (string_of_bytes bs) (string_of_bytes cs). rewrite <- IH by exact Hc.
    unfold Ascii.compare, utf16_rank.
    rewrite !N_ascii_embedding
      by (try apply utf16_place_byte; rewrite ?N_ascii_embedding; assumption).
    reflexivity.
Qed.

Lemma flat_map_utf8_bytes (ps : list N) :
  Forall scalar ps -> Forall (fun b => (b < 256)%N) (flat_map utf8 ps).
Proof.
  induction 1 as [|p ps Hp Hps IH]; [constructor|].
  cbn [flat_map]. apply Forall_app. split; [now apply utf8_bytes | exact IH].
Qed.

(** [js_compare], on the strings of two lists of code points, compares
    their UTF-16 code units. *)
Theorem js_compare_utf16 (ps qs : list N) :
  Forall scalar ps -> Forall scalar qs ->
  js_compare (encode ps) (encode qs) = lex (code_units ps) (code_units qs).
Proof.
  intros Hps Hqs. unfold encode, code_units.
  rewrite js_compare_bytes by now apply flat_map_utf8_bytes.
  revert qs Hqs. induction Hps as [|p ps Hp Hps IH]; intros qs Hqs.
  - destruct Hqs as [|q qs Hq Hqs]; [reflexivity|].
    cbn [flat_map map]. rewrite map_app.
    destruct (shape_first (map utf16_place (flat_map utf8 qs))
                          (flat_map utf16 qs) (scalar_shape Hq))
      as (H1 & H2 & _).
    cbn [flat_map map] in *. now rewrite H1, H2.
  - destruct Hqs as [|q qs Hq Hqs].
    + cbn [flat_map map]. rewrite map_app.
      destruct (shape_first (map utf16_place (flat_map utf8 ps))
                            (flat_map utf16 ps) (scalar_shape Hp))
        as (_ & _ & H1 & H2).
      now rewrite H1, H2.
    + cbn [flat_map]. rewrite !map_app.
      destruct (N.eq_dec p q) as [->|Hne].
      * rewrite !lex_app. now apply IH.
      * apply shape_order with (p := p) (q := q); auto using scalar_shape.
Qed.






(** The lowercased sources of the output of [shortCuts] are pairwise
    distinct. *)
Lemma output_sources_NoDup (toLowerCase : string -> string)
    (pairs : list pair) (throws : bool) (log : list string)
    (out : list pair) :
  shortCuts toLowerCase pairs throws = (log, Ok out) ->
  NoDup (map (fun e => toLowerCase (fst e)) out).
Proof.
  intros H. apply shortCuts_Ok in H. subst out.
  pose proof (NoDup_sources' toLowerCase pairs) as Hnd.
  unfold lowerCasePairs in Hnd. rewrite map_map in Hnd. exact Hnd.
Qed.

(** ** Duplicated sources *)

Lemma set_add_absent (seen : JsSet) (k : string) :
  set_has seen k = false -> set_add seen k = seen ++ [k].
Proof. unfold set_add. now intros ->. Qed.

Lemma seen_loop_Ok (toLowerCase : string -> string) (rows : list row)
    (seen : JsSet) :
  NoDup (seen ++ map (fun r => toLowerCase (fst r)) rows) ->
  foldM (fun (seen : JsSet) (r : row) =>
           if set_has seen (toLowerCase (fst r)) then
             throw ("Duplicated redirect: " ++ toLowerCase (fst r))%string
           else ret (set_add seen (toLowerCase (fst r))))
        rows seen
  = ([], Ok (seen ++ map (fun r => toLowerCase (fst r)) rows)).
Proof.
  revert seen. induction rows as [|r rows IH]; intros seen Hnd.
  - simpl. now rewrite app_nil_r.
  - cbn [foldM map]. cbn [map] in Hnd. assert (Hk : set_has seen (toLowerCase (fst r)) = false).
    { destruct (set_has seen (toLowerCase (fst r))) eqn:E; auto.
      apply set_has_In in E. apply NoDup_remove_2 in Hnd.
      exfalso. apply Hnd. apply in_app_iff. now left. }
    rewrite Hk, (set_add_absent _ _ Hk), bind_ret_l.
    rewrite IH; rewrite <- app_assoc; auto.
Qed.

Lemma seen_loop_Throw (toLowerCase : string -> string) (rows : list row)
    (seen : JsSet) :
  NoDup seen ->
  ~ NoDup (seen ++ map (fun r => toLowerCase (fst r)) rows) ->
  exists rows1 r rows2,
    rows = rows1 ++ r :: rows2
    /\ In (toLowerCase (fst r))
          (seen ++ map (fun r => toLowerCase (fst r)) rows1)
    /\ NoDup (seen ++ map (fun r => toLowerCase (fst r)) rows1)
    /\ foldM (fun (seen : JsSet) (r : row) =>
                if set_has seen (toLowerCase (fst r)) then
                  throw ("Duplicated redirect: "
                         ++ toLowerCase (fst r))%string
                else ret (set_add seen (toLowerCase (fst r))))
             rows seen
       = ([], Throw ("Duplicated redirect: " ++ toLowerCase (fst r))%string).
Proof.
  revert seen. induction rows as [|r rows IH]; intros seen Hseen Hdup.
  - exfalso. apply Hdup. simpl. now rewrite app_nil_r.
  - cbn [map] in Hdup.
    destruct (set_has seen (toLowerCase (fst r))) eqn:Hk.
    + exists [], r, rows. cbn [foldM map app]. rewrite app_nil_r, Hk.
      repeat split; auto. now apply set_has_In.
    + assert (Hseen' : NoDup (seen ++ [toLowerCase (fst r)])).
      { apply NoDup_snoc; auto. intros Hin. apply set_has_In in Hin. congruence. }
      destruct (IH (seen ++ [toLowerCase (fst r)]) Hseen')
        as (rows1 & r' & rows2 & -> & Hin & Hnd & Hrun).
      { now rewrite <- app_assoc. }
      exists (r :: rows1), r', rows2.
      rewrite <- app_assoc in Hin, Hnd. simpl in Hin, Hnd.
      repeat split; auto.
      cbn [foldM app].
      rewrite Hk, (set_add_absent _ _ Hk), bind_ret_l. exact Hrun.
Qed.

(** ** Where the URLs of the output come from *)

Lemma casing_get_written (toLowerCase : string -> string)
    (pairs : list pair) (k : string) :
  map_get (new_Map (casing_entries toLowerCase pairs)) k <> None ->
  In (casing_get (new_Map (casing_entries toLowerCase pairs)) k)
     (map fst pairs ++ map snd pairs).
Proof.
  unfold casing_get. rewrite map_get_new_Map.
  destruct (last_value (casing_entries toLowerCase pairs) k) as [v|] eqn:E;
    [|congruence].
  intros _. apply last_value_In in E. unfold casing_entries in E.
  apply in_app_iff in E. apply in_app_iff.
  destruct E as [E|E]; apply in_map_iff in E; destruct E as (p & Hp & Hin);
    inversion Hp; subst; [left|right]; now apply in_map.
Qed.

Lemma length_sort cmp (l : list pair) :
  List.length (sort cmp l) = List.length l.
Proof. symmetry. apply Permutation_length, sort_perm. Qed.

Lemma length_transitiveDag (toLowerCase : string -> string)
    (pairs : list pair) :
  List.length (transitiveDag toLowerCase pairs) <= List.length pairs.
Proof.
  pose proof (NoDup_keys_transitiveDag toLowerCase pairs) as Hnd.
  assert (Hincl : incl (keys (transitiveDag toLowerCase pairs))
                       (map fst (lowerCasePairs toLowerCase pairs))).
  { intros u Hu. unfold keys in Hu. apply in_map_iff in Hu.
    destruct Hu as ([u' t] & <- & Hin). cbn [fst].
    apply In_map_get in Hin; auto.
    destruct (@recorded_edge _ _ _ _ Hin) as (Hu & _).
    destruct (dg_next (new_Map (lowerCasePairs toLowerCase pairs)) u')
      as [n|] eqn:E; [|congruence].
    eapply dg_next_source; eauto. }
  apply NoDup_incl_length in Hincl; auto.
  unfold keys, lowerCasePairs in Hincl. now rewrite !length_map in Hincl.
Qed.

(** ** Checks that the flags add *)

Section Relax.

Variable toLowerCase : string -> string.
Variable E : Env.

Lemma validateFromURL_relax (url : string) (checkResolve : bool)
    (log : list string) :
  validateFromURL toLowerCase E url checkResolve = (log, Ok tt) ->
  exists log', validateFromURL toLowerCase E url false = (log', Ok tt).
Proof.
  unfold validateFromURL.
  destruct (startsWith url "/"); [|discriminate]. cbn [negb].
  destruct (includes url "/docs/"); [|discriminate]. cbn [negb].
  destruct (match nth_error (split_char "/" url) 1 with
            | Some l => set_has (VALID_LOCALES_SET E) l
            | None => false
            end); [|discriminate]. cbn [negb].
  intros H. apply bind_Ok in H. destruct H as (l1 & [] & l2 & Hsym & H & _).
  apply bind_Ok in H. destruct H as (l3 & [] & l4 & Hloc & H & _).
  apply bind_Ok in H. destruct H as (l5 & path & l6 & Hpath & H & _).
  rewrite Hsym, Hloc, Hpath. cbn [bind].
  destruct (found path); [discriminate|].
  eexists. reflexivity.
Qed.

Lemma validateToURL_relax (url : string) (checkResolve checkPath : bool)
    (log : list string) :
  validateToURL toLowerCase E url checkResolve checkPath = (log, Ok tt) ->
  (exists log', validateToURL toLowerCase E url false checkPath = (log', Ok tt))
  /\ (exists log',
        validateToURL toLowerCase E url checkResolve false = (log', Ok tt)).
Proof.
  unfold validateToURL.
  destruct (isVanityRedirectURL E url); [intros _; split; eexists; reflexivity|].
  destruct (includes url "://"); [intros H; split; eexists; exact H|].
  destruct (startsWith url "/"); [|discriminate].
  intros H. apply bind_Ok in H. destruct H as (l1 & [] & l2 & Hsym & H & _).
  apply bind_Ok in H. destruct H as (l3 & [] & l4 & Hloc & H & _).
  apply bind_Ok in H. destruct H as (l5 & [] & l6 & Hres & Hpath & _).
  rewrite Hsym, Hloc. split.
  - rewrite bind_ret_l, Hpath. cbn [bind]. eexists. reflexivity.
  - rewrite Hres. cbn [bind]. eexists. reflexivity.
Qed.

Lemma validatePairs_relax (rows : list row) (checkExists : bool)
    (log : list string) :
  validatePairs toLowerCase E rows checkExists = (log, Ok tt) ->
  exists log', validatePairs toLowerCase E rows false = (log', Ok tt).
Proof.
  unfold validatePairs. revert log.
  induction rows as [|[from to] rows IH]; intros log H.
  - eexists. reflexivity.
  - cbn [forEach] in *. apply bind_Ok in H.
    destruct H as (l1 & [] & l2 & Hrow & Hrest & _).
    apply bind_Ok in Hrow. destruct Hrow as (l3 & [] & l4 & Hf & Ht & _).
    destruct to as [to|]; [|discriminate].
    apply validateToURL_relax in Ht. destruct Ht as [_ [l5 Ht]].
    destruct (IH _ Hrest) as [l6 Hrest'].
    rewrite Hf, Ht, Hrest'. cbn [bind]. eexists. reflexivity.
Qed.

End Relax.

(** ** Documents of sources and targets *)

Section Documents.

Variable toLowerCase : string -> string.
Variable E : Env.

Lemma resolveDocumentPath_key (u1 u2 : string) :
  isVanityRedirectURL E u1 = false ->
  isVanityRedirectURL E u2 = false ->
  toLowerCase (bareURL u1) = toLowerCase (bareURL u2) ->
  snd (resolveDocumentPath toLowerCase E u1)
  = snd (resolveDocumentPath toLowerCase E u2).
Proof.
  intros H1 H2 Hkey. unfold resolveDocumentPath. rewrite H1, H2.
  fold (bareURL u1) (bareURL u2). rewrite Hkey.
  destruct (nth_error (split_char "/" (toLowerCase (bareURL u2))) 1)
    as [locale|]; [|reflexivity].
  destruct (isArchivedFilePath E _); [reflexivity|].
  destruct (if String.eqb locale "en-us" then Some (CONTENT_ROOT E)
            else CONTENT_TRANSLATED_ROOT E) as [r|]; [|reflexivity].
  destruct (truthy r); [|reflexivity].
  destruct (existsSync E _); reflexivity.
Qed.

Lemma startsWith_truthy (url p : string) :
  startsWith url p = true -> p <> "" -> truthy url = true.
Proof.
  unfold startsWith. destruct url; [|reflexivity].
  destruct p; [congruence | discriminate].
Qed.

Lemma vanity_found (url : string) :
  isVanityRedirectURL E url = true ->
  resolveDocumentPath toLowerCase E url = ([], Ok (Some url))
  /\ found (Some url) = true.
Proof.
  intros H. unfold resolveDocumentPath. rewrite H. split; [reflexivity|].
  apply isVanityRedirectURL_nonempty in H. cbn [found].
  destruct url; [congruence | reflexivity].
Qed.

Lemma validateFromURL_not_vanity (url : string) (checkResolve : bool)
    (log : list string) :
  validateFromURL toLowerCase E url checkResolve = (log, Ok tt) ->
  isVanityRedirectURL E url = false.
Proof.
  intros H. apply validateFromURL_Ok in H.
  destruct H as (_ & _ & _ & l & path & Hpath & Hfound).
  destruct (isVanityRedirectURL E url) eqn:Ev; [|reflexivity].
  destruct (vanity_found _ Ev) as [Hv Hf].
  rewrite Hv in Hpath. inversion Hpath; subst. congruence.
Qed.

Lemma validateToURL_checked (url : string) (checkResolve : bool)
    (log : list string) :
  validateToURL toLowerCase E url checkResolve true = (log, Ok tt) ->
  isVanityRedirectURL E url = false ->
  includes url "://" = false ->
  exists l path, resolveDocumentPath toLowerCase E url = (l, Ok path)
                 /\ found path = true.
Proof.
  intros H Hv Hext. unfold validateToURL in H. rewrite Hv, Hext in H.
  destruct (startsWith url "/"); [|discriminate].
  apply bind_Ok in H. destruct H as (l3 & [] & l4 & _ & H & _).
  apply bind_Ok in H. destruct H as (l5 & [] & l6 & _ & H & _).
  apply bind_Ok in H. destruct H as (l7 & [] & l8 & _ & H & _).
  apply bind_Ok in H. destruct H as (l9 & path & l10 & Hpath & H & _).
  exists l9, path. split; auto.
  destruct (found path); [reflexivity | discriminate].
Qed.

End Documents.

Lemma errorOnDuplicated_NoDup (toLowerCase : string -> string)
    (rows : list row) (log : list string) :
  errorOnDuplicated toLowerCase rows = (log, Ok tt) ->
  NoDup (map (fun r => toLowerCase (fst r)) rows).
Proof.
  intros H.
  destruct (NoDup_dec string_dec (map (fun r => toLowerCase (fst r)) rows))
    as [Hnd|Hdup]; [exact Hnd|].
  exfalso. unfold errorOnDuplicated in H.
  destruct (@seen_loop_Throw toLowerCase rows [] (NoDup_nil _) Hdup)
    as (rows1 & r & rows2 & _ & _ & _ & Hrun).
  rewrite Hrun in H. discriminate.
Qed.

Lemma loadPairsFromFile_strict_Ok (toLowerCase : string -> string) (E : Env)
    (filePath : string) (log : list string) (pairs : list pair) :
  loadPairsFromFile toLowerCase E filePath true = (log, Ok pairs) ->
  exists l1 l2 l3,
    errorOnEncoded E (map loose pairs) = (l1, Ok tt)
    /\ errorOnDuplicated toLowerCase (map loose pairs) = (l2, Ok tt)
    /\ validatePairs toLowerCase E (map loose pairs) true = (l3, Ok tt).
Proof.
  intros H. destruct (files E filePath) as [content|] eqn:Ef.
  - rewrite (loadPairsFromFile_eq _ _ _ _ Ef) in H.
    apply bind_Ok in H. destruct H as (l1 & [] & l2 & Hchecks & Hret & _).
    inversion Hret; subst.
    apply bind_Ok in Hchecks. destruct Hchecks as (l3 & [] & l4 & Hs & Hv & _).
    apply bind_Ok in Hs. destruct Hs as (l5 & [] & l6 & Henc & Hdup & _).
    rewrite (validatePairs_typed _ _ _ _ Hv). eauto 7.
  - unfold loadPairsFromFile, readFileSync in H. rewrite Ef in H. discriminate.
Qed.

(** ** The parts of a URL *)

Lemma split_char_cons (sep : ascii) (s h : string) (t : list string) :
  split_char sep s = h :: t ->
  has_char sep h = false
  /\ ((t = [] /\ s = h)
      \/ exists s', s = (h ++ String sep s')%string /\ t = split_char sep s').
Proof.
  revert h t. induction s as [|c s IH]; intros h t H; cbn [split_char] in H.
  - inversion H; subst. split; [reflexivity | now left].
  - destruct (Ascii.eqb c sep) eqn:Ec.
    + apply Ascii.eqb_eq in Ec. subst c. inversion H; subst.
      split; [reflexivity|]. right. exists s. split; reflexivity.
    + destruct (split_char sep s) as [|h' t'] eqn:Es.
      * now apply split_char_not_nil in Es.
      * inversion H; subst. destruct (IH h' t eq_refl) as [Hh Hs].
        split; [cbn [has_char]; now rewrite Ec|].
        destruct Hs as [[-> ->] | (s' & -> & ->)]; [now left|].
        right. exists s'. split; reflexivity.
Qed.

Lemma truthy_true (s : string) : s <> "" -> truthy s = true.
Proof. destruct s; [congruence | reflexivity]. Qed.

(** ** Filters that log *)

Lemma filterM_log {A} (f : A -> bool) (line : A -> string) (xs : list A) :
  filterM (fun x => (if f x then console_log (line x) else ret tt) ;;
                    ret (negb (f x)))
          xs
  = (map line (filter f xs), Ok (filter (fun x => negb (f x)) xs)).
Proof.
  induction xs as [|x xs IH]; [reflexivity|].
  cbn [filterM filter]. rewrite IH.
  destruct (f x); simpl; now rewrite app_nil_r.
Qed.

Lemma filterM_Ok {A} (keep : A -> M bool) (xs ys : list A)
    (log : list string) :
  filterM keep xs = (log, Ok ys) ->
  (forall x, In x xs -> exists l b, keep x = (l, Ok b))
  /\ ys = filter (fun x => match snd (keep x) with
                           | Ok b => b
                           | Throw _ => false
                           end) xs.
Proof.
  revert ys log. induction xs as [|x xs IH]; intros ys log H.
  - inversion H; subst. split; [intros x []|reflexivity].
  - cbn [filterM] in H. apply bind_Ok in H.
    destruct H as (l1 & b & l2 & Hx & H & _).
    apply bind_Ok in H. destruct H as (l3 & rest & l4 & Hrest & H & _).
    inversion H; subst. destruct (IH _ _ Hrest) as [Hall ->]. split.
    + intros y [<-|Hy]; eauto.
    + cbn [filter]. rewrite Hx. reflexivity.
Qed.

Lemma filterM_all_true {A} (keep : A -> M bool) (ys : list A) :
  (forall y, In y ys -> exists l, keep y = (l, Ok true)) ->
  exists log, filterM keep ys = (log, Ok ys).
Proof.
  induction ys as [|y ys IH]; intros H.
  - exists []. reflexivity.
  - destruct (H y (or_introl eq_refl)) as [l Hy].
    destruct IH as [log Hrest]; [intros z Hz; apply H; now right|].
    cbn [filterM]. rewrite Hy, Hrest. cbn [bind ret]. eexists. reflexivity.
Qed.

Lemma has_document_Ok (toLowerCase : string -> string) (E : Env)
    (url : string) (l : list string) (path : option string) :
  resolveDocumentPath toLowerCase E url = (l, Ok path) ->
  has_document toLowerCase E url = found path.
Proof. unfold has_document. now intros ->. Qed.

(** ** Decoding *)

Lemma decodePair_log (E : Env) (r : row) : fst (decodePair E r) = [].
Proof.
  destruct r as [from to]. unfold decodePair, lift.
  destruct (decodePath E from) as [fd|msg]; [|reflexivity].
  destruct to as [to|]; [|reflexivity].
  destruct (startsWith to "/");
    [destruct (decodePath E to) | destruct (decodeURI E to)]; reflexivity.
Qed.

Lemma decodePair_undefined (E : Env) (from : string) (log : list string)
    (d : pair) :
  decodePair E (from, None) <> (log, Ok d).
Proof.
  unfold decodePair, lift.
  destruct (decodePath E from); discriminate.
Qed.

(** ** The table files and the cache *)

Lemma redirectFilePathForLocale_relaxed (toLowerCase : string -> string)
    (E : Env) (locale : string) :
  redirectFilePathForLocale toLowerCase E locale false
  = ([], Ok (redirect_file toLowerCase E locale)).
Proof.
  unfold redirect_file, redirectFilePathForLocale.
  destruct (existsSync E _); [reflexivity|].
  destruct (CONTENT_TRANSLATED_ROOT E) as [root|]; [|reflexivity].
  destruct (truthy root); [|reflexivity].
  destruct (existsSync E _); reflexivity.
Qed.

Lemma mapM_pure {A B} (f : A -> M B) (g : A -> B) (xs : list A) :
  (forall x, f x = ([], Ok (g x))) -> mapM f xs = ([], Ok (map g xs)).
Proof.
  intros H. induction xs as [|x xs IH]; [reflexivity|].
  cbn [mapM map]. now rewrite H, IH.
Qed.

Lemma flat_map_map {A B C} (f : B -> list C) (g : A -> B) (xs : list A) :
  flat_map f (map g xs) = flat_map (fun x => f (g x)) xs.
Proof. induction xs as [|x xs IH]; simpl; congruence. Qed.

Lemma store_pairs_app (toLowerCase : string -> string)
    (ps qs : list pair) (m : JsMap) :
  store_pairs toLowerCase (ps ++ qs) m
  = store_pairs toLowerCase qs (store_pairs toLowerCase ps m).
Proof. unfold store_pairs. apply fold_left_app. Qed.

Lemma map_get_store_pairs (toLowerCase : string -> string)
    (ps : list pair) (m : JsMap) (k : string) :
  map_get (store_pairs toLowerCase ps m) k
  = match last_value (map (fun p => (toLowerCase (fst p), snd p)) ps) k with
    | Some v => Some v
    | None => map_get m k
    end.
Proof.
  rewrite <- map_get_fold. unfold store_pairs. f_equal.
  revert m. induction ps as [|p ps IH]; intros m; [reflexivity|].
  cbn [map fold_left fst snd]. apply IH.
Qed.

Lemma sforEach_set (toLowerCase : string -> string) (pairs : list pair)
    (redirects : JsMap) :
  Cache.sforEach (fun p : pair =>
                    let '(from, to) := p in
                    Cache.redirects_set (toLowerCase from) to)
                 pairs redirects
  = (store_pairs toLowerCase pairs redirects, ([], Ok tt)).
Proof.
  revert redirects. induction pairs as [|[from to] ps IH]; intros m.
  - reflexivity.
  - cbn [Cache.sforEach]. unfold Cache.sbind at 1.
    unfold Cache.redirects_set at 1. cbn [ret]. rewrite IH. reflexivity.
Qed.

Lemma sbind_unfold {A B} (m : Cache.SM A) (f : A -> Cache.SM B)
    (redirects : JsMap) :
  Cache.sbind m f redirects
  = match m redirects with
    | (redirects1, (l1, Ok a)) =>
        let '(redirects2, (l2, r)) := f a redirects1 in
        (redirects2, (l1 ++ l2, r))
    | (redirects1, (l1, Throw e)) => (redirects1, (l1, Throw e))
    end.
Proof. reflexivity. Qed.

Lemma load_file_eval (toLowerCase : string -> string) (v : M unit)
    (m : M (list pair)) (redirects : JsMap) :
  Cache.sbind (Cache.run v)
    (fun _ =>
       Cache.sbind (Cache.run m)
         (fun pairs =>
            Cache.sforEach (fun p : pair =>
                              let '(from, to) := p in
                              Cache.redirects_set (toLowerCase from) to)
                           pairs))
    redirects
  = match v, m with
    | (lv, Ok _), (l, Ok pairs) =>
        (store_pairs toLowerCase pairs redirects, (lv ++ l ++ [], Ok tt))
    | (lv, Ok _), (l, Throw e) => (redirects, (lv ++ l, Throw e))
    | (lv, Throw e), _ => (redirects, (lv, Throw e))
    end.
Proof.
  unfold Cache.sbind, Cache.run.
  destruct v as [lv [[]|e]]; destruct m as [l [ps|e']];
    rewrite ?sforEach_set; reflexivity.
Qed.

Lemma load_files_outcome (toLowerCase : string -> string) (E : Env)
    (verbose : bool) (files : list string) (redirects redirects' : JsMap)
    (log : list string) (r : result unit) :
  Cache.sforEach
    (fun redirectsFilePath =>
       Cache.sbind
         (Cache.run (if verbose then
                       console_log ("Checking " ++ redirectsFilePath)%string
                     else ret tt))
         (fun _ =>
            Cache.sbind
              (Cache.run (loadPairsFromFile toLowerCase E
                                            redirectsFilePath false))
              (fun pairs =>
                 Cache.sforEach (fun p : pair =>
                                   let '(from, to) := p in
                                   Cache.redirects_set (toLowerCase from) to)
                                pairs)))
    files redirects
  = (redirects', (log, r)) ->
  exists done rest tables,
    files = done ++ rest
    /\ Forall2 (loads toLowerCase E) done tables
    /\ redirects' = store_pairs toLowerCase (List.concat tables) redirects
    /\ match r with
       | Ok _ => rest = []
       | Throw msg =>
           exists f rest' l,
             rest = f :: rest'
             /\ loadPairsFromFile toLowerCase E f false = (l, Throw msg)
       end.
Proof.
  revert redirects log. induction files as [|f files IH]; intros s log H.
  - inversion H; subst. exists [], [], []. repeat split; constructor.
  - cbn [Cache.sforEach] in H. rewrite sbind_unfold, load_file_eval in H.
    assert (Hv : exists lv,
               (if verbose then console_log ("Checking " ++ f)%string
                else ret tt) = (lv, Ok tt))
      by (destruct verbose; eexists; reflexivity).
    destruct Hv as [lv Hv]. rewrite Hv in H.
    destruct (loadPairsFromFile toLowerCase E f false) as [l [ps|e]] eqn:Hf.
    + match type of H with
      | context [Cache.sforEach ?b files ?s1] =>
          destruct (Cache.sforEach b files s1) as [s2 [l2 r2]] eqn:Hrest
      end.
      inversion H; subst.
      destruct (IH _ _ Hrest) as (done & rest & tables & -> & Hall & -> & Hr).
      exists (f :: done), rest, (ps :: tables). repeat split; auto.
      * constructor; auto. exists l. exact Hf.
      * cbn [List.concat]. now rewrite store_pairs_app.
    + inversion H; subst. exists [], (f :: files), [].
      repeat split; [constructor|]. exists f, files, l. auto.
Qed.

Lemma load_outcome (toLowerCase : string -> string) (E : Env)
    (locales : list string) (verbose : bool) (redirects redirects' : JsMap)
    (log : list string) (r : result unit) :
  Cache.load toLowerCase E locales verbose redirects = (redirects', (log, r)) ->
  exists done rest tables,
    table_files toLowerCase E locales = done ++ rest
    /\ Forall2 (loads toLowerCase E) done tables
    /\ redirects' = store_pairs toLowerCase (List.concat tables) redirects
    /\ match r with
       | Ok _ => rest = []
       | Throw msg =>
           exists f rest' l,
             rest = f :: rest'
             /\ loadPairsFromFile toLowerCase E f false = (l, Throw msg)
       end.
Proof.
  unfold Cache.load. rewrite sbind_unfold. unfold Cache.run at 1.
  rewrite (mapM_pure _ (redirect_file toLowerCase E))
    by apply redirectFilePathForLocale_relaxed.
  rewrite flat_map_map. fold (table_files toLowerCase E locales).
  match goal with
  | |- context [Cache.sforEach ?b ?fs redirects] =>
      destruct (Cache.sforEach b fs redirects) as [s2 [l2 r2]] eqn:Hrun
  end.
  intros H. inversion H; subst. eapply load_files_outcome. exact Hrun.
Qed.

Lemma Forall2_In_r {A B} (R : A -> B -> Prop) (xs : list A) (ys : list B)
    (y : B) :
  Forall2 R xs ys -> In y ys -> exists x, In x xs /\ R x y.
Proof.
  induction 1 as [|x y' xs ys Hxy Hall IH]; intros Hy; [destruct Hy|].
  destruct Hy as [<-|Hy].
  - exists x. split; [now left | exact Hxy].
  - destruct (IH Hy) as (x' & Hx' & Hr). exists x'. split; [now right|exact Hr].
Qed.

Lemma loads_targets (toLowerCase : string -> string) (E : Env)
    (file : string) (pairs : list pair) (p : pair) :
  loads toLowerCase E file pairs -> In p pairs -> snd p <> "".
Proof.
  intros [l H] Hp. apply loadPairsFromFile_Ok in H.
  destruct H as (content & l' & _ & -> & Hv).
  pose proof (validatePairs_typed _ _ _ _ Hv) as Hrows.
  rewrite <- Hrows in Hv.
  destruct (validatePairs_Ok _ _ _ _ p Hv Hp) as [_ [l2 Hto]].
  eapply validateToURL_nonempty; eauto.
Qed.

Lemma store_values (toLowerCase : string -> string) (ps : list pair)
    (m : JsMap) :
  (forall k v, map_get m k = Some v -> v <> "") ->
  (forall p, In p ps -> snd p <> "") ->
  forall k v, map_get (store_pairs toLowerCase ps m) k = Some v -> v <> "".
Proof.
  intros Hm Hps k v. rewrite map_get_store_pairs.
  destruct (last_value _ k) as [v'|] eqn:El; [|apply Hm].
  intros Hv. inversion Hv; subst. apply last_value_In in El.
  apply in_map_iff in El. destruct El as (p & Ep & Hp).
  inversion Ep; subst. now apply Hps.
Qed.

Lemma load_values (toLowerCase : string -> string) (E : Env)
    (locales : list string) (verbose : bool) (redirects redirects' : JsMap)
    (out : M unit) :
  Cache.load toLowerCase E locales verbose redirects = (redirects', out) ->
  (forall k v, map_get redirects k = Some v -> v <> "") ->
  forall k v, map_get redirects' k = Some v -> v <> "".
Proof.
  destruct out as [log r]. intros H Hm. apply load_outcome in H.
  destruct H as (done & rest & tables & _ & Hall & -> & _).
  apply store_values; auto.
  intros p Hp. apply in_concat in Hp. destruct Hp as (ps & Hps & Hp).
  destruct (@Forall2_In_r _ _ _ _ _ ps Hall Hps) as (f & _ & Hf).
  eapply loads_targets; eauto.
Qed.

Lemma resolve_lookup (toLowerCase : string -> string) (E : Env)
    (resolveFundamental : string -> option string) (url : string)
    (redirects : JsMap) :
  redirects <> [] ->
  (forall k v, map_get redirects k = Some v -> v <> "") ->
  Cache.resolve toLowerCase E resolveFundamental url redirects
  = (redirects,
     ([], lookup toLowerCase E resolveFundamental redirects url)).
Proof.
  intros Hne Hval. unfold Cache.resolve, lookup.
  fold (fundamentalOrUrl resolveFundamental url).
  unfold Cache.sbind, Cache.redirects_size, Cache.sret, Cache.run,
    Cache.redirects_get, lift. cbn [ret].
  destruct redirects as [|e m]; [congruence|]. cbn [List.length Nat.eqb].
  destruct (decodePath E (fundamentalOrUrl resolveFundamental url))
    as [d|msg]; [|reflexivity].
  destruct (map_get (e :: m) (toLowerCase d)) as [to|] eqn:Eg; [|reflexivity].
  rewrite (truthy_true (Hval _ _ Eg)). reflexivity.
Qed.

(** ** Orphaned redirects *)

Lemma removeOrphaned_keep (toLowerCase : string -> string) (E : Env)
    (p : pair) (l : list string) (b : bool) :
  (let '(from, to) := p in
   fromPath <- resolveDocumentPath toLowerCase E from ;;
   if found fromPath then
     console_log ("removing orphaned redirect (from exists): " ++ from
                  ++ String TAB "" ++ to)%string ;;
     ret false
   else if startsWith to "/" then
     toPath <- resolveDocumentPath toLowerCase E to ;;
     if negb (found toPath) then
       console_log ("removing orphaned redirect (to doesn't exists): "
                    ++ from ++ String TAB "" ++ to)%string ;;
       ret false
     else ret true
   else ret true) = (l, Ok b) ->
  b = negb (orphaned toLowerCase E p).
Proof.
  destruct p as [from to]. intros Hp. unfold orphaned.
  cbn [fst snd]. apply bind_Ok in Hp.
  destruct Hp as (l1 & fromPath & l2 & Hfrom & Hp & _).
  rewrite (has_document_Ok _ _ _ Hfrom).
  destruct (found fromPath).
  - apply bind_Ok in Hp. destruct Hp as (l3 & [] & l4 & _ & Hp & _).
    inversion Hp. reflexivity.
  - cbn [orb]. destruct (startsWith to "/").
    + apply bind_Ok in Hp. destruct Hp as (l3 & toPath & l4 & Hto & Hp & _).
      rewrite (has_document_Ok _ _ _ Hto).
      destruct (found toPath); cbn [negb] in Hp.
      * inversion Hp. reflexivity.
      * apply bind_Ok in Hp. destruct Hp as (l5 & [] & l6 & _ & Hp & _).
        inversion Hp. reflexivity.
    + inversion Hp. reflexivity.
Qed.

Lemma removeOrphaned_filter (toLowerCase : string -> string) (E : Env)
    (pairs kept : list pair) (log : list string) :
  removeOrphanedRedirects toLowerCase E pairs = (log, Ok kept) ->
  kept = filter (fun p => negb (orphaned toLowerCase E p)) pairs.
Proof.
  intros H. unfold removeOrphanedRedirects in H.
  apply filterM_Ok in H. destruct H as [Hall ->].
  apply filter_ext_in. intros p Hp. destruct (Hall p Hp) as (l & b & Hb).
  rewrite Hb. cbn [snd]. eapply removeOrphaned_keep. exact Hb.
Qed.

(** ** What [loadLocaleAndAdd] returns *)

Lemma always_self {A} (m : M A) :
  always (fun a => exists log, m = (log, Ok a)) m.
Proof. intros log a H. eauto. Qed.

Lemma read_alloc (h : store) (xs : list pair) :
  read (h ++ [xs]) (List.length h) = xs.
Proof. unfold read. rewrite app_nth2, Nat.sub_diag; [reflexivity | lia]. Qed.






(** ** The arrays of [loadLocaleAndAdd] *)

Lemma bind_unfold_Ok {A B} (l : list string) (a : A) (k : A -> M B) :
  bind (l, Ok a) k = (let '(l2, r) := k a in (l ++ l2, r)).
Proof. reflexivity. Qed.

Lemma read_write (h : store) (r : ref) (xs : list pair) :
  r < List.length h -> read (write h r xs) r = xs.
Proof.
  unfold read. revert r. induction h as [|ys h IH]; intros r Hr.
  - simpl in Hr. lia.
  - destruct r as [|r]; [reflexivity|]. cbn [write nth]. apply IH.
    simpl in Hr. lia.
Qed.

Lemma read_push (h : store) (r : ref) (xs : list pair) :
  r < List.length h -> read (push h r xs) r = read h r ++ xs.
Proof. intros Hr. unfold push. now apply read_write. Qed.

Lemma read_alloc_old (h : store) (r : ref) (xs : list pair) :
  r < List.length h -> read (h ++ [xs]) r = read h r.
Proof. intros Hr. unfold read. now apply app_nth1. Qed.

Lemma loadLocaleAndAdd_pipeline_always (toLowerCase : string -> string)
    (E : Env) (locale : string) (updatePairs : list pair) (fix_ : bool) :
  always (fun r =>
            exists stored l flat,
              (if existsSync E (path_join E [loaded_root r; toLowerCase locale;
                                             "_redirects.txt"])
               then exists l',
                      loadPairsFromFile toLowerCase E
                        (path_join E [loaded_root r; toLowerCase locale;
                                      "_redirects.txt"])
                        (negb fix_)
                      = (l', Ok stored)
               else stored = [])
              /\ shortCuts toLowerCase
                   (filter (fun old =>
                              negb (conflicting toLowerCase updatePairs old))
                           stored ++ updatePairs)
                   false
                 = (l, Ok flat)
              /\ loaded_pairs r
                 = if fix_ then
                     filter (fun p => negb (orphaned toLowerCase E p)) flat
                   else flat)
         (loadLocaleAndAdd toLowerCase E locale updatePairs fix_).
Proof.
  unfold loadLocaleAndAdd.
  apply always_bind with (Q := fun _ => True); [apply always_any|]. intros _ _.
  apply always_bind with (Q := fun _ => True); [apply always_any|]. intros _ _.
  apply always_bind with (Q := fun _ => True); [apply always_any|]. intros _ _.
  apply always_bind with (Q := fun _ => True); [apply always_any|].
  intros root _. cbn [alloc List.length app].
  set (path := path_join E [root; toLowerCase locale; "_redirects.txt"]).
  apply always_bind
    with (Q := fun h : store =>
                 exists stored,
                   h = [stored]
                   /\ if existsSync E path
                      then exists l',
                             loadPairsFromFile toLowerCase E path (negb fix_)
                             = (l', Ok stored)
                      else stored = []).
  { destruct (existsSync E path).
    - eapply always_bind; [apply always_self|]. intros stored Hstored.
      apply always_ret. exists stored. split; [reflexivity | exact Hstored].
    - apply always_ret. exists []. split; reflexivity. }
  intros h (stored & -> & Hstored).
  apply always_bind
    with (Q := fun hc : store * ref =>
                 snd hc < List.length (fst hc)
                 /\ read (fst hc) (snd hc)
                    = filter (fun old =>
                                negb (conflicting toLowerCase updatePairs old))
                             stored).
  { unfold removeConflictingOldRedirects_in.
    change (read [stored] 0) with stored.
    pose proof (removeConflicting_filter toLowerCase stored updatePairs) as Hf.
    destruct (removeConflictingOldRedirects toLowerCase stored updatePairs)
      as [lc rc]. cbn [snd] in Hf. subst rc. rewrite bind_unfold_Ok.
    intros log hc Hhc.
    destruct stored as [|p0 stored]; cbn [List.length Nat.eqb] in Hhc;
      inversion Hhc; subst; cbn [fst snd alloc List.length app].
    - split; [lia | reflexivity].
    - split; [lia|]. apply (read_alloc [p0 :: stored]). }
  intros [h1 cleanPairs] [Hlt Hclean]. cbn [fst snd] in Hlt, Hclean.
  rewrite (read_push _ _ Hlt), Hclean.
  eapply always_bind; [apply always_self|]. intros flat [l Hflat].
  cbn [alloc].
  apply always_bind
    with (Q := fun hs : store * ref =>
                 read (fst hs) (snd hs)
                 = if fix_ then
                     filter (fun p => negb (orphaned toLowerCase E p)) flat
                   else flat).
  { destruct fix_.
    - rewrite read_alloc.
      apply always_bind
        with (Q := fun kept =>
                     kept = filter (fun p => negb (orphaned toLowerCase E p))
                                   flat).
      + intros log kept H. eapply removeOrphaned_filter. exact H.
      + intros kept ->. apply always_ret. cbn [alloc fst snd].
        apply read_alloc.
    - apply always_ret. cbn [fst snd]. apply read_alloc. }
  intros [h2 simplifiedPairs] Hs. cbn [fst snd] in Hs.
  apply always_bind with (Q := fun _ => True); [apply always_any|]. intros _ _.
  apply always_ret. cbn [loaded_pairs loaded_root]. fold path.
  exists stored, l, flat. auto.
Qed.

(** ** Loading again *)

Lemma map_ext (m1 m2 : JsMap) :
  NoDup (keys m1) -> keys m1 = keys m2 ->
  (forall k, map_get m1 k = map_get m2 k) -> m1 = m2.
Proof.
  revert m2. induction m1 as [|[k v] m1 IH]; intros [|[k2 v2] m2] Hnd Hk Hget;
    try discriminate; [reflexivity|].
  cbn [keys map fst] in Hk. inversion Hk as [[Ek Hk']]. subst k2.
  inversion Hnd as [|? ? Hnk Hnd']; subst.
  pose proof (Hget k) as Hv. cbn [map_get] in Hv.
  rewrite String.eqb_refl in Hv. inversion Hv; subst v2. f_equal.
  apply IH; auto. intros k0. specialize (Hget k0). cbn [map_get] in Hget.
  destruct (String.eqb k k0) eqn:Ek; [|exact Hget].
  apply String.eqb_eq in Ek. subst k0.
  assert (H1 : map_get m1 k = None) by now apply map_get_None.
  assert (H2 : map_get m2 k = None).
  { apply map_get_None. unfold keys in *. now rewrite <- Hk'. }
  congruence.
Qed.

Lemma NoDup_keys_store_pairs (toLowerCase : string -> string)
    (ps : list pair) (m : JsMap) :
  NoDup (keys m) -> NoDup (keys (store_pairs toLowerCase ps m)).
Proof.
  unfold store_pairs. revert m. induction ps as [|p ps IH]; simpl; auto.
  intros m Hnd. apply IH. now apply NoDup_keys_map_set.
Qed.

Lemma keys_store_pairs_present (toLowerCase : string -> string)
    (ps : list pair) (m : JsMap) :
  (forall p, In p ps -> In (toLowerCase (fst p)) (keys m)) ->
  keys (store_pairs toLowerCase ps m) = keys m.
Proof.
  unfold store_pairs. revert m.
  induction ps as [|p ps IH]; intros m H; [reflexivity|].
  cbn [fold_left].
  assert (Hk : keys (map_set m (toLowerCase (fst p)) (snd p)) = keys m).
  { rewrite keys_map_set.
    destruct (map_get m (toLowerCase (fst p))) eqn:Eg; [reflexivity|].
    apply map_get_None in Eg. exfalso. apply Eg. apply H. now left. }
  rewrite IH; [exact Hk|].
  intros q Hq. rewrite Hk. apply H. now right.
Qed.

Lemma store_pairs_key (toLowerCase : string -> string) (ps : list pair)
    (m : JsMap) (p : pair) :
  In p ps -> In (toLowerCase (fst p)) (keys (store_pairs toLowerCase ps m)).
Proof.
  intros Hp.
  destruct (map_get (store_pairs toLowerCase ps m) (toLowerCase (fst p)))
    as [v|] eqn:Eg.
  - eapply map_get_key; eauto.
  - exfalso. rewrite map_get_store_pairs in Eg.
    destruct (last_value _ (toLowerCase (fst p))) as [v|] eqn:El;
      [discriminate|].
    apply last_value_None in El. apply El. rewrite map_map. cbn [fst].
    apply in_map_iff. exists p. auto.
Qed.

Lemma store_pairs_twice (toLowerCase : string -> string) (ps : list pair)
    (m : JsMap) :
  NoDup (keys m) ->
  store_pairs toLowerCase ps (store_pairs toLowerCase ps m)
  = store_pairs toLowerCase ps m.
Proof.
  intros Hnd. apply map_ext.
  - now apply NoDup_keys_store_pairs, NoDup_keys_store_pairs.
  - apply keys_store_pairs_present. intros p Hp. now apply store_pairs_key.
  - intros k. rewrite !map_get_store_pairs.
    now destruct (last_value _ k).
Qed.

Lemma load_files_uniform (toLowerCase : string -> string) (E : Env)
    (verbose : bool) (files : list string) :
  exists (table : list pair) (out : M unit),
    forall redirects,
      Cache.sforEach
        (fun redirectsFilePath =>
           Cache.sbind
             (Cache.run (if verbose then
                           console_log ("Checking " ++ redirectsFilePath)%string
                         else ret tt))
             (fun _ =>
                Cache.sbind
                  (Cache.run (loadPairsFromFile toLowerCase E
                                                redirectsFilePath false))
                  (fun pairs =>
                     Cache.sforEach
                       (fun p : pair =>
                          let '(from, to) := p in
                          Cache.redirects_set (toLowerCase from) to)
                       pairs)))
        files redirects
      = (store_pairs toLowerCase table redirects, out).
Proof.
  induction files as [|f files IH].
  - exists [], ([], Ok tt). reflexivity.
  - destruct IH as (table & [log r] & IH).
    assert (Hv : exists lv,
               (if verbose then console_log ("Checking " ++ f)%string
                else ret tt) = (lv, Ok tt))
      by (destruct verbose; eexists; reflexivity).
    destruct Hv as [lv Hv].
    destruct (loadPairsFromFile toLowerCase E f false) as [l [ps|e]] eqn:Hf.
    + exists (ps ++ table), ((lv ++ l ++ []) ++ log, r). intros s.
      cbn [Cache.sforEach]. rewrite sbind_unfold, load_file_eval, Hv, Hf, IH.
      now rewrite store_pairs_app.
    + exists [], (lv ++ l, Throw e). intros s.
      cbn [Cache.sforEach]. rewrite sbind_unfold, load_file_eval, Hv, Hf.
      reflexivity.
Qed.

Lemma load_uniform (toLowerCase : string -> string) (E : Env)
    (locales : list string) (verbose : bool) :
  exists (table : list pair) (out : M unit),
    forall redirects,
      Cache.load toLowerCase E locales verbose redirects
      = (store_pairs toLowerCase table redirects, out).
Proof.
  destruct (load_files_uniform toLowerCase E verbose
              (table_files toLowerCase E locales)) as (table & [log r] & H).
  exists table, (log, r). intros s.
  unfold Cache.load. rewrite sbind_unfold. unfold Cache.run at 1.
  rewrite (mapM_pure _ (redirect_file toLowerCase E))
    by apply redirectFilePathForLocale_relaxed.
  rewrite flat_map_map. fold (table_files toLowerCase E locales).
  now rewrite H.
Qed.

(** ** Trimming adds no character *)

Lemma has_char_trimStart (c : ascii) (s : string) :
  has_char c s = false -> has_char c (trimStart s) = false.
Proof.
  assert (H : forall n s, String.length s <= n ->
                          has_char c s = false ->
                          has_char c (trimStart s) = false).
  { induction n as [|n IH]; intros [|c1 s1] Hn Hs; try reflexivity;
      [simpl in Hn; lia|].
    cbn [trimStart]. cbn [has_char] in Hs. apply orb_false_iff in Hs.
    destruct Hs as [H1 Hs1]. simpl in Hn.
    destruct (ws1 c1); [apply IH; [lia | exact Hs1]|].
    destruct s1 as [|c2 s2]; [cbn [has_char]; now rewrite H1|].
    cbn [has_char] in Hs1. apply orb_false_iff in Hs1.
    destruct Hs1 as [H2 Hs2]. simpl in Hn.
    destruct (ws2 c1 c2); [apply IH; [lia | exact Hs2]|].
    destruct s2 as [|c3 s3]; [cbn [has_char]; now rewrite H1, H2|].
    cbn [has_char] in Hs2. apply orb_false_iff in Hs2.
    destruct Hs2 as [H3 Hs3]. simpl in Hn.
    destruct (ws3 c1 c2 c3); [apply IH; [lia | exact Hs3]|].
    cbn [has_char]. now rewrite H1, H2, H3, Hs3. }
  apply (H (String.length s)). lia.
Qed.

Lemma has_char_trimStart_rev (c : ascii) (s : string) :
  has_char c s = false -> has_char c (trimStart_rev s) = false.
Proof.
  assert (H : forall n s, String.length s <= n ->
                          has_char c s = false ->
                          has_char c (trimStart_rev s) = false).
  { induction n as [|n IH]; intros [|c1 s1] Hn Hs; try reflexivity;
      [simpl in Hn; lia|].
    cbn [trimStart_rev]. cbn [has_char] in Hs. apply orb_false_iff in Hs.
    destruct Hs as [H1 Hs1]. simpl in Hn.
    destruct (ws1 c1); [apply IH; [lia | exact Hs1]|].
    destruct s1 as [|c2 s2]; [cbn [has_char]; now rewrite H1|].
    cbn [has_char] in Hs1. apply orb_false_iff in Hs1.
    destruct Hs1 as [H2 Hs2]. simpl in Hn.
    destruct (ws2 c2 c1); [apply IH; [lia | exact Hs2]|].
    destruct s2 as [|c3 s3]; [cbn [has_char]; now rewrite H1, H2|].
    cbn [has_char] in Hs2. apply orb_false_iff in Hs2.
    destruct Hs2 as [H3 Hs3]. simpl in Hn.
    destruct (ws3 c3 c2 c1); [apply IH; [lia | exact Hs3]|].
    cbn [has_char]. now rewrite H1, H2, H3, Hs3. }
  apply (H (String.length s)). lia.
Qed.

Lemma has_char_rev (c : ascii) (s : string) :
  has_char c (string_rev s) = has_char c s.
Proof.
  induction s as [|a s IH]; [reflexivity|].
  rewrite string_rev_cons, has_char_app, IH. cbn [has_char].
  now rewrite orb_false_r, orb_comm.
Qed.

(** * The statements *)



(** C2.  [shortCuts] is idempotent.  Whatever the input pairs and the mode,
    when [shortCuts] returns a list of pairs, running it on that list, in
    either mode, logs nothing and returns the very same list: the same pairs
    in the same order and casing. *)
Theorem shortCuts_idempotent :
  forall (toLowerCase : string -> string) (pairs : list pair) (throws : bool)
         (log : list string) (out : list pair),
    shortCuts toLowerCase pairs throws = (log, Ok out) ->
    forall throws', shortCuts toLowerCase out throws' = ([], Ok out).
Proof.
  intros lower pairs throws log out Hrun throws'.
  apply shortCuts_Ok in Hrun. subst out. apply shortCuts_again.
Qed.

Lemma shortCuts_idempotent_witness :
  shortCuts ascii_toLowerCase window_document false
  = ([], Ok [("/en-US/docs/Web/API/window.document",
              "/en-US/docs/Web/API/Window/document");
             ("/en-US/docs/window.document",
              "/en-US/docs/Web/API/Window/document")])
  /\ shortCuts ascii_toLowerCase
       [("/en-US/docs/Web/API/window.document",
         "/en-US/docs/Web/API/Window/document");
        ("/en-US/docs/window.document",
         "/en-US/docs/Web/API/Window/document")] true
     = ([], Ok [("/en-US/docs/Web/API/window.document",
                 "/en-US/docs/Web/API/Window/document");
                ("/en-US/docs/window.document",
                 "/en-US/docs/Web/API/Window/document")]).
Proof.
  split; [reflexivity|].
  exact (shortCuts_idempotent ascii_toLowerCase window_document false
                              eq_refl true).
Defined.

(** C3.  Acyclicity of the flattened output.  Whatever the input pairs and
    the mode, when [shortCuts] returns, no target of an output pair is,
    after lowercasing, the lowercased source of an output pair; hence in the
    graph of the output a walk takes at most one step, and no walk returns to
    its start. *)
Theorem shortCuts_acyclic :
  forall (toLowerCase : string -> string) (pairs : list pair) (throws : bool)
         (log : list string) (out : list pair),
    shortCuts toLowerCase pairs throws = (log, Ok out) ->
    (forall e1 e2, In e1 out -> In e2 out ->
                   toLowerCase (snd e1) <> toLowerCase (fst e2))
    /\ (forall a b l,
          steps (new_Map (lowerCasePairs toLowerCase out)) a l b ->
          List.length l <= 1)
    /\ (forall a l, ~ steps (new_Map (lowerCasePairs toLowerCase out)) a (a :: l) a).
Proof.
  intros lower pairs throws log out Hrun.
  apply shortCuts_Ok in Hrun.
  assert (H1 : forall e1 e2, In e1 out -> In e2 out ->
                             lower (snd e1) <> lower (fst e2)).
  { intros e1 e2 He1 He2. subst out.
    apply In_sorted_output in He1, He2.
    destruct He1 as (u1 & t1 & Hm1 & ->), He2 as (u2 & t2 & Hm2 & ->).
    apply recorded_edge in Hm1, Hm2.
    destruct Hm1 as (_ & Hend & _ & _ & Ht1), Hm2 as (Hsrc & _ & _ & Hu2 & _).
    simpl. rewrite Ht1, Hu2. congruence. }
  assert (Hedge : forall a a',
             dg_next (new_Map (lowerCasePairs lower out)) a = Some a' ->
             exists e, In e out /\ lower (fst e) = a /\ lower (snd e) = a').
  { intros a a' H. apply dg_next_value in H. rewrite map_get_new_Map in H.
    apply last_value_In in H. apply in_map_iff in H.
    destruct H as (e & E & He). inversion E. eauto. }
  assert (H2 : forall a b l,
             steps (new_Map (lowerCasePairs lower out)) a l b ->
             List.length l <= 1).
  { intros a b l Hs. destruct Hs as [a|a a' l b Ha Hs]; simpl; [lia|].
    destruct Hs as [a'|a' a'' l b Ha' Hs]; simpl; [lia|].
    exfalso. destruct (Hedge _ _ Ha) as (e1 & He1 & _ & E1).
    destruct (Hedge _ _ Ha') as (e2 & He2 & E2 & _).
    apply (H1 e1 e2 He1 He2). congruence. }
  split; [exact H1 | split; [exact H2|]].
  intros a l Hs. inversion Hs as [|? a' ? ? Ha Hs']; subst.
  destruct (Hedge _ _ Ha) as (e1 & He1 & Ea & E1).
  pose proof (H2 _ _ _ Hs) as Hlen. destruct l; simpl in Hlen; [|lia].
  inversion Hs'; subst. apply (H1 e1 e1 He1 He1). congruence.
Qed.

Lemma shortCuts_acyclic_witness :
  shortCuts ascii_toLowerCase A_B_C false
  = ([], Ok [("/en-US/docs/A", "/en-US/docs/C");
             ("/en-US/docs/B", "/en-US/docs/C")])
  /\ ascii_toLowerCase "/en-US/docs/C" <> ascii_toLowerCase "/en-US/docs/B".
Proof.
  split; [reflexivity|].
  apply (proj1 (shortCuts_acyclic ascii_toLowerCase A_B_C false eq_refl)
               ("/en-US/docs/A", "/en-US/docs/C")
               ("/en-US/docs/B", "/en-US/docs/C")); simpl; auto.
Defined.

(** C4, as stated, fails in its middle part: a pair is withheld not only
    for the nodes on the cycle.  In the table X -> A, A -> B, B -> A the
    node X is on no cycle, and no walk from it comes back to it, yet the
    output holds no pair for X; the report of its walk lists X with the
    nodes of the cycle. *)
Lemma lead_in_withheld :
  shortCuts ascii_toLowerCase X_A_B_A false
  = (["redirect cycle [/en-us/docs/x, /en-us/docs/a, /en-us/docs/b] → /en-us/docs/a";
      "redirect cycle [/en-us/docs/a, /en-us/docs/b] → /en-us/docs/a";
      "redirect cycle [/en-us/docs/b, /en-us/docs/a] → /en-us/docs/b"],
     Ok [])
  /\ ~ on_cycle (new_Map (lowerCasePairs ascii_toLowerCase X_A_B_A))
                "/en-us/docs/x".
Proof.
  split; [reflexivity|]. intros [l Hs].
  set (dg := new_Map (lowerCasePairs ascii_toLowerCase X_A_B_A)) in *.
  assert (Hab : forall s l b,
             steps dg s l b ->
             s = "/en-us/docs/a" \/ s = "/en-us/docs/b" ->
             b = "/en-us/docs/a" \/ b = "/en-us/docs/b").
  { induction 1 as [a|a a' l0 b Ha Hl IH]; intros Hin; [exact Hin|].
    apply IH. destruct Hin as [->| ->]; vm_compute in Ha; inversion Ha; auto. }
  inversion Hs as [|? a' ? ? Ha Hl]; subst.
  vm_compute in Ha. inversion Ha; subst a'.
  destruct (Hab _ _ _ Hl (or_introl eq_refl)) as [H|H]; discriminate H.
Qed.



(** C5 does not hold of the code.  The stored table A -> B, B -> C is not
    flattened: loading it for repair and flattening it gives another table.
    Yet [validateLocale] with [strict] returns without an error.  In general
    [validateLocale] never raises its own error: an error it raises is one
    that [loadLocaleAndAdd] raised while loading and validating. *)
Theorem validateLocale_accepts_chain :
  loadPairsFromFile ascii_toLowerCase (docs_env chain_disk)
    "/content/en-us/_redirects.txt" false
  = ([], Ok A_B_C)
  /\ shortCuts ascii_toLowerCase A_B_C false
     = ([], Ok [("/en-US/docs/A", "/en-US/docs/C");
                ("/en-US/docs/B", "/en-US/docs/C")])
  /\ validateLocale ascii_toLowerCase (docs_env chain_disk) "en-US" true
     = ([], Ok tt)
  /\ forall (toLowerCase : string -> string) (E : Env) (locale : string)
            (strict : bool) (log : list string) (msg : string),
      validateLocale toLowerCase E locale strict = (log, Throw msg) ->
      loadLocaleAndAdd toLowerCase E locale [] strict = (log, Throw msg).
Proof.
  split; [vm_compute; reflexivity|].
  split; [vm_compute; reflexivity|].
  split; [vm_compute; reflexivity|].
  intros lower E locale strict log msg. unfold validateLocale.
  pose proof (loadLocaleAndAdd_changed lower E locale [] strict) as Hc.
  destruct (loadLocaleAndAdd lower E locale [] strict) as [l [r|e]] eqn:El;
    simpl.
  - rewrite (Hc l r eq_refl). simpl. discriminate.
  - intros H. inversion H. reflexivity.
Qed.

(** C6, as stated, fails: a table with two pairs of the same lowercased
    source is not rejected in either mode; the later pair replaces the
    earlier one without a word in the log. *)
Lemma duplicate_source_accepted :
  shortCuts ascii_toLowerCase A_B_a_C true
  = ([], Ok [("/en-us/docs/a", "/en-US/docs/C")])
  /\ shortCuts ascii_toLowerCase A_B_a_C false
     = ([], Ok [("/en-us/docs/a", "/en-US/docs/C")]).
Proof. split; reflexivity. Qed.

(** C6, amended.  [shortCuts] has no check on the sources: the graph keeps,
    for a source, the target of the last pair with that lowercased source;
    the run without [throws] always returns, and the only error of the run
    with [throws] is the report of a redirect cycle. *)
Theorem shortCuts_keeps_last_edge :
  forall (toLowerCase : string -> string),
    (forall (pairs1 pairs2 : list pair) (from to : string),
        (forall p, In p pairs2 -> toLowerCase (fst p) <> toLowerCase from) ->
        map_get (new_Map (lowerCasePairs toLowerCase
                            (pairs1 ++ (from, to) :: pairs2)))
                (toLowerCase from)
        = Some (toLowerCase to))
    /\ (forall pairs, exists log out,
           shortCuts toLowerCase pairs false = (log, Ok out))
    /\ (forall pairs log msg,
           shortCuts toLowerCase pairs true = (log, Throw msg) ->
           exists s froms next,
             walk_of (new_Map (lowerCasePairs toLowerCase pairs)) s
             = Looped froms next
             /\ msg = cycle_msg froms next).
Proof.
  intros lower. split; [|split].
  - intros pairs1 pairs2 from to Hlast.
    rewrite map_get_new_Map. unfold lowerCasePairs. rewrite map_app. simpl.
    apply last_value_last. rewrite map_map. simpl.
    intros Hin. apply in_map_iff in Hin. destruct Hin as (p & E & Hp).
    now apply (Hlast p).
  - intros pairs. rewrite shortCuts_relaxed. eauto.
  - intros pairs log msg. rewrite shortCuts_strict.
    destruct (cycle_msgs _ _) as [|m ms] eqn:E; [discriminate|].
    intros H. inversion H; subst.
    destruct (cycle_msgs_inv (new_Map (lowerCasePairs lower pairs))
                (map fst (lowerCasePairs lower pairs)) msg)
      as (s & froms & next & _ & Hw & ->).
    + rewrite E. now left.
    + eauto.
Qed.

Lemma shortCuts_keeps_last_edge_witness :
  map_get (new_Map (lowerCasePairs ascii_toLowerCase A_B_a_C)) "/en-us/docs/a"
  = Some "/en-us/docs/c".
Proof.
  apply (proj1 (shortCuts_keeps_last_edge ascii_toLowerCase)
               [("/en-US/docs/A", "/en-US/docs/B")] []
               "/en-us/docs/a" "/en-US/docs/C").
  intros p [].
Defined.

(** C7, as stated, fails: the URL /en-US/docs/B is first seen with a capital
    B; the casing map has it as written last, with a small b, and so has
    the output. *)
Lemma casing_not_first_seen :
  first_seen ascii_toLowerCase A_B_C_b "/en-us/docs/b" = Some "/en-US/docs/B"
  /\ map_get (new_Map (casing_entries ascii_toLowerCase A_B_C_b)) "/en-us/docs/b"
     <> first_seen ascii_toLowerCase A_B_C_b "/en-us/docs/b"
  /\ shortCuts ascii_toLowerCase A_B_C_b false
     = ([], Ok [("/en-US/docs/A", "/en-US/docs/b");
                ("/en-US/docs/C", "/en-US/docs/b")]).
Proof. repeat split. discriminate. Qed.

(** C7, amended.  The casing map gives a lowercased URL the casing of its
    last occurrence in the list of all sources followed by all targets: of
    its last occurrence as a target if there is one, else of its last
    occurrence as a source.  Both ends of every pair of the output are in
    that casing. *)
Theorem casing_is_last_seen :
  forall (toLowerCase : string -> string) (pairs : list pair),
    let casing := new_Map (casing_entries toLowerCase pairs) in
    let sources := map (fun p => (toLowerCase (fst p), fst p)) pairs in
    let targets := map (fun p => (toLowerCase (snd p), snd p)) pairs in
    (forall k, map_get casing k
               = match last_value targets k with
                 | Some v => Some v
                 | None => last_value sources k
                 end)
    /\ forall throws log out e,
        shortCuts toLowerCase pairs throws = (log, Ok out) -> In e out ->
        map_get casing (toLowerCase (fst e)) = Some (fst e)
        /\ map_get casing (toLowerCase (snd e)) = Some (snd e).
Proof.
  intros lower pairs casing sources targets. split.
  - intros k. unfold casing, casing_entries.
    now rewrite map_get_new_Map, last_value_app.
  - intros throws log out e Hrun He.
    apply shortCuts_Ok in Hrun. subst out.
    pose proof He as He'. apply In_sorted_output in He'.
    destruct He' as (u & t & Hut & ->).
    destruct (@casing_get_present _ _ _ _ Hut) as [Hu Ht].
    destruct (@recorded_edge _ _ _ _ Hut) as (_ & _ & _ & Eu & Et).
    cbn [fst snd]. rewrite Eu, Et. fold casing in Hu, Ht |- *.
    unfold casing_get.
    destruct (map_get casing u); [|congruence].
    destruct (map_get casing t); [|congruence]. auto.
Qed.

Lemma casing_is_last_seen_witness :
  map_get (new_Map (casing_entries ascii_toLowerCase A_B_C_b)) "/en-us/docs/a"
  = Some "/en-US/docs/A"
  /\ map_get (new_Map (casing_entries ascii_toLowerCase A_B_C_b)) "/en-us/docs/b"
     = Some "/en-US/docs/b".
Proof.
  apply (proj2 (casing_is_last_seen ascii_toLowerCase A_B_C_b) false []
               [("/en-US/docs/A", "/en-US/docs/b");
                ("/en-US/docs/C", "/en-US/docs/b")]
               ("/en-US/docs/A", "/en-US/docs/b") eq_refl).
  now left.
Defined.

(** C8, as stated, fails in its last part: with Z -> X in the store, the
    update X -> Y removes nothing, since the source Z is not the target Y
    of the update. *)
Lemma redirect_to_updated_source_kept :
  removeConflictingOldRedirects ascii_toLowerCase
    [("/en-US/docs/Z", "/en-US/docs/X")] [("/en-US/docs/X", "/en-US/docs/Y")]
  = ([], Ok [("/en-US/docs/Z", "/en-US/docs/X")]).
Proof. reflexivity. Qed.

(** C8, amended.  [removeConflictingOldRedirects(old, updates)] returns
    exactly the pairs of [old] whose lowercased source is not the lowercased
    target of any update, in their order; a pair is in the result when it is
    in [old] and its source differs, lowercased, from every target of the
    updates.  In particular the update X -> Y removes Y -> Z from the store,
    with a line in the log. *)
Theorem removeConflictingOldRedirects_spec :
  (forall (toLowerCase : string -> string) (oldPairs updatePairs : list pair),
      exists log,
        removeConflictingOldRedirects toLowerCase oldPairs updatePairs
        = (log, Ok (filter (fun old =>
                              negb (conflicting toLowerCase updatePairs old))
                           oldPairs))
        /\ forall p,
            In p (filter (fun old =>
                            negb (conflicting toLowerCase updatePairs old))
                         oldPairs)
            <-> In p oldPairs
                /\ forall u, In u updatePairs ->
                             toLowerCase (fst p) <> toLowerCase (snd u))
  /\ removeConflictingOldRedirects ascii_toLowerCase
       [("/en-US/docs/Y", "/en-US/docs/Z")]
       [("/en-US/docs/X", "/en-US/docs/Y")]
     = (["removing conflicting redirect /en-US/docs/Y" ++ String TAB ""
         ++ "/en-US/docs/Z"]%string,
        Ok []).
Proof.
  split; [|reflexivity].
  intros lower olds updates.
  pose proof (removeConflicting_filter lower olds updates) as H.
  destruct (removeConflictingOldRedirects lower olds updates) as [log r].
  simpl in H. subst r. exists log. split; auto.
  intros p. rewrite filter_In. unfold conflicting.
  rewrite negb_true_iff, <- not_true_iff_false, existsb_exists.
  split; intros [Hin Hno]; split; auto.
  - intros u Hu E. apply Hno. exists u. split; auto.
    now apply String.eqb_eq.
  - intros (u & Hu & E). apply String.eqb_eq in E. now apply (Hno u).
Qed.

(** C9, as stated, fails: a target may end in a space and still pass
    validation, strict or not, without holding a tab or a newline; the
    loader trims every line, and reads the target back without the space. *)
Lemma trailing_space_not_read_back :
  validatePairs ascii_toLowerCase (docs_env [])
    [("/en-US/docs/A", Some "https://example.com/x ")] true
  = ([], Ok tt)
  /\ includes "https://example.com/x " (String TAB "") = false
  /\ includes "https://example.com/x " (String LF "") = false
  /\ loadPairsFromFile ascii_toLowerCase
       (written (docs_env [])
          (save (docs_env []) "/content/en-us"
             [("/en-US/docs/A", "https://example.com/x ")]))
       "/content/en-us/_redirects.txt" true
     = ([], Ok [("/en-US/docs/A", "https://example.com/x")])
  /\ validatePairs ascii_toLowerCase (docs_env [])
       [("/en-US/docs/A", Some "/en-US/docs/B ")] false
     = ([], Ok tt)
  /\ loadPairsFromFile ascii_toLowerCase
       (written (docs_env [])
          (save (docs_env []) "/content/en-us"
             [("/en-US/docs/A", "/en-US/docs/B ")]))
       "/content/en-us/_redirects.txt" false
     = ([], Ok [("/en-US/docs/A", "/en-US/docs/B")]).
Proof. repeat split; vm_compute; reflexivity. Qed.

(** C9, amended.  A list of pairs that passes the checks of the loader,
    and whose targets hold no tab and no newline and do not end in white
    space, is read back as it was written: the rows of the written text are
    the pairs, and [loadPairsFromFile] on the file, once the stream of
    [save] has written it, returns the same pairs in the same order. *)
Theorem save_then_load :
  forall (toLowerCase : string -> string) (E : Env) (localeFolder : string)
         (pairs : list pair) (strict : bool) (log : list string),
    ((if strict then
        errorOnEncoded (written E (save E localeFolder pairs))
                       (map loose pairs) ;;
        errorOnDuplicated toLowerCase (map loose pairs)
      else ret tt) ;;
     validatePairs toLowerCase (written E (save E localeFolder pairs))
                   (map loose pairs) strict)
    = (log, Ok tt) ->
    (forall p, In p pairs ->
               includes (snd p) (String TAB "") = false
               /\ includes (snd p) (String LF "") = false
               /\ trimEnd (snd p) = snd p) ->
    parse_rows (table_text pairs) = map loose pairs
    /\ loadPairsFromFile toLowerCase (written E (save E localeFolder pairs))
         (path_join E [localeFolder; "_redirects.txt"]) strict
       = (log, Ok pairs).
Proof.
  intros lower E folder pairs strict log Hchecks Htargets.
  assert (Hrows : parse_rows (table_text pairs) = map loose pairs).
  { apply parse_table_text. intros p Hp.
    apply bind_Ok in Hchecks. destruct Hchecks as (l1 & [] & l2 & _ & Hv & _).
    destruct (validatePairs_Ok _ _ _ _ p Hv Hp) as [[lf Hf] [lt Ht]].
    apply validateFromURL_Ok in Hf. destruct Hf as (Hslash & Hlf & Htab & _).
    apply trimStart_slash in Hslash. destruct Hslash as [Hne Htrim].
    apply validateToURL_nonempty in Ht.
    destruct (Htargets p Hp) as (Htt & Htl & Hte).
    rewrite includes_char in Htt, Htl.
    unfold reads_back. tauto. }
  split; [exact Hrows|].
  rewrite (loadPairsFromFile_eq _ _ _ _ (files_save E folder pairs)).
  rewrite Hrows, typed_loose. now apply bind_Ok_ret with (a := tt).
Qed.

Lemma save_then_load_witness :
  loadPairsFromFile ascii_toLowerCase
    (written (docs_env example_disk)
       (save (docs_env example_disk) "/content/en-us"
          [("/en-US/docs/A", "/en-US/docs/C")]))
    "/content/en-us/_redirects.txt" true
  = ([], Ok [("/en-US/docs/A", "/en-US/docs/C")]).
Proof.
  refine (proj2 (save_then_load ascii_toLowerCase (docs_env example_disk)
                                "/content/en-us"
                                [("/en-US/docs/A", "/en-US/docs/C")] true
                                (log := []) eq_refl _)).
  intros p [<-|[]]. repeat split.
Defined.

(** C10, as stated, fails: a target that starts with a slash need not
    resolve to a document that exists.  With no translated root,
    [resolveDocumentPath] answers a placeholder for a URL of another locale
    than en-US without a look at the files, and strict loading accepts the
    target /fr/docs/Nope on a disk that holds the table and nothing else. *)
Lemma strict_accepts_missing_document :
  loadPairsFromFile ascii_toLowerCase (docs_env nope_disk)
                    "/content/en-us/_redirects.txt" true
  = (["Trying to resolve a non-en-us path for /fr/docs/Nope without CONTENT_TRANSLATED_ROOT set."],
     Ok [("/en-US/docs/A", "/fr/docs/Nope")])
  /\ startsWith "/fr/docs/Nope" "/" = true
  /\ isVanityRedirectURL (docs_env nope_disk) "/fr/docs/Nope" = false
  /\ forall p, p <> "/content/en-us/_redirects.txt" ->
               existsSync (docs_env nope_disk) p = false.
Proof.
  split; [reflexivity | split; [reflexivity | split; [reflexivity|]]].
  intros p Hp. unfold existsSync, docs_env, nope_disk. cbn [files map_get].
  destruct (String.eqb_spec "/content/en-us/_redirects.txt" p); congruence.
Qed.



(** * Further statements *)



(** X2.  [errorOnDuplicated] accepts a table exactly when its lowercased
    sources are pairwise distinct, and logs nothing.  Otherwise it throws
    "Duplicated redirect: " with the lowercased source of the first row
    whose source was seen before. *)
Theorem errorOnDuplicated_spec :
  forall (toLowerCase : string -> string) (rows : list row),
    (NoDup (map (fun r => toLowerCase (fst r)) rows)
     -> errorOnDuplicated toLowerCase rows = ([], Ok tt))
    /\ (~ NoDup (map (fun r => toLowerCase (fst r)) rows)
        -> exists rows1 r rows2,
             rows = rows1 ++ r :: rows2
             /\ NoDup (map (fun r => toLowerCase (fst r)) rows1)
             /\ In (toLowerCase (fst r))
                   (map (fun r => toLowerCase (fst r)) rows1)
             /\ errorOnDuplicated toLowerCase rows
                = ([], Throw ("Duplicated redirect: "
                              ++ toLowerCase (fst r))%string)).
Proof.
  intros lower rows. unfold errorOnDuplicated. split.
  - intros Hnd. now rewrite (seen_loop_Ok lower rows []).
  - intros Hdup.
    destruct (@seen_loop_Throw lower rows [] (NoDup_nil _) Hdup)
      as (rows1 & r & rows2 & E & Hin & Hnd & Hrun).
    exists rows1, r, rows2. rewrite Hrun. auto.
Qed.

(** X3.  The sources of the output of [shortCuts] are pairwise distinct
    after lowercasing, so that [errorOnDuplicated] accepts the output. *)
Theorem shortCuts_sources_unique :
  forall (toLowerCase : string -> string) (pairs : list pair) (throws : bool)
         (log : list string) (out : list pair),
    shortCuts toLowerCase pairs throws = (log, Ok out) ->
    NoDup (map (fun e => toLowerCase (fst e)) out)
    /\ errorOnDuplicated toLowerCase (map loose out) = ([], Ok tt).
Proof.
  intros lower pairs throws log out Hrun.
  pose proof (output_sources_NoDup _ _ _ Hrun) as Hnd.
  split; auto. unfold errorOnDuplicated.
  rewrite (seen_loop_Ok lower (map loose out) []); [reflexivity|].
  simpl. rewrite map_map. exact Hnd.
Qed.

Lemma shortCuts_sources_unique_witness :
  shortCuts ascii_toLowerCase A_B_a_C false
  = ([], Ok [("/en-us/docs/a", "/en-US/docs/C")])
  /\ errorOnDuplicated ascii_toLowerCase
       (map loose [("/en-us/docs/a", "/en-US/docs/C")])
     = ([], Ok tt).
Proof.
  split; [reflexivity|].
  exact (proj2 (shortCuts_sources_unique ascii_toLowerCase A_B_a_C false
                                         eq_refl)).
Defined.

(** X4.  [shortCuts] invents nothing.  Every source and every target of the
    output is, letter for letter, a source or a target of the input; the
    source of an output pair is a source of the input up to letter case, its
    target a target of the input up to letter case; and the output has at
    most as many pairs as the input. *)
Theorem shortCuts_invents_nothing :
  forall (toLowerCase : string -> string) (pairs : list pair) (throws : bool)
         (log : list string) (out : list pair),
    shortCuts toLowerCase pairs throws = (log, Ok out) ->
    (forall e, In e out ->
       In (fst e) (map fst pairs ++ map snd pairs)
       /\ In (snd e) (map fst pairs ++ map snd pairs)
       /\ In (toLowerCase (fst e)) (map toLowerCase (map fst pairs))
       /\ In (toLowerCase (snd e)) (map toLowerCase (map snd pairs)))
    /\ List.length out <= List.length pairs.
Proof.
  intros lower pairs throws log out Hrun.
  apply shortCuts_Ok in Hrun. subst out. split.
  - intros e He. apply In_sorted_output in He.
    destruct He as (u & t & Hut & ->). cbn [fst snd].
    destruct (@casing_get_present _ _ _ _ Hut) as [Hcu Hct].
    destruct (@recorded_edge _ _ _ _ Hut) as (Hu & _ & _ & Elu & Elt).
    rewrite Elu, Elt.
    repeat split; try (apply casing_get_written; assumption).
    + destruct (dg_next (new_Map (lowerCasePairs lower pairs)) u)
        as [n|] eqn:E; [|congruence].
      apply dg_next_source in E. unfold lowerCasePairs in E.
      rewrite !map_map in *. exact E.
    + apply transitiveDag_spec in Hut. destruct Hut as [l [Hs _]].
      destruct (@steps_end _ _ _ _ _ Hs) as [x Hx]; [discriminate|].
      apply dg_next_target in Hx. unfold lowerCasePairs in Hx.
      rewrite !map_map in *. exact Hx.
  - rewrite length_sort, length_map. apply length_transitiveDag.
Qed.

Lemma shortCuts_invents_nothing_witness :
  shortCuts ascii_toLowerCase A_B_C true
  = ([], Ok [("/en-US/docs/A", "/en-US/docs/C");
             ("/en-US/docs/B", "/en-US/docs/C")])
  /\ In "/en-US/docs/B" (map fst A_B_C ++ map snd A_B_C).
Proof.
  split; [reflexivity|].
  exact (proj1 (proj1 (shortCuts_invents_nothing ascii_toLowerCase A_B_C
                                                 true eq_refl)
                      ("/en-US/docs/B", "/en-US/docs/C")
                      (or_intror (or_introl eq_refl)))).
Defined.

(** X5.  The flags of the validators only add checks.  A source that
    [validateFromURL] accepts with [checkResolve] is accepted without it; a
    target that [validateToURL] accepts is accepted with [checkResolve]
    switched off and with [checkPath] switched off. *)
Theorem checks_only_add :
  forall (toLowerCase : string -> string) (E : Env) (url : string)
         (checkResolve checkPath : bool) (log : list string),
    (validateFromURL toLowerCase E url checkResolve = (log, Ok tt) ->
     exists log', validateFromURL toLowerCase E url false = (log', Ok tt))
    /\ (validateToURL toLowerCase E url checkResolve checkPath = (log, Ok tt) ->
        (exists log',
           validateToURL toLowerCase E url false checkPath = (log', Ok tt))
        /\ (exists log',
              validateToURL toLowerCase E url checkResolve false
              = (log', Ok tt))).
Proof.
  intros lower E url cr cp log. split.
  - apply validateFromURL_relax.
  - apply validateToURL_relax.
Qed.

Lemma checks_only_add_witness :
  validateToURL ascii_toLowerCase (docs_env example_disk) "/en-US/docs/C"
                true true
  = ([], Ok tt)
  /\ exists log',
       validateToURL ascii_toLowerCase (docs_env example_disk)
                     "/en-US/docs/C" true false
       = (log', Ok tt).
Proof.
  split; [reflexivity|].
  exact (proj2 (proj2 (checks_only_add ascii_toLowerCase
                         (docs_env example_disk) "/en-US/docs/C" true true
                         [])
                      eq_refl)).
Defined.

(** X6.  A table that loads strictly loads relaxed, with the same pairs:
    when [loadPairsFromFile] returns pairs for a file with [strict], it
    returns the same pairs without. *)
Theorem strict_load_implies_relaxed :
  forall (toLowerCase : string -> string) (E : Env) (filePath : string)
         (log : list string) (pairs : list pair),
    loadPairsFromFile toLowerCase E filePath true = (log, Ok pairs) ->
    exists log',
      loadPairsFromFile toLowerCase E filePath false = (log', Ok pairs).
Proof.
  intros lower E filePath log pairs H.
  apply loadPairsFromFile_Ok in H.
  destruct H as (content & l & Hfile & -> & Hv).
  apply validatePairs_relax in Hv. destruct Hv as [l' Hv].
  rewrite (loadPairsFromFile_eq _ _ _ _ Hfile), bind_ret_l, Hv.
  cbn [bind ret]. eexists. reflexivity.
Qed.

Lemma strict_load_implies_relaxed_witness :
  exists log',
    loadPairsFromFile ascii_toLowerCase
      (written (docs_env example_disk)
         (save (docs_env example_disk) "/content/en-us"
            [("/en-US/docs/A", "/en-US/docs/C")]))
      "/content/en-us/_redirects.txt" false
    = (log', Ok [("/en-US/docs/A", "/en-US/docs/C")]).
Proof.
  exact (strict_load_implies_relaxed ascii_toLowerCase
           (written (docs_env example_disk)
              (save (docs_env example_disk) "/content/en-us"
                 [("/en-US/docs/A", "/en-US/docs/C")]))
           "/content/en-us/_redirects.txt" eq_refl).
Defined.

(** X7.  A strictly loaded table is flat.  When [loadPairsFromFile] returns
    pairs for a file with [strict], their sources are pairwise distinct up
    to letter case, and no target without "://" is a source of the table;
    such a target, unless it is a vanity URL, does not even share its
    document, the lowercased URL without the fragment, with a source. *)
Theorem strict_table_flat :
  forall (toLowerCase : string -> string) (E : Env) (filePath : string)
         (log : list string) (pairs : list pair),
    loadPairsFromFile toLowerCase E filePath true = (log, Ok pairs) ->
    NoDup (map (fun p => toLowerCase (fst p)) pairs)
    /\ forall p q, In p pairs -> In q pairs ->
                   includes (snd p) "://" = false ->
                   snd p <> fst q
                   /\ (isVanityRedirectURL E (snd p) = false ->
                       toLowerCase (bareURL (snd p))
                       <> toLowerCase (bareURL (fst q))).
Proof.
  intros lower E filePath log pairs H.
  apply loadPairsFromFile_strict_Ok in H.
  destruct H as (l1 & l2 & l3 & _ & Hdup & Hv). split.
  - apply errorOnDuplicated_NoDup in Hdup. rewrite map_map in Hdup. exact Hdup.
  - intros p q Hp Hq Hext.
    destruct (validatePairs_Ok _ _ _ _ q Hv Hq) as [[lq Hfrom] _].
    destruct (validatePairs_Ok _ _ _ _ p Hv Hp) as [_ [lp Hto]].
    pose proof (validateFromURL_not_vanity _ _ _ _ Hfrom) as Hqv.
    apply validateFromURL_Ok in Hfrom.
    destruct Hfrom as (_ & _ & _ & l & path & Hpath & Hnone).
    assert (Hkey : isVanityRedirectURL E (snd p) = false ->
                   lower (bareURL (snd p)) <> lower (bareURL (fst q))).
    { intros Hpv Hkey.
      destruct (validateToURL_checked _ _ _ _ Hto Hpv Hext)
        as (l' & path' & Hpath' & Hsome).
      pose proof (resolveDocumentPath_key lower E _ _ Hpv Hqv Hkey) as Heq.
      rewrite Hpath, Hpath' in Heq. simpl in Heq. congruence. }
    split; auto.
    intros Heq. destruct (isVanityRedirectURL E (snd p)) eqn:Hpv.
    + congruence.
    + apply Hkey; auto. now rewrite Heq.
Qed.

Lemma strict_table_flat_witness :
  loadPairsFromFile ascii_toLowerCase
    (written (docs_env example_disk)
       (save (docs_env example_disk) "/content/en-us"
          [("/en-US/docs/A", "/en-US/docs/C")]))
    "/content/en-us/_redirects.txt" true
  = ([], Ok [("/en-US/docs/A", "/en-US/docs/C")])
  /\ "/en-US/docs/C" <> "/en-US/docs/A".
Proof.
  split; [reflexivity|].
  exact (proj1 (proj2 (strict_table_flat ascii_toLowerCase
                         (written (docs_env example_disk)
                            (save (docs_env example_disk) "/content/en-us"
                               [("/en-US/docs/A", "/en-US/docs/C")]))
                         "/content/en-us/_redirects.txt" eq_refl)
                      ("/en-US/docs/A", "/en-US/docs/C")
                      ("/en-US/docs/A", "/en-US/docs/C")
                      (or_introl eq_refl) (or_introl eq_refl) eq_refl)).
Defined.

(** X8.  A vanity URL is a target and never a source: [validateToURL]
    accepts it, whatever the flags, without a line in the log, and
    [validateFromURL] never accepts it, whatever the flag. *)
Theorem vanity_is_target_only :
  forall (toLowerCase : string -> string) (E : Env) (url : string),
    isVanityRedirectURL E url = true ->
    (forall checkResolve checkPath,
        validateToURL toLowerCase E url checkResolve checkPath = ([], Ok tt))
    /\ (forall checkResolve log,
          validateFromURL toLowerCase E url checkResolve <> (log, Ok tt)).
Proof.
  intros lower E url Hv. split.
  - intros cr cp. unfold validateToURL. now rewrite Hv.
  - intros cr log H. apply validateFromURL_not_vanity in H. congruence.
Qed.

Lemma vanity_is_target_only_witness :
  isVanityRedirectURL (docs_env []) "/en-US/" = true
  /\ validateToURL ascii_toLowerCase (docs_env []) "/en-US/" true true
     = ([], Ok tt).
Proof.
  split; [reflexivity|].
  exact (proj1 (vanity_is_target_only ascii_toLowerCase (docs_env [])
                                      "/en-US/" eq_refl) true true).
Defined.

(** X9.  The document of a URL that is no vanity URL depends on the
    lowercased URL without its fragment only: for two such URLs that agree
    on it, [resolveDocumentPath] returns the same path, or throws the same
    error. *)
Theorem resolveDocumentPath_ignores_fragment_and_case :
  forall (toLowerCase : string -> string) (E : Env) (u1 u2 : string),
    isVanityRedirectURL E u1 = false ->
    isVanityRedirectURL E u2 = false ->
    toLowerCase (bareURL u1) = toLowerCase (bareURL u2) ->
    snd (resolveDocumentPath toLowerCase E u1)
    = snd (resolveDocumentPath toLowerCase E u2).
Proof. exact resolveDocumentPath_key. Qed.

Lemma resolveDocumentPath_ignores_fragment_and_case_witness :
  snd (resolveDocumentPath ascii_toLowerCase (docs_env example_disk)
                           "/en-US/docs/C#Syntax")
  = snd (resolveDocumentPath ascii_toLowerCase (docs_env example_disk)
                             "/en-us/docs/c").
Proof.
  exact (resolveDocumentPath_ignores_fragment_and_case ascii_toLowerCase
           (docs_env example_disk) "/en-US/docs/C#Syntax" "/en-us/docs/c"
           eq_refl eq_refl eq_refl).
Defined.

(** X10.  What [validateURLLocale] accepts.  It accepts a URL exactly when
    the URL is a slash, a valid locale that is not empty and holds no
    slash, and "/docs", followed by nothing or by a slash and anything. *)
Theorem validateURLLocale_shape :
  forall (E : Env) (url : string),
    validateURLLocale E url = ([], Ok tt)
    <-> exists l tail,
          url = ("/" ++ l ++ "/docs" ++ tail)%string
          /\ (tail = "" \/ startsWith tail "/" = true)
          /\ l <> "" /\ has_char "/" l = false
          /\ In l (locale_values E).
Proof.
  intros E url. unfold validateURLLocale. split.
  - destruct (split_char "/" url) as [|h t] eqn:Es;
      [now apply split_char_not_nil in Es|].
    cbn [hd nth_error].
    destruct (truthy h) eqn:Eh; [discriminate|]. apply truthy_false_nil in Eh.
    subst h. cbn [orb].
    destruct t as [|l t2]; [discriminate|]. cbn [nth_error].
    destruct (truthy l) eqn:El; [|discriminate]. cbn [negb orb].
    destruct t2 as [|d t3]; [discriminate|].
    destruct (String.eqb d "docs") eqn:Ed; [|discriminate].
    apply String.eqb_eq in Ed. subst d. cbn [negb].
    destruct (includes_elem (locale_values E) l) eqn:Ein; [|discriminate].
    intros _. apply includes_elem_In in Ein.
    apply split_char_cons in Es.
    destruct Es as [_ [[Hnil _] | (s1 & -> & Es1)]]; [discriminate|].
    symmetry in Es1. apply split_char_cons in Es1.
    destruct Es1 as [Hl [[Hnil _] | (s2 & -> & Es2)]]; [discriminate|].
    symmetry in Es2. apply split_char_cons in Es2.
    destruct Es2 as [_ Hs2].
    assert (Hne : l <> "") by (intros ->; discriminate).
    destruct Hs2 as [[_ ->] | (s3 & -> & _)].
    + exists l, "". repeat split; auto.
    + exists l, (String "/" s3).
      split; [reflexivity|]. split; [|auto].
      right. unfold startsWith. cbn [String.prefix].
      destruct (ascii_dec "/" "/"); [apply prefix_nil | congruence].
  - intros (l & tail & -> & Htail & Hne & Hl & Hin).
    assert (Hparts : exists rest,
               split_char "/" ("/" ++ l ++ "/docs" ++ tail)
               = "" :: l :: "docs" :: rest).
    { change ("/" ++ l ++ "/docs" ++ tail)%string
        with (String "/" (l ++ String "/" ("docs" ++ tail)))%string.
      cbn [split_char]. rewrite Ascii.eqb_refl, split_char_app.
      rewrite (split_char_none _ _ Hl). cbn [app].
      destruct Htail as [-> | Htail].
      - exists []. reflexivity.
      - destruct tail as [|c tail]; [discriminate|].
        unfold startsWith in Htail. cbn [String.prefix] in Htail.
        destruct (ascii_dec "/" c) as [<-|]; [|discriminate].
        pose proof (split_char_not_nil "/" tail) as Hnn.
        destruct (split_char "/" tail) as [|h t] eqn:Et; [congruence|].
        exists (h :: t). simpl. now rewrite Et. }
    destruct Hparts as [rest ->]. cbn [hd nth_error truthy orb].
    rewrite (truthy_true Hne). cbn [negb orb String.eqb].
    apply includes_elem_In in Hin. rewrite Hin. reflexivity.
Qed.

(** X11.  [removeConflictingOldRedirects] never throws, and logs one line
    for every pair it removes, in the order of the old pairs: the log is
    the lines of the old pairs whose lowercased source is the lowercased
    target of an update, the value the other old pairs. *)
Theorem removeConflictingOldRedirects_log :
  forall (toLowerCase : string -> string) (oldPairs updatePairs : list pair),
    removeConflictingOldRedirects toLowerCase oldPairs updatePairs
    = (map conflict_line
           (filter (conflicting toLowerCase updatePairs) oldPairs),
       Ok (filter (fun old => negb (conflicting toLowerCase updatePairs old))
                  oldPairs)).
Proof.
  intros lower olds updates. unfold removeConflictingOldRedirects.
  destruct olds as [|p0 olds]; [reflexivity|].
  cbn [List.length Nat.eqb].
  rewrite <- (filterM_log (conflicting lower updates) conflict_line).
  generalize (p0 :: olds). intros xs.
  induction xs as [|[from to] xs IH]; [reflexivity|].
  cbn [filterM]. rewrite IH.
  rewrite set_has_new_Set, existsb_map_compose.
  unfold conflicting, conflict_line. cbn [fst snd]. reflexivity.
Qed.

(** X12.  [removeOrphanedRedirects], when it returns, returns the pairs
    that are not orphaned, in their order: the pairs whose source has no
    document and whose target, if it starts with a slash, has one.  Run on
    its own result it removes nothing. *)
Theorem removeOrphanedRedirects_spec :
  forall (toLowerCase : string -> string) (E : Env) (pairs kept : list pair)
         (log : list string),
    removeOrphanedRedirects toLowerCase E pairs = (log, Ok kept) ->
    kept = filter (fun p => negb (orphaned toLowerCase E p)) pairs
    /\ exists log',
         removeOrphanedRedirects toLowerCase E kept = (log', Ok kept).
Proof.
  intros lower E pairs kept log H.
  pose proof (removeOrphaned_filter _ _ _ H) as Hkept. split; [exact Hkept|].
  unfold removeOrphanedRedirects in *.
  apply filterM_Ok in H. destruct H as [Hall _].
  apply filterM_all_true. intros p Hp. rewrite Hkept in Hp.
  apply filter_In in Hp. destruct Hp as [Hp Hb].
  destruct (Hall p Hp) as (l & b & Hkp).
  rewrite (removeOrphaned_keep _ _ _ Hkp), Hb in Hkp. eauto.
Qed.

Lemma removeOrphanedRedirects_spec_witness :
  removeOrphanedRedirects ascii_toLowerCase (docs_env example_disk)
    [("/en-US/docs/A", "/en-US/docs/C"); ("/en-US/docs/C", "/en-US/docs/A")]
  = (["removing orphaned redirect (from exists): /en-US/docs/C"
      ++ String TAB "" ++ "/en-US/docs/A"]%string,
     Ok [("/en-US/docs/A", "/en-US/docs/C")])
  /\ exists log',
       removeOrphanedRedirects ascii_toLowerCase (docs_env example_disk)
         [("/en-US/docs/A", "/en-US/docs/C")]
       = (log', Ok [("/en-US/docs/A", "/en-US/docs/C")]).
Proof.
  split; [reflexivity|].
  exact (proj2 (removeOrphanedRedirects_spec ascii_toLowerCase
                  (docs_env example_disk)
                  [("/en-US/docs/A", "/en-US/docs/C");
                   ("/en-US/docs/C", "/en-US/docs/A")]
                  (kept := [("/en-US/docs/A", "/en-US/docs/C")])
                  eq_refl)).
Defined.

(** X13.  [errorOnEncoded] accepts a table exactly when every row has a
    target and [decodePairs] returns the table as it is; neither logs. *)
Theorem errorOnEncoded_spec :
  forall (E : Env) (rows : list row),
    errorOnEncoded E rows = ([], Ok tt)
    <-> exists pairs, rows = map loose pairs
                      /\ decodePairs E rows = ([], Ok pairs).
Proof.
  intros E rows. unfold errorOnEncoded, decodePairs.
  induction rows as [|[from to] rows IH].
  - split; [exists []; split; reflexivity | reflexivity].
  - cbn [forEach mapM]. split.
    + intros H. apply bind_Ok in H.
      destruct H as (l1 & [] & l2 & Hrow & Hrest & Hlog).
      symmetry in Hlog. apply app_eq_nil in Hlog. destruct Hlog as [-> ->].
      apply IH in Hrest. destruct Hrest as (ps & -> & Hps).
      apply bind_Ok in Hrow.
      destruct Hrow as (l3 & [dF dT] & l4 & Hd & Hrow & Hlog).
      symmetry in Hlog. apply app_eq_nil in Hlog. destruct Hlog as [-> ->].
      destruct (String.eqb dF from) eqn:EF; [|discriminate].
      apply String.eqb_eq in EF. subst dF.
      destruct to as [to|]; [|discriminate].
      destruct (String.eqb dT to) eqn:ET; [|discriminate].
      apply String.eqb_eq in ET. subst dT.
      exists ((from, to) :: ps). split; [reflexivity|].
      rewrite Hd, Hps. reflexivity.
    + intros (ps & Hrows & H). destruct ps as [|[f t] ps]; [discriminate|].
      cbn [map loose fst snd] in Hrows. inversion Hrows; subst.
      apply bind_Ok in H. destruct H as (l1 & d & l2 & Hd & H & Hlog).
      symmetry in Hlog. apply app_eq_nil in Hlog. destruct Hlog as [-> ->].
      apply bind_Ok in H. destruct H as (l3 & ds & l4 & Hds & H & Hlog).
      symmetry in Hlog. apply app_eq_nil in Hlog. destruct Hlog as [-> ->].
      inversion H; subst.
      rewrite Hd. cbn [bind]. rewrite !String.eqb_refl. cbn [negb].
      assert (Hrest : forEach
                        (fun r : row =>
                           let '(from, to) := r in
                           d <- decodePair E (from, to) ;;
                           (let '(decodedFrom, decodedTo) := d in
                            if negb (String.eqb decodedFrom from) then
                              throw ("From URL must be decoded: " ++ from)%string
                            else if negb (match to with
                                          | Some to => String.eqb decodedTo to
                                          | None => false
                                          end) then
                              throw ("To URL must be decoded: "
                                     ++ shown_path to)%string
                            else ret tt))
                        (map loose ps) = ([], Ok tt)).
      { apply IH. exists ps. split; [reflexivity | exact Hds]. }
      rewrite Hrest. reflexivity.
Qed.

(** X14.  [load] stores whole tables, in the order of the locales.  When
    [load] ends, by returning or by throwing, the cache is the cache it
    started with after the pairs of the tables of a first part of the table
    files went in, in their order: a later pair with the same lowercased
    source replaces the target of an earlier one, and what the cache had
    for other sources stays.  When it returns, that part is all the table
    files; when it throws, loading the next file threw that error and
    nothing of that file went in. *)
Theorem load_stores_whole_tables :
  forall (toLowerCase : string -> string) (E : Env) (locales : list string)
         (verbose : bool) (redirects redirects' : JsMap) (log : list string)
         (r : result unit),
    Cache.load toLowerCase E locales verbose redirects
    = (redirects', (log, r)) ->
    exists done rest tables,
      table_files toLowerCase E locales = done ++ rest
      /\ Forall2 (loads toLowerCase E) done tables
      /\ (forall k,
            map_get redirects' k
            = match last_value (map (fun p => (toLowerCase (fst p), snd p))
                                    (List.concat tables)) k with
              | Some v => Some v
              | None => map_get redirects k
              end)
      /\ match r with
         | Ok _ => rest = []
         | Throw msg =>
             exists f rest' l,
               rest = f :: rest'
               /\ loadPairsFromFile toLowerCase E f false = (l, Throw msg)
         end.
Proof.
  intros lower E locales verbose s s' log r H.
  apply load_outcome in H.
  destruct H as (done & rest & tables & Hfiles & Hall & -> & Hr).
  exists done, rest, tables. repeat split; auto.
  intros k. apply map_get_store_pairs.
Qed.

Lemma load_stores_whole_tables_witness :
  exists done rest tables,
    table_files ascii_toLowerCase (docs_env chain_disk) ["en-us"; "fr"]
    = done ++ rest
    /\ Forall2 (loads ascii_toLowerCase (docs_env chain_disk)) done tables
    /\ (forall k,
          map_get [("/en-us/docs/a", "/en-US/docs/B");
                   ("/en-us/docs/b", "/en-US/docs/C")] k
          = match last_value
                    (map (fun p => (ascii_toLowerCase (fst p), snd p))
                         (List.concat tables)) k with
            | Some v => Some v
            | None => map_get [] k
            end)
    /\ rest = [].
Proof.
  exact (load_stores_whole_tables ascii_toLowerCase (docs_env chain_disk)
           ["en-us"; "fr"] true [] (r := Ok tt) eq_refl).
Defined.

(** X15.  [resolve] loads once.  On the empty cache [resolve] runs [load]
    for all locales: when that throws, [resolve] throws the same error, and
    otherwise it answers from the cache that [load] left.  On that cache,
    unless it is empty, [resolve] neither loads nor logs nor changes the
    cache, also after a [load] that threw.  The answer is the target that
    the cache has for the decoded, lowercased URL, after the fundamental
    redirect if there is one, and that URL itself when the cache has
    none. *)
Theorem resolve_loads_once :
  forall (toLowerCase : string -> string) (E : Env)
         (resolveFundamental : string -> option string)
         (redirects : JsMap) (log : list string) (r : result unit),
    Cache.load toLowerCase E (map fst (VALID_LOCALES E)) false []
    = (redirects, (log, r)) ->
    forall url,
      Cache.resolve toLowerCase E resolveFundamental url []
      = (redirects,
         (log, match r with
               | Ok _ => lookup toLowerCase E resolveFundamental redirects url
               | Throw msg => Throw msg
               end))
      /\ (redirects <> [] ->
          Cache.resolve toLowerCase E resolveFundamental url redirects
          = (redirects,
             ([], lookup toLowerCase E resolveFundamental redirects url))).
Proof.
  intros lower E rf s log r Hload url.
  assert (Hval : forall k v, map_get s k = Some v -> v <> "").
  { eapply load_values; [exact Hload|]. intros k v Hk. discriminate. }
  split; [|intros Hne; now apply resolve_lookup].
  unfold Cache.resolve, lookup. fold (fundamentalOrUrl rf url).
  rewrite sbind_unfold. unfold Cache.redirects_size at 1.
  cbn [ret List.length]. rewrite sbind_unfold. cbn [Nat.eqb].
  rewrite Hload. destruct r as [[]|msg]; [|reflexivity].
  unfold Cache.sbind, Cache.sret, Cache.run, Cache.redirects_get, lift.
  cbn [ret].
  destruct (decodePath E (fundamentalOrUrl rf url)) as [d|msg];
    [|now rewrite !app_nil_r].
  rewrite !app_nil_r.
  destruct (map_get s (lower d)) as [to|] eqn:Eg; [|reflexivity].
  rewrite (truthy_true (Hval _ _ Eg)). reflexivity.
Qed.

Lemma resolve_loads_once_witness :
  Cache.resolve ascii_toLowerCase (docs_env chain_disk) (fun _ => None)
                "/en-US/docs/A" []
  = ([("/en-us/docs/a", "/en-US/docs/B"); ("/en-us/docs/b", "/en-US/docs/C")],
     ([], Ok "/en-US/docs/B"))
  /\ Cache.resolve ascii_toLowerCase (docs_env chain_disk) (fun _ => None)
                   "/en-US/docs/A"
                   [("/en-us/docs/a", "/en-US/docs/B");
                    ("/en-us/docs/b", "/en-US/docs/C")]
     = ([("/en-us/docs/a", "/en-US/docs/B");
         ("/en-us/docs/b", "/en-US/docs/C")],
        ([], Ok "/en-US/docs/B")).
Proof.
  destruct (resolve_loads_once ascii_toLowerCase (docs_env chain_disk)
              (fun _ => None) (r := Ok tt) eq_refl "/en-US/docs/A")
    as [H1 H2].
  split; [exact H1 | apply H2; discriminate].
Defined.



(** X17.  [redirectFilePathForLocale] finds files that exist.  Without
    [throws] it neither throws nor logs.  The path it returns is a file on
    disk: the table under the content root, or, when there is none, the
    table under the translated root; the locale goes into the path in
    lowercase.  It returns [null] only when the content root has no such
    table, and with [throws] it throws, naming the locale as given, exactly
    then. *)
Theorem redirectFilePathForLocale_spec :
  forall (toLowerCase : string -> string) (E : Env) (locale : string),
  exists r,
    redirectFilePathForLocale toLowerCase E locale false = ([], Ok r)
    /\ redirectFilePathForLocale toLowerCase E locale true
       = ([], match r with
              | Some p => Ok (Some p)
              | None => Throw ("no _redirects file for " ++ locale)%string
              end)
    /\ match r with
       | Some p =>
           existsSync E p = true
           /\ (p = path_join E [CONTENT_ROOT E; toLowerCase locale;
                                "_redirects.txt"]
               \/ (existsSync E (path_join E [CONTENT_ROOT E;
                                              toLowerCase locale;
                                              "_redirects.txt"]) = false
                   /\ exists root,
                        CONTENT_TRANSLATED_ROOT E = Some root
                        /\ root <> ""
                        /\ p = path_join E [root; toLowerCase locale;
                                            "_redirects.txt"]))
       | None =>
           existsSync E (path_join E [CONTENT_ROOT E; toLowerCase locale;
                                      "_redirects.txt"]) = false
       end.
Proof.
  intros lower E locale. unfold redirectFilePathForLocale.
  destruct (existsSync E (path_join E [CONTENT_ROOT E; lower locale;
                                       "_redirects.txt"])) eqn:Ec.
  - eexists. split; [reflexivity|]. split; [reflexivity|]. auto.
  - destruct (CONTENT_TRANSLATED_ROOT E) as [root|].
    + destruct root as [|c root]; cbn [truthy].
      * exists None. auto.
      * destruct (existsSync E (path_join E [String c root; lower locale;
                                             "_redirects.txt"])) eqn:Et.
        -- eexists. split; [reflexivity|]. split; [reflexivity|].
           split; [exact Et|]. right. split; [reflexivity|].
           exists (String c root). repeat split. discriminate.
        -- exists None. auto.
    + exists None. auto.
Qed.

(** X18.  Without a translated root, a URL of another locale than en-US
    counts as a document.  When [CONTENT_TRANSLATED_ROOT] is not set, or
    empty, [resolveDocumentPath] returns a path for every URL that is no
    vanity URL and whose lowercased locale is not "en-us"; hence
    [validateFromURL] never accepts such a URL as a source, and
    [removeOrphanedRedirects] removes every pair with such a source. *)
Theorem translated_source_needs_root :
  forall (toLowerCase : string -> string) (E : Env) (url locale : string),
    found (CONTENT_TRANSLATED_ROOT E) = false ->
    isVanityRedirectURL E url = false ->
    nth_error (split_char "/" (toLowerCase (bareURL url))) 1 = Some locale ->
    String.eqb locale "en-us" = false ->
    has_document toLowerCase E url = true
    /\ (forall checkResolve log,
          validateFromURL toLowerCase E url checkResolve <> (log, Ok tt))
    /\ (forall to, orphaned toLowerCase E (url, to) = true).
Proof.
  intros lower E url locale Hroot Hv Hloc Hne.
  assert (Hdoc : has_document lower E url = true).
  { unfold has_document, resolveDocumentPath. rewrite Hv.
    fold (bareURL url). rewrite Hloc, Hne.
    destruct (isArchivedFilePath E _); [reflexivity|].
    destruct (CONTENT_TRANSLATED_ROOT E) as [r|]; [|reflexivity].
    cbn [found] in Hroot. rewrite Hroot. reflexivity. }
  split; [exact Hdoc|]. split.
  - intros cr log H. apply validateFromURL_Ok in H.
    destruct H as (_ & _ & _ & l & path & Hpath & Hnone).
    rewrite (has_document_Ok _ _ _ Hpath) in Hdoc. congruence.
  - intros to. unfold orphaned. cbn [fst]. now rewrite Hdoc.
Qed.

Lemma translated_source_needs_root_witness :
  has_document ascii_toLowerCase (docs_env []) "/fr/docs/A" = true
  /\ orphaned ascii_toLowerCase (docs_env [])
              ("/fr/docs/A", "/fr/docs/B") = true.
Proof.
  destruct (translated_source_needs_root ascii_toLowerCase (docs_env [])
              "/fr/docs/A" (locale := "fr") eq_refl eq_refl eq_refl eq_refl)
    as (H1 & _ & H3).
  split; [exact H1 | exact (H3 "/fr/docs/B")].
Defined.

(** X19.  The tables are loaded, checked and written without a look at the
    cache: [loadPairsFromFile], [loadLocaleAndAdd], [validateLocale] and
    [load] do the same whatever [resolve] does. *)
Theorem tables_ignore_resolve :
  forall (toLowerCase : string -> string) (E : Env) (r : string -> M string),
    (forall filePath strict,
        loadPairsFromFile toLowerCase (with_resolve E r) filePath strict
        = loadPairsFromFile toLowerCase E filePath strict)
    /\ (forall locale updatePairs fix_,
          loadLocaleAndAdd toLowerCase (with_resolve E r) locale updatePairs
                           fix_
          = loadLocaleAndAdd toLowerCase E locale updatePairs fix_)
    /\ (forall locale strict,
          validateLocale toLowerCase (with_resolve E r) locale strict
          = validateLocale toLowerCase E locale strict)
    /\ (forall locales verbose redirects,
          Cache.load toLowerCase (with_resolve E r) locales verbose redirects
          = Cache.load toLowerCase E locales verbose redirects).
Proof.
  intros lower E r. repeat split; reflexivity.
Qed.

(** X20.  What [loadLocaleAndAdd] returns, in one formula.  The stored
    pairs are the pairs of the table of the locale, loaded with [strict]
    unless [fix] is set, and none when there is no such file.  The pairs
    returned are [shortCuts], without [throws], of the stored pairs whose
    lowercased source is no lowercased target of an update, followed by the
    updates; with [fix], the orphaned pairs are removed from them. *)
Theorem loadLocaleAndAdd_pipeline :
  forall (toLowerCase : string -> string) (E : Env) (locale : string)
         (updatePairs : list pair) (fix_ : bool) (log : list string)
         (r : loaded),
    loadLocaleAndAdd toLowerCase E locale updatePairs fix_ = (log, Ok r) ->
    exists stored l flat,
      (if existsSync E (path_join E [loaded_root r; toLowerCase locale;
                                     "_redirects.txt"])
       then exists l',
              loadPairsFromFile toLowerCase E
                (path_join E [loaded_root r; toLowerCase locale;
                              "_redirects.txt"])
                (negb fix_)
              = (l', Ok stored)
       else stored = [])
      /\ shortCuts toLowerCase
           (filter (fun old => negb (conflicting toLowerCase updatePairs old))
                   stored ++ updatePairs)
           false
         = (l, Ok flat)
      /\ loaded_pairs r
         = if fix_ then filter (fun p => negb (orphaned toLowerCase E p)) flat
           else flat.
Proof.
  intros lower E locale updates fix_ log r H.
  exact (loadLocaleAndAdd_pipeline_always lower E locale updates fix_ H).
Qed.

Lemma loadLocaleAndAdd_pipeline_witness :
  exists stored l flat,
    (exists l',
        loadPairsFromFile ascii_toLowerCase (docs_env chain_disk)
                          "/content/en-us/_redirects.txt" false
        = (l', Ok stored))
    /\ shortCuts ascii_toLowerCase
         (filter (fun old =>
                    negb (conflicting ascii_toLowerCase
                                      [("/en-US/docs/Z", "/en-US/docs/C")]
                                      old))
                 stored ++ [("/en-US/docs/Z", "/en-US/docs/C")])
         false
       = (l, Ok flat)
    /\ [("/en-US/docs/A", "/en-US/docs/C");
        ("/en-US/docs/B", "/en-US/docs/C");
        ("/en-US/docs/Z", "/en-US/docs/C")]
       = filter (fun p => negb (orphaned ascii_toLowerCase
                                         (docs_env chain_disk) p))
                flat.
Proof.
  exact (loadLocaleAndAdd_pipeline ascii_toLowerCase (docs_env chain_disk)
           "en-US" [("/en-US/docs/Z", "/en-US/docs/C")] true
           (r := {| loaded_pairs := [("/en-US/docs/A", "/en-US/docs/C");
                                     ("/en-US/docs/B", "/en-US/docs/C");
                                     ("/en-US/docs/Z", "/en-US/docs/C")];
                    loaded_root := "/content";
                    changed := false |})
           eq_refl).
Defined.

(** X21.  Loading again changes nothing.  What [load] does to the cache
    does not depend on the cache; run on the cache that an earlier run for
    the same locales left, whether that run returned or threw, it leaves
    the cache as it is, entry for entry, and logs, returns or throws as
    before.  The keys of a [Map] are pairwise distinct. *)
Theorem load_again :
  forall (toLowerCase : string -> string) (E : Env) (locales : list string)
         (verbose : bool) (redirects redirects' : JsMap) (out : M unit),
    NoDup (keys redirects) ->
    Cache.load toLowerCase E locales verbose redirects = (redirects', out) ->
    Cache.load toLowerCase E locales verbose redirects' = (redirects', out).
Proof.
  intros lower E locales verbose s s' out Hnd H.
  destruct (load_uniform lower E locales verbose) as (table & out0 & Hu).
  rewrite Hu in H. inversion H; subst.
  rewrite Hu. now rewrite store_pairs_twice.
Qed.

Lemma load_again_witness :
  Cache.load ascii_toLowerCase (docs_env chain_disk) ["en-us"; "fr"] true
    [("/en-us/docs/a", "/en-US/docs/B"); ("/en-us/docs/b", "/en-US/docs/C")]
  = ([("/en-us/docs/a", "/en-US/docs/B"); ("/en-us/docs/b", "/en-US/docs/C")],
     (["Checking /content/en-us/_redirects.txt"], Ok tt)).
Proof.
  exact (load_again ascii_toLowerCase (docs_env chain_disk) ["en-us"; "fr"]
           true [] (NoDup_nil _) eq_refl).
Defined.

(** X22.  [checkURLInvalidSymbols] throws for a URL with a newline, names
    the tab for a URL with a tab and no newline, and returns otherwise; it
    never logs. *)
Theorem checkURLInvalidSymbols_spec :
  forall url : string,
    checkURLInvalidSymbols url
    = if has_char LF url then
        ([], Throw ("URL contains invalid character '" ++ String LF "'")%string)
      else if has_char TAB url then
        ([], Throw ("URL contains invalid character '" ++ String TAB "'")%string)
      else ([], Ok tt).
Proof.
  intros url. unfold checkURLInvalidSymbols, FORBIDDEN_URL_SYMBOLS.
  cbn [forEach]. rewrite !includes_char.
  destruct (has_char LF url); [reflexivity|].
  destruct (has_char TAB url); reflexivity.
Qed.



(** X24.  The first line of a table is dropped, whatever it says.  Two
    texts that, trimmed, differ in their first line only have the same
    rows; a text of one line has no rows. *)
Theorem first_line_is_dropped :
  forall content content' first first' rest : string,
    has_char LF first = false ->
    has_char LF first' = false ->
    trim content = (first ++ String LF rest)%string ->
    trim content' = (first' ++ String LF rest)%string ->
    parse_rows content = parse_rows content'
    /\ parse_rows first = [].
Proof.
  intros content content' first first' rest Hf Hf' Hc Hc'. split.
  - unfold parse_rows. rewrite Hc, Hc', !split_char_app.
    now rewrite (split_char_none _ _ Hf), (split_char_none _ _ Hf').
  - assert (Htrim : has_char LF (trim first) = false).
    { unfold trim, trimEnd.
      rewrite has_char_rev. apply has_char_trimStart_rev.
      rewrite has_char_rev. now apply has_char_trimStart. }
    unfold parse_rows. now rewrite (split_char_none _ _ Htrim).
Qed.

Lemma first_line_is_dropped_witness :
  parse_rows (table_text [("/en-US/docs/A", "/en-US/docs/B")])
  = parse_rows ("/en-US/docs/X" ++ String TAB "/en-US/docs/Y"
                ++ String LF ("/en-US/docs/A" ++ String TAB "/en-US/docs/B"
                              ++ String LF ""))%string
  /\ parse_rows header = [].
Proof.
  exact (@first_line_is_dropped
           (table_text [("/en-US/docs/A", "/en-US/docs/B")])
           ("/en-US/docs/X" ++ String TAB "/en-US/docs/Y"
            ++ String LF ("/en-US/docs/A" ++ String TAB "/en-US/docs/B"
                          ++ String LF ""))%string
           header
           ("/en-US/docs/X" ++ String TAB "/en-US/docs/Y")%string
           ("/en-US/docs/A" ++ String TAB "/en-US/docs/B")%string
           eq_refl eq_refl eq_refl eq_refl).
Defined.

(** X25.  Every line of a loaded table gives a pair.  When
    [loadPairsFromFile] returns, strict or not, the rows of the text are
    the pairs it returns, one for each line after the first of the trimmed
    text: a line without a second field makes it throw. *)
Theorem loaded_rows_are_complete :
  forall (toLowerCase : string -> string) (E : Env) (filePath : string)
         (strict : bool) (log : list string) (pairs : list pair),
    loadPairsFromFile toLowerCase E filePath strict = (log, Ok pairs) ->
    exists content,
      files E filePath = Some content
      /\ parse_rows content = map loose pairs
      /\ List.length pairs
         = List.length (tl (split_char LF (trim content))).
Proof.
  intros lower E filePath strict log pairs H.
  apply loadPairsFromFile_Ok in H.
  destruct H as (content & l & Hfile & -> & Hv).
  exists content. split; [exact Hfile|].
  pose proof (validatePairs_typed _ _ _ _ Hv) as Hrows.
  split; [now rewrite Hrows|].
  rewrite <- (length_map loose), Hrows. unfold parse_rows.
  now rewrite length_map.
Qed.

Lemma loaded_rows_are_complete_witness :
  exists content,
    files (docs_env chain_disk) "/content/en-us/_redirects.txt" = Some content
    /\ parse_rows content = map loose A_B_C
    /\ List.length A_B_C = List.length (tl (split_char LF (trim content))).
Proof.
  exact (loaded_rows_are_complete ascii_toLowerCase (docs_env chain_disk)
           "/content/en-us/_redirects.txt" false eq_refl).
Defined.
